(** * Reactivity core of vue-next: identity registry and effect runtime

    A shallow embedding of [packages/reactivity/src/reactive.ts] (the
    identity registry: [reactive], [readonly], [shallowReadonly],
    [createReactiveObject]) and of [packages/reactivity/src/effect.ts]
    (the effect runtime and the dependency graph: [run], [cleanup],
    [track], [trigger], [stop]), with the properties the specification
    states about them. *)

From Stdlib Require Import List Bool Arith Lia String.
From stdpp Require Import gmap list.
Import ListNotations.

(* ===================================================================== *)
(** * Part I: reactive.ts, the identity registry *)
(* ===================================================================== *)

Module Reactive.

(** Objects are identified by their address in a heap; a JavaScript value
    is a primitive or a reference to a heap object. *)
Abbreviation objId := nat (only parsing).

Inductive value : Type :=
| VUndefined
| VNull
| VBoolean (b : bool)
| VNumber (n : nat)
| VString (s : string)
| VRef (id : objId).

(** The five handler tables imported from [./baseHandlers] and
    [./collectionHandlers]; only their identity matters here. *)
Inductive Handlers : Type :=
| mutableHandlers
| readonlyHandlers
| shallowReadonlyHandlers
| mutableCollectionHandlers
| readonlyCollectionHandlers.

(** [target.constructor]. *)
Inductive Ctor : Type :=
| CtorObject | CtorArray | CtorSet | CtorMap | CtorWeakMap | CtorWeakSet
| CtorOther (name : string).

(** What [reactive.ts] can see of a heap object: whether [typeof] answers
    ['function'], the string [toRawType] extracts from
    [Object.prototype.toString], the two marker properties [_isVue] and
    [_isVNode] (as truthiness), the constructor, and, for the result of
    [new Proxy(target, handlers)], the pair it was built from. *)
Record object : Type := mkObject {
  callable : bool;
  rawType : string;
  _isVue : bool;
  _isVNode : bool;
  ctor : Ctor;
  proxyOf : option (objId * Handlers)
}.

(** The module-level state: the heap, the four WeakMaps and the two
    WeakSets of lines 15-23, and the diagnostics [console.warn] printed. *)
Record state : Type := mkState {
  heap : list object;
  rawToReactive : gmap objId objId;
  reactiveToRaw : gmap objId objId;
  rawToReadonly : gmap objId objId;
  readonlyToRaw : gmap objId objId;
  readonlyValues : gset objId;
  nonReactiveValues : gset objId;
  warnings : list value
}.

(** The state of a freshly loaded module. *)
Definition init : state :=
  mkState [] ∅ ∅ ∅ ∅ ∅ ∅ [].

(** [WeakMap.prototype.get/has] and [WeakSet.prototype.has]: a key that is
    not an object is never present. *)
Definition wm_get (m : gmap objId objId) (v : value) : option objId :=
  match v with VRef id => m !! id | _ => None end.

Definition wm_has (m : gmap objId objId) (v : value) : bool :=
  match wm_get m v with Some _ => true | None => false end.

Definition ws_has (s : gset objId) (v : value) : bool :=
  match v with VRef id => bool_decide (id ∈ s) | _ => false end.

(** Modelled from the spec: [isObject] of [@vue/shared], which rejects
    "non-object-like inputs" ([reactive(42) === 42],
    [reactive(null) === null]): [val !== null && typeof val === 'object']. *)
Definition isObject (st : state) (v : value) : bool :=
  match v with
  | VRef id => match heap st !! id with
               | Some ob => negb (callable ob)
               | None => false
               end
  | _ => false
  end.

(** [makeMap('Object,Array,Map,Set,WeakMap,WeakSet')] (line 26). *)
Definition isObservableType (s : string) : bool :=
  existsb (String.eqb s)
    ["Object"; "Array"; "Map"; "Set"; "WeakMap"; "WeakSet"]%string.

(** [collectionTypes.has(c)] (line 25). *)
Definition collectionTypes_has (c : Ctor) : bool :=
  match c with
  | CtorSet | CtorMap | CtorWeakMap | CtorWeakSet => true
  | _ => false
  end.

(** [canObserve] (lines 30-37); it is only called on values that passed
    [isObject]. *)
Definition canObserve (st : state) (v : value) : bool :=
  match v with
  | VRef id =>
    match heap st !! id with
    | Some ob =>
      negb (_isVue ob) && negb (_isVNode ob) &&
      isObservableType (rawType ob) && negb (ws_has (nonReactiveValues st) v)
    | None => false
    end
  | _ => false
  end.

(** The two pairs of WeakMaps [createReactiveObject] is called with: the
    pair ([rawToReactive], [reactiveToRaw]) and the pair ([rawToReadonly],
    [readonlyToRaw]). The maps are mutable objects passed by reference, so
    the embedding passes which pair it is. *)
Inductive Direction : Type := Mutable | ReadonlyFamily.

#[global] Instance Direction_eq_dec : EqDecision Direction.
Proof. solve_decision. Defined.

Definition toProxy (d : Direction) (st : state) : gmap objId objId :=
  match d with Mutable => rawToReactive st | ReadonlyFamily => rawToReadonly st end.

Definition toRawMap (d : Direction) (st : state) : gmap objId objId :=
  match d with Mutable => reactiveToRaw st | ReadonlyFamily => readonlyToRaw st end.

(** [observed = new Proxy(target, handlers)]: the proxy is a new heap
    object. Its handlers delegate property reads to the target, so seen
    from [reactive.ts] it has the target's properties. *)
Definition newProxy (target : objId) (ob : object) (handlers : Handlers) : object :=
  mkObject (callable ob) (rawType ob) (_isVue ob) (_isVNode ob) (ctor ob)
           (Some (target, handlers)).

(** [toProxy.set(target, observed); toRaw.set(observed, target)] after the
    allocation of [observed]. *)
Definition register (d : Direction) (target observed : objId) (p : object)
    (st : state) : state :=
  match d with
  | Mutable =>
    mkState (heap st ++ [p])
            (<[target := observed]> (rawToReactive st))
            (<[observed := target]> (reactiveToRaw st))
            (rawToReadonly st) (readonlyToRaw st)
            (readonlyValues st) (nonReactiveValues st) (warnings st)
  | ReadonlyFamily =>
    mkState (heap st ++ [p])
            (rawToReactive st) (reactiveToRaw st)
            (<[target := observed]> (rawToReadonly st))
            (<[observed := target]> (readonlyToRaw st))
            (readonlyValues st) (nonReactiveValues st) (warnings st)
  end.

Definition warn (v : value) (st : state) : state :=
  mkState (heap st) (rawToReactive st) (reactiveToRaw st)
          (rawToReadonly st) (readonlyToRaw st)
          (readonlyValues st) (nonReactiveValues st) (warnings st ++ [v]).

Section Registry.

(** The build flag [__DEV__]. *)
Variable DEV : bool.

(** [createReactiveObject] (lines 100-138). *)
Definition createReactiveObject (target : value) (d : Direction)
    (baseHandlers collectionHandlers : Handlers) (st : state) : value * state :=
  if negb (isObject st target) then
    (target, if DEV then warn target st else st)
  else
    match wm_get (toProxy d st) target with
    | Some observed => (VRef observed, st)
    | None =>
      if wm_has (toRawMap d st) target then (target, st)
      else if negb (canObserve st target) then (target, st)
      else
        match target with
        | VRef t =>
          match heap st !! t with
          | Some ob =>
            let handlers := if collectionTypes_has (ctor ob)
                            then collectionHandlers else baseHandlers in
            let observed := length (heap st) in
            (VRef observed, register d t observed (newProxy t ob handlers) st)
          | None => (target, st)
          end
        | _ => (target, st)
        end
    end.

(** The five ways out of [createReactiveObject]. *)
Inductive cro_outcome (target : value) (d : Direction) (base coll : Handlers)
    (st : state) : value * state -> Prop :=
| cro_not_object :
    isObject st target = false ->
    cro_outcome target d base coll st (target, if DEV then warn target st else st)
| cro_cached t p :
    target = VRef t -> isObject st target = true ->
    toProxy d st !! t = Some p ->
    cro_outcome target d base coll st (VRef p, st)
| cro_is_proxy t o :
    target = VRef t -> isObject st target = true ->
    toProxy d st !! t = None -> toRawMap d st !! t = Some o ->
    cro_outcome target d base coll st (target, st)
| cro_not_observable t :
    target = VRef t -> isObject st target = true ->
    toProxy d st !! t = None -> toRawMap d st !! t = None ->
    canObserve st target = false ->
    cro_outcome target d base coll st (target, st)
| cro_fresh t ob :
    target = VRef t -> heap st !! t = Some ob -> callable ob = false ->
    toProxy d st !! t = None -> toRawMap d st !! t = None ->
    canObserve st target = true ->
    cro_outcome target d base coll st
      (VRef (length (heap st)),
       register d t (length (heap st))
         (newProxy t ob (if collectionTypes_has (ctor ob) then coll else base)) st).

(** [readonly] (lines 63-79). *)
Definition readonly (target : value) (st : state) : value * state :=
  let target :=
    match wm_get (reactiveToRaw st) target with
    | Some raw => VRef raw
    | None => target
    end in
  createReactiveObject target ReadonlyFamily
    readonlyHandlers readonlyCollectionHandlers st.

(** [reactive] (lines 44-61). *)
Definition reactive (target : value) (st : state) : value * state :=
  if wm_has (readonlyToRaw st) target then (target, st)
  else if ws_has (readonlyValues st) target then readonly target st
  else createReactiveObject target Mutable
         mutableHandlers mutableCollectionHandlers st.

(** [shallowReadonly] (lines 87-97). *)
Definition shallowReadonly (target : value) (st : state) : value * state :=
  createReactiveObject target ReadonlyFamily
    shallowReadonlyHandlers readonlyCollectionHandlers st.

(** [isReactive], [isReadonly], [toRaw] (lines 141-153). *)
Definition isReactive (v : value) (st : state) : bool :=
  wm_has (reactiveToRaw st) v || wm_has (readonlyToRaw st) v.

Definition isReadonly (v : value) (st : state) : bool :=
  wm_has (readonlyToRaw st) v.

Definition toRaw (observed : value) (st : state) : value :=
  match wm_get (reactiveToRaw st) observed with
  | Some raw => VRef raw
  | None =>
    match wm_get (readonlyToRaw st) observed with
    | Some raw => VRef raw
    | None => observed
    end
  end.

(** [markReadonly], [markNonReactive] (lines 156-165). [WeakSet.add]
    raises a TypeError on a value that is not an object: [None]. *)
Definition markReadonly (v : value) (st : state) : option (value * state) :=
  match v with
  | VRef id =>
    Some (v, mkState (heap st) (rawToReactive st) (reactiveToRaw st)
                     (rawToReadonly st) (readonlyToRaw st)
                     ({[id]} ∪ readonlyValues st) (nonReactiveValues st)
                     (warnings st))
  | _ => None
  end.

Definition markNonReactive (v : value) (st : state) : option (value * state) :=
  match v with
  | VRef id =>
    Some (v, mkState (heap st) (rawToReactive st) (reactiveToRaw st)
                     (rawToReadonly st) (readonlyToRaw st)
                     (readonlyValues st) ({[id]} ∪ nonReactiveValues st)
                     (warnings st))
  | _ => None
  end.

(** The caller creating a new object (an object literal, [new Map()], a
    component instance, ...): not a proxy, its properties are the
    caller's choice. *)
Definition allocObject (ob : object) (st : state) : state :=
  mkState (heap st ++ [ob]) (rawToReactive st) (reactiveToRaw st)
          (rawToReadonly st) (readonlyToRaw st)
          (readonlyValues st) (nonReactiveValues st) (warnings st).

(** The object [ob] with its two marker properties replaced. *)
Definition withMarkers (vue vnode : bool) (ob : object) : object :=
  mkObject (callable ob) (rawType ob) vue vnode (ctor ob) (proxyOf ob).

(** The object at the end of the chain of targets of [i]: [i] itself when
    it is not a proxy. A proxy is allocated after its target, so the
    length of the heap is fuel enough. *)
Fixpoint rootOf (h : list object) (fuel : nat) (i : objId) : objId :=
  match fuel with
  | 0 => i
  | S n =>
    match h !! i with
    | Some ob =>
      match proxyOf ob with
      | Some (t, _) => rootOf h n t
      | None => i
      end
    | None => i
    end
  end.

(** The caller assigning the marker properties of a raw object,
    [o._isVue = vue; o._isVNode = vnode] (what a component instance or a
    vnode gets from its owner, possibly long after it was created). The
    properties are ordinary ones, and a proxy delegates property reads to
    its target: every proxy over [o], direct or through another proxy,
    shows the new values from then on. An assignment through a proxy is
    either refused (readonly family) or lands on the raw object, so
    assignments to raw objects are all there is to model. *)
Definition writeMarkers (o : objId) (vue vnode : bool) (st : state) : state :=
  mkState (imap (fun i ob =>
                   if decide (rootOf (heap st) (length (heap st)) i = o)
                   then withMarkers vue vnode ob else ob)
                (heap st))
          (rawToReactive st) (reactiveToRaw st)
          (rawToReadonly st) (readonlyToRaw st)
          (readonlyValues st) (nonReactiveValues st) (warnings st).

(** A reference is live when it points into the heap; primitives always
    are. *)
Definition live (st : state) (v : value) : Prop :=
  match v with VRef id => id < length (heap st) | _ => True end.

(** The states the module can be in: from the freshly loaded module, the
    caller allocates objects, assigns the marker properties of raw
    objects, and calls the exported functions on live values. *)
Inductive reachable : state -> Prop :=
| reach_init : reachable init
| reach_alloc st ob :
    reachable st -> proxyOf ob = None -> reachable (allocObject ob st)
| reach_write st o ob vue vnode :
    reachable st -> heap st !! o = Some ob -> proxyOf ob = None ->
    reachable (writeMarkers o vue vnode st)
| reach_reactive st v :
    reachable st -> live st v -> reachable (snd (reactive v st))
| reach_readonly st v :
    reachable st -> live st v -> reachable (snd (readonly v st))
| reach_shallowReadonly st v :
    reachable st -> live st v -> reachable (snd (shallowReadonly v st))
| reach_markReadonly st v w st' :
    reachable st -> live st v -> markReadonly v st = Some (w, st') ->
    reachable st'
| reach_markNonReactive st v w st' :
    reachable st -> live st v -> markNonReactive v st = Some (w, st') ->
    reachable st'.

(** An eligible raw object: a live object that is not a proxy, not a
    function, and passes [canObserve]. *)
Definition eligible (st : state) (o : objId) : Prop :=
  exists ob, heap st !! o = Some ob /\ proxyOf ob = None /\
             callable ob = false /\ canObserve st (VRef o) = true.

(** [w] is a wrapper of the raw object [o] in direction [d]: a proxy
    built over [o], registered both ways in the tables of [d]. *)
Definition wrapperOf (d : Direction) (st : state) (w : value) (o : objId) : Prop :=
  exists p ob h, w = VRef p /\ heap st !! p = Some ob /\
                 proxyOf ob = Some (o, h) /\
                 toProxy d st !! o = Some p /\ toRawMap d st !! p = Some o.

End Registry.

(** The direction [reactive] wraps a raw object in: the readonly one when
    the object is marked readonly (lines 51-53). *)
Definition reactiveDirection (st : state) (o : objId) : Direction :=
  if ws_has (readonlyValues st) (VRef o) then ReadonlyFamily else Mutable.

(** The four identity tables together. *)
Definition tables (st : state) :
    gmap objId objId * gmap objId objId * gmap objId objId * gmap objId objId :=
  (rawToReactive st, reactiveToRaw st, rawToReadonly st, readonlyToRaw st).

(** A value whose property [_isVue] or [_isVNode] is truthy. *)
Definition flagged (st : state) (v : value) : Prop :=
  exists (i : objId) (ob : object),
    v = VRef i /\ heap st !! i = Some ob /\
    (_isVue ob = true \/ _isVNode ob = true).

(** The consistency of the tables with the heap that every reachable state
    enjoys. *)
Record wf (st : state) : Prop := mkWf {
  wf_fwd : forall d o p,
    toProxy d st !! o = Some p -> toRawMap d st !! p = Some o;
  wf_bwd : forall d p o,
    toRawMap d st !! p = Some o ->
    toProxy d st !! o = Some p /\
    exists ob h, heap st !! p = Some ob /\ proxyOf ob = Some (o, h);
  wf_wrapped : forall d o p,
    toProxy d st !! o = Some p ->
    exists ob, heap st !! o = Some ob /\ callable ob = false;
  wf_not_both : forall d o p,
    toProxy d st !! o = Some p -> toRawMap d st !! o = None;
  wf_proxy : forall p ob o h,
    heap st !! p = Some ob -> proxyOf ob = Some (o, h) ->
    (exists d, toRawMap d st !! p = Some o) /\ callable ob = false
}.

(** An object literal [{}], an object carrying [_isVue], and the state
    after the caller has created one of each. *)
Definition plainObject : object :=
  mkObject false "Object" false false CtorObject None.

Definition vueInstance : object :=
  mkObject false "Object" true false CtorObject None.

Definition twoObjects : state :=
  allocObject vueInstance (allocObject plainObject init).

(** The direction a handler table serves. *)
Definition handlerDirection (h : Handlers) : Direction :=
  match h with
  | mutableHandlers | mutableCollectionHandlers => Mutable
  | _ => ReadonlyFamily
  end.

(** More of what every reachable state enjoys: a registered proxy was
    built with the handlers of the direction it is registered in; a proxy
    was built after its target and shows the target's type, constructor
    and marker properties; only live objects are marked. *)
Record coherent (st : state) : Prop := mkCoherent {
  co_handlers : forall d p o,
    toRawMap d st !! p = Some o ->
    exists ob h, heap st !! p = Some ob /\ proxyOf ob = Some (o, h) /\
                 handlerDirection h = d;
  co_shape : forall p ob o h,
    heap st !! p = Some ob -> proxyOf ob = Some (o, h) ->
    exists ob', heap st !! o = Some ob' /\ rawType ob = rawType ob' /\
                ctor ob = ctor ob' /\ o < p /\
                _isVue ob = _isVue ob' /\ _isVNode ob = _isVNode ob';
  co_marks : forall i,
    i ∈ readonlyValues st \/ i ∈ nonReactiveValues st -> i < length (heap st)
}.

(** One step of the caller: an allocation or a call of an exported
    function on a live value. *)
Inductive apiStep (DEV : bool) : state -> state -> Prop :=
| step_alloc st ob :
    proxyOf ob = None -> apiStep DEV st (allocObject ob st)
| step_reactive st v :
    live st v -> apiStep DEV st (snd (reactive DEV v st))
| step_readonly st v :
    live st v -> apiStep DEV st (snd (readonly DEV v st))
| step_shallowReadonly st v :
    live st v -> apiStep DEV st (snd (shallowReadonly DEV v st))
| step_markReadonly st v w st' :
    live st v -> markReadonly v st = Some (w, st') -> apiStep DEV st st'
| step_markNonReactive st v w st' :
    live st v -> markNonReactive v st = Some (w, st') -> apiStep DEV st st'.

(** Any number of steps. *)
Inductive evolves (DEV : bool) : state -> state -> Prop :=
| evolves_refl st : evolves DEV st st
| evolves_step st st1 st2 :
    evolves DEV st st1 -> apiStep DEV st1 st2 -> evolves DEV st st2.

(** [new Map()] and a function, for the examples. *)
Definition mapObject : object :=
  mkObject false "Map" false false CtorMap None.

Definition functionObject : object :=
  mkObject true "Function" false false (CtorOther "Function") None.

Definition fourObjects : state :=
  allocObject functionObject (allocObject mapObject twoObjects).

(** [twoObjects] after [readonly] of the object literal: the proxy is
    object 2. *)
Definition readonlyBuilt : state := snd (readonly false (VRef 0) twoObjects).

(** [twoObjects] after [reactive] of the object literal: the proxy is
    object 2 again. *)
Definition reactiveBuilt : state := snd (reactive false (VRef 0) twoObjects).

(** [o = {}; m = reactive(o); o._isVue = true], and the same with
    [readonly]: in both the wrapper is object 2. *)
Definition wrappedThenFlagged : state :=
  writeMarkers 0 true false reactiveBuilt.

Definition readonlyThenFlagged : state :=
  writeMarkers 0 true false readonlyBuilt.

End Reactive.

(* ===================================================================== *)
(** * Part II: effect.ts, the effect runtime and the dependency graph *)
(* ===================================================================== *)

Module Effect.

(** ** Data *)

(** A reactive target is an object identity; [isArray] of [@vue/shared]
    ([Array.isArray]) is a fixed property of the object. *)
Record target : Type := mkTarget { tid : nat; isArray : bool }.

(** Property keys ([key: unknown]): [undefined], strings, symbols and
    other values, compared as a [Map] compares its keys. *)
Inductive key : Type :=
| KUndefined
| KString (s : string)
| KSymbol (n : nat)
| KValue (n : nat).

(** [ITERATE_KEY = Symbol('iterate')] (line 46). *)
Definition ITERATE_KEY : key := KSymbol 0.

#[global] Instance target_eq_dec : EqDecision target.
Proof. solve_decision. Defined.

#[global] Instance key_eq_dec : EqDecision key.
Proof. solve_decision. Defined.

(** Modelled from the spec: the two enumerations of [./operations], the
    access kinds [track] receives and the mutation kinds "set / add /
    delete / clear" [trigger] receives. *)
Inductive TrackOpTypes : Type := GET | HAS | ITERATE.
Inductive TriggerOpTypes : Type := SET | ADD | DELETE | CLEAR.

(** What an effect returns to its caller. *)
Inductive value : Type := VUndefined | VNumber (n : nat).

(** Effects are function objects; an effect is named by the order of its
    creation. *)
Abbreviation effId := nat (only parsing).

(** A [Dep] is the [Set] stored in [targetMap] under a target and a key.
    Entries of [targetMap] and of its inner maps are never removed or
    replaced, so the [Set] object is identified by that pair, and
    [effect.deps], an array of references to such sets, is a list of
    pairs. *)
Definition Dep : Type := target * key.

(** [DebuggerEvent] (lines 30-41); [extraInfo] is kept opaque. *)
Record DebuggerEvent : Type := mkEvent {
  ev_effect : effId;
  ev_target : target;
  ev_type : TrackOpTypes + TriggerOpTypes;
  ev_key : key;
  ev_extraInfo : option nat
}.

(** [ReactiveEffectOptions] (lines 21-28), over the type [P] of the
    caller's functions. *)
Record ReactiveEffectOptions (P : Type) : Type := mkOptions {
  lazy : bool;
  computed : bool;
  scheduler : option (effId -> P);
  onTrack : option (DebuggerEvent -> P);
  onTrigger : option (DebuggerEvent -> P);
  onStop : option P
}.
Arguments mkOptions {P}.
Arguments lazy {P}.
Arguments computed {P}.
Arguments scheduler {P}.
Arguments onTrack {P}.
Arguments onTrigger {P}.
Arguments onStop {P}.

(** How a function returns: with a value, or by raising. *)
Inductive outcome (A : Type) : Type :=
| Normal (a : A)
| Thrown (err : nat).
Arguments Normal {A}.
Arguments Thrown {A}.

(** The caller's functions (effect bodies, schedulers, hooks), as the
    trees of the calls they make into the runtime. Besides returning and
    raising, a function can read and write a variable of its closure,
    read a reactive property ([Track], what a proxy's [get] handler
    does), mutate one ([Trigger], what a [set] handler does), call an
    effect, create one, stop one, pause and resume tracking, and catch
    what a block raises. *)
#[warnings="-register-all"]
Inductive prog : Type :=
| Return (v : value)
| Throw (err : nat)
| GetVar (k : nat -> prog)
| SetVar (n : nat) (k : prog)
| Track (t : target) (ty : TrackOpTypes) (ky : key) (k : prog)
| Trigger (t : target) (ty : TriggerOpTypes) (ky : key)
    (extraInfo : option nat) (k : prog)
| Invoke (e : effId) (k : value -> prog)
| MakeEffect (fn : prog + effId) (opts : ReactiveEffectOptions prog)
    (k : effId -> prog)
| Stop (e : effId) (k : prog)
| PauseTracking (k : prog)
| ResumeTracking (k : prog)
| Catch (body : prog) (k : outcome value -> prog).

(** [ReactiveEffect] (lines 12-19): the fields of an effect object. *)
Record ReactiveEffect : Type := mkEffect {
  active : bool;
  raw : prog;
  deps : list Dep;
  options : ReactiveEffectOptions prog
}.

(** The module-level state (lines 10, 43, 44, 125), the effect objects
    created so far, and the variable the caller's functions share. *)
Record state : Type := mkState {
  store : list ReactiveEffect;
  targetMap : list (target * list (key * list effId));
  effectStack : list effId;
  activeEffect : option effId;
  shouldTrack : bool;
  var : nat
}.

Definition init : state := mkState [] [] [] None true 0.

Definition set_store (s : list ReactiveEffect) (st : state) : state :=
  mkState s (targetMap st) (effectStack st) (activeEffect st)
          (shouldTrack st) (var st).

Definition set_targetMap (tm : list (target * list (key * list effId)))
    (st : state) : state :=
  mkState (store st) tm (effectStack st) (activeEffect st)
          (shouldTrack st) (var st).

Definition set_stack (stk : list effId) (a : option effId) (st : state) : state :=
  mkState (store st) (targetMap st) stk a (shouldTrack st) (var st).

Definition set_shouldTrack (b : bool) (st : state) : state :=
  mkState (store st) (targetMap st) (effectStack st) (activeEffect st)
          b (var st).

Definition set_var (n : nat) (st : state) : state :=
  mkState (store st) (targetMap st) (effectStack st) (activeEffect st)
          (shouldTrack st) n.

(** ** [Map] and [Set], in insertion order *)

Section InsertionOrder.
Context {K V : Type} `{EqDecision K}.

(** [Map.prototype.get]. *)
Fixpoint map_get (k : K) (m : list (K * V)) : option V :=
  match m with
  | [] => None
  | (k', v) :: m' => if decide (k = k') then Some v else map_get k m'
  end.

(** [Map.prototype.set]: a present key keeps its place, a new one goes
    last. *)
Fixpoint map_set (k : K) (v : V) (m : list (K * V)) : list (K * V) :=
  match m with
  | [] => [(k, v)]
  | (k', v') :: m' =>
    if decide (k = k') then (k, v) :: m' else (k', v') :: map_set k v m'
  end.

End InsertionOrder.

(** [Set.prototype.has], [add] and [delete] on a set of effects. *)
Definition set_has (e : effId) (s : list effId) : bool :=
  existsb (Nat.eqb e) s.

Definition set_add (e : effId) (s : list effId) : list effId :=
  if set_has e s then s else s ++ [e].

Definition set_delete (e : effId) (s : list effId) : list effId :=
  List.filter (fun x => negb (Nat.eqb e x)) s.

(** The members of the [Dep] a pair names; no such [Set], no members. *)
Definition members (tm : list (target * list (key * list effId))) (d : Dep)
    : list effId :=
  match map_get (fst d) tm with
  | Some depsMap =>
    match map_get (snd d) depsMap with
    | Some dep => dep
    | None => []
    end
  | None => []
  end.

(** A mutation [f] of the [Set] object a pair names. *)
Definition on_dep (d : Dep) (f : list effId -> list effId)
    (tm : list (target * list (key * list effId)))
    : list (target * list (key * list effId)) :=
  match map_get (fst d) tm with
  | Some depsMap =>
    match map_get (snd d) depsMap with
    | Some dep => map_set (fst d) (map_set (snd d) (f dep) depsMap) tm
    | None => tm
    end
  | None => tm
  end.

(** A mutation of the fields of the effect object [e]. *)
Definition on_effect (e : effId) (f : ReactiveEffect -> ReactiveEffect)
    (st : state) : state :=
  match store st !! e with
  | Some r => set_store (<[e := f r]> (store st)) st
  | None => st
  end.

Definition set_deps (ds : list Dep) (r : ReactiveEffect) : ReactiveEffect :=
  mkEffect (active r) (raw r) ds (options r).

Definition set_active (b : bool) (r : ReactiveEffect) : ReactiveEffect :=
  mkEffect b (raw r) (deps r) (options r).

(** [effect.options.computed], as [addRunners] reads it. *)
Definition isComputed (st : state) (e : effId) : bool :=
  match store st !! e with
  | Some r => computed (options r)
  | None => false
  end.

(** ** The monad of the runtime: state, exceptions, and no answer when
    the computation does not end within the fuel given *)

Definition M (A : Type) : Type := state -> option (outcome A * state).

Definition ret {A : Type} (a : A) : M A := fun st => Some (Normal a, st).

Definition throw {A : Type} (err : nat) : M A := fun st => Some (Thrown err, st).

Definition bind {A B : Type} (m : M A) (f : A -> M B) : M B :=
  fun st =>
    match m st with
    | Some (Normal a, st') => f a st'
    | Some (Thrown err, st') => Some (Thrown err, st')
    | None => None
    end.

Notation "x <- m ;; k" := (bind m (fun x => k))
  (at level 20, m at level 99, k at level 200, only parsing).
Notation "m ;;; k" := (bind m (fun _ => k))
  (at level 20, k at level 200, only parsing).

(** [try { m } finally { fin }], for a [fin] that cannot raise. *)
Definition try_finally {A : Type} (m : M A) (fin : state -> state) : M A :=
  fun st =>
    match m st with
    | Some (o, st') => Some (o, fin st')
    | None => None
    end.

(** [l.forEach(f)]. *)
Fixpoint forEach {A : Type} (f : A -> M unit) (l : list A) : M unit :=
  match l with
  | [] => ret tt
  | x :: l' => f x ;;; forEach f l'
  end.

(** [l.forEach(f)] with a record of the calls it makes: the elements [f]
    was called on, in the order of the calls, next to what [forEach]
    returns. The call that raises, or that does not end, is the last
    one. *)
Fixpoint forEachLog {A : Type} (f : A -> M unit) (l : list A) (st : state)
    : list A * option (outcome unit * state) :=
  match l with
  | [] => ([], ret tt st)
  | x :: l' =>
    match f x st with
    | Some (Normal _, st') =>
      let '(log, r) := forEachLog f l' st' in (x :: log, r)
    | Some (Thrown err, st') => ([x], Some (Thrown err, st'))
    | None => ([x], None)
    end
  end.

(** Calling what is not a function raises a [TypeError]. *)
Definition TypeError : nat := 0.

(** ** The runtime *)

Section Runtime.

(** The build flag [__DEV__]. *)
Variable DEV : bool.

(** How the caller's functions run: the runtime calls them, they call the
    runtime. *)
Variable call : prog -> M value.

(** [cleanup] (lines 114-122). *)
Definition cleanup (e : effId) (st : state) : state :=
  match store st !! e with
  | Some r =>
    let tm := fold_left (fun tm d => on_dep d (set_delete e) tm)
                        (deps r) (targetMap st) in
    on_effect e (set_deps []) (set_targetMap tm st)
  | None => st
  end.

(** The [finally] block of [run] (lines 105-110). *)
Definition leave (st : state) : state :=
  let stk := removelast (effectStack st) in
  set_stack stk (last stk) st.

(** The two assignments at the head of the [try] block (lines 99-102). *)
Definition enter (e : effId) (st : state) : state :=
  set_stack (effectStack st ++ [e]) (Some e) st.

(** [run] (lines 91-112). The [fn] it is passed is the function the
    effect was created with, which [effect.raw] keeps; the arguments it
    forwards to [fn] are left out, the caller's functions take none. An
    identifier that names no effect object stands for a value that cannot
    be called. *)
Definition run (e : effId) : M value :=
  fun st =>
    match store st !! e with
    | Some r =>
      if negb (active r) then call (raw r) st
      else if negb (set_has e (effectStack st)) then
        try_finally (fun st1 => call (raw r) (enter e st1)) leave (cleanup e st)
      else ret VUndefined st
    | None => throw TypeError st
    end.

(** [stop] (lines 66-74). *)
Definition stop (e : effId) : M unit :=
  fun st =>
    match store st !! e with
    | Some r =>
      if active r then
        ((match onStop (options r) with
          | Some h => call h ;;; ret tt
          | None => ret tt
          end) ;;;
         (fun st2 => ret tt (on_effect e (set_active false) st2)))
        (cleanup e st)
      else ret tt st
    | None => throw TypeError st
    end.

(** [createReactiveEffect] (lines 76-89). *)
Definition createReactiveEffect (fn : prog) (opts : ReactiveEffectOptions prog)
    (st : state) : effId * state :=
  (length (store st), set_store (store st ++ [mkEffect true fn [] opts]) st).

(** [effect] (lines 52-64): [inr f] is an [fn] that is itself the
    effect [f]. *)
Definition effect (fn : prog + effId) (opts : ReactiveEffectOptions prog)
    : M effId :=
  fun st =>
    let fn' := match fn with
               | inl body => Some body
               | inr f => option_map raw (store st !! f)
               end in
    match fn' with
    | Some body =>
      let '(e, st1) := createReactiveEffect body opts st in
      if negb (lazy opts) then (run e ;;; ret e) st1 else ret e st1
    | None => throw TypeError st
    end.

(** [pauseTracking], [resumeTracking] (lines 128-135). *)
Definition pauseTracking (st : state) : state := set_shouldTrack false st.
Definition resumeTracking (st : state) : state := set_shouldTrack true st.

(** [track] (lines 138-176). The [Map] and the [Set] it creates are
    stored in [targetMap] before membership is tested. *)
Definition track (t : target) (ty : TrackOpTypes) (ky : key) : M unit :=
  fun st =>
    match activeEffect st with
    | Some a =>
      if negb (shouldTrack st) then ret tt st
      else
        let depsMap := match map_get t (targetMap st) with
                       | Some m => m
                       | None => []
                       end in
        let dep := match map_get ky depsMap with
                   | Some s => s
                   | None => []
                   end in
        if negb (set_has a dep) then
          let tm := map_set t (map_set ky (dep ++ [a]) depsMap) (targetMap st) in
          let st1 := on_effect a (fun r => set_deps (deps r ++ [(t, ky)]) r)
                               (set_targetMap tm st) in
          match (if DEV then
                   match store st !! a with
                   | Some r => onTrack (options r)
                   | None => None
                   end
                 else None) with
          | Some h => (call (h (mkEvent a t (inl ty) ky None)) ;;; ret tt) st1
          | None => ret tt st1
          end
        else
          ret tt (set_targetMap (map_set t (map_set ky dep depsMap) (targetMap st)) st)
    | None => ret tt st
    end.

(** [addRunners] (lines 221-235), on the pair of sets ([effects],
    [computedRunners]). *)
Definition addRunners (st : state) (acc : list effId * list effId)
    (effectsToAdd : option (list effId)) : list effId * list effId :=
  match effectsToAdd with
  | Some dep =>
    fold_left (fun '(effects, computedRunners) e =>
                 if isComputed st e
                 then (effects, set_add e computedRunners)
                 else (set_add e effects, computedRunners))
              dep acc
  | None => acc
  end.

(** The key of the iteration dependency (line 207). *)
Definition iterationKey (t : target) : key :=
  if isArray t then KString "length" else ITERATE_KEY.

(** The collection phase of [trigger] (lines 190-210), for the [depsMap]
    of the target: the pair ([effects], [computedRunners]) it builds. *)
Definition collectRunners (st : state) (depsMap : list (key * list effId))
    (t : target) (ty : TriggerOpTypes) (ky : key) : list effId * list effId :=
  match ty with
  | CLEAR =>
    fold_left (fun acc '(_, dep) => addRunners st acc (Some dep)) depsMap ([], [])
  | _ =>
    let acc := if decide (ky = KUndefined) then ([], [])
               else addRunners st ([], []) (map_get ky depsMap) in
    match ty with
    | ADD | DELETE => addRunners st acc (map_get (iterationKey t) depsMap)
    | _ => acc
    end
  end.

(** [scheduleRun] (lines 238-259). *)
Definition scheduleRun (e : effId) (t : target) (ty : TriggerOpTypes)
    (ky : key) (extraInfo : option nat) : M unit :=
  fun st =>
    match store st !! e with
    | Some r =>
      ((match (if DEV then onTrigger (options r) else None) with
        | Some h => call (h (mkEvent e t (inr ty) ky extraInfo)) ;;; ret tt
        | None => ret tt
        end) ;;;
       (match scheduler (options r) with
        | Some s => call (s e) ;;; ret tt
        | None => run e ;;; ret tt
        end)) st
    | None => throw TypeError st
    end.

(** [trigger] (lines 178-218). *)
Definition trigger (t : target) (ty : TriggerOpTypes) (ky : key)
    (extraInfo : option nat) : M unit :=
  fun st =>
    match map_get t (targetMap st) with
    | None => ret tt st
    | Some depsMap =>
      let '(effects, computedRunners) := collectRunners st depsMap t ty ky in
      let run := fun e => scheduleRun e t ty ky extraInfo in
      (forEach run computedRunners ;;; forEach run effects) st
    end.

(** [trigger] with a record of the effects it calls [scheduleRun] on
    (lines 211-217), in the order of the calls. *)
Definition triggerLog (t : target) (ty : TriggerOpTypes) (ky : key)
    (extraInfo : option nat) (st : state)
    : list effId * option (outcome unit * state) :=
  match map_get t (targetMap st) with
  | None => ([], ret tt st)
  | Some depsMap =>
    let '(effects, computedRunners) := collectRunners st depsMap t ty ky in
    let run := fun e => scheduleRun e t ty ky extraInfo in
    match forEachLog run computedRunners st with
    | (log1, Some (Normal _, st1)) =>
      let '(log2, r) := forEachLog run effects st1 in (log1 ++ log2, r)
    | (log1, r) => (log1, r)
    end
  end.

(** One layer of a caller's function. *)
Definition step (p : prog) : M value :=
  match p with
  | Return v => ret v
  | Throw err => throw err
  | GetVar k => fun st => call (k (var st)) st
  | SetVar n k => fun st => call k (set_var n st)
  | Track t ty ky k => track t ty ky ;;; call k
  | Trigger t ty ky extraInfo k => trigger t ty ky extraInfo ;;; call k
  | Invoke e k => (v <- run e ;; call (k v))
  | MakeEffect fn opts k => (e <- effect fn opts ;; call (k e))
  | Stop e k => stop e ;;; call k
  | PauseTracking k => fun st => call k (pauseTracking st)
  | ResumeTracking k => fun st => call k (resumeTracking st)
  | Catch body k =>
    fun st =>
      match call body st with
      | Some (o, st') => call (k o) st'
      | None => None
      end
  end.

End Runtime.

(** ** Derived notions the properties are stated with *)

(** [effect.deps], empty for a name no effect bears. *)
Definition depsOf (st : state) (e : effId) : list Dep :=
  match store st !! e with
  | Some r => deps r
  | None => []
  end.

(** The bidirectional bookkeeping: [e] is a member of the [Dep] [d]
    exactly when [d] is in [e.deps]. *)
Definition bidirectional (st : state) : Prop :=
  forall (e : effId) (d : Dep),
    In e (members (targetMap st) d) <-> In d (depsOf st e).

(** [activeEffect] and the entries of [effectStack] are references to
    effect objects: they name effects that exist. *)
Definition liveTracking (st : state) : Prop :=
  (forall e, activeEffect st = Some e -> e < length (store st)) /\
  (forall e, In e (effectStack st) -> e < length (store st)).

Definition consistent (st : state) : Prop :=
  bidirectional st /\ liveTracking st.

(** Every terminating run of [m] relates the state it starts in to the
    state it ends in by [R], however it returns. *)
Definition respects {A : Type} (R : state -> state -> Prop) (m : M A) : Prop :=
  forall st o st', m st = Some (o, st') -> R st st'.

Definition sameStack (st st' : state) : Prop :=
  effectStack st' = effectStack st.

Definition keepsConsistent (st st' : state) : Prop :=
  consistent st -> consistent st'.

(** What the pair ([effects], [computedRunners]) of [trigger] is at all
    times: two sets, plain effects in the first and computed ones in the
    second. *)
Definition partitioned (st : state) (acc : list effId * list effId) : Prop :=
  List.NoDup (fst acc) /\ List.NoDup (snd acc) /\
  (forall e, In e (fst acc) -> isComputed st e = false) /\
  (forall e, In e (snd acc) -> isComputed st e = true).

(** The state [track] leaves when it does record something (lines
    153-166), for the active effect [a]. *)
Definition tracked (a : effId) (t : target) (ky : key) (st : state) : state :=
  let depsMap := match map_get t (targetMap st) with
                 | Some m => m
                 | None => []
                 end in
  let dep := match map_get ky depsMap with
             | Some s => s
             | None => []
             end in
  if negb (set_has a dep) then
    on_effect a (fun r => set_deps (deps r ++ [(t, ky)]) r)
      (set_targetMap
         (map_set t (map_set ky (dep ++ [a]) depsMap) (targetMap st)) st)
  else
    set_targetMap (map_set t (map_set ky dep depsMap) (targetMap st)) st.

(** The [Dep] sets that contribute to a [trigger], in the order lines
    192-210 walk them. *)
Definition contributing (depsMap : list (key * list effId)) (t : target)
    (ty : TriggerOpTypes) (ky : key) : list (list effId) :=
  match ty with
  | CLEAR => map snd depsMap
  | _ =>
    (if decide (ky = KUndefined) then []
     else match map_get ky depsMap with Some dep => [dep] | None => [] end)
    ++
    match ty with
    | ADD | DELETE =>
      match map_get (iterationKey t) depsMap with
      | Some dep => [dep]
      | None => []
      end
    | _ => []
    end
  end.

(** The effects a [trigger] dispatches, in the order of lines 216-217:
    [computedRunners], then [effects]. *)
Definition dispatched (st : state) (t : target) (ty : TriggerOpTypes)
    (ky : key) : list effId :=
  match map_get t (targetMap st) with
  | Some depsMap =>
    let '(effects, computedRunners) := collectRunners st depsMap t ty ky in
    computedRunners ++ effects
  | None => []
  end.

(** Running a caller's function: every layer costs one unit of fuel, and
    a run that exhausts it has no answer. *)
Fixpoint exec (DEV : bool) (fuel : nat) (p : prog) : M value :=
  match fuel with
  | 0 => fun _ => None
  | S n => step DEV (exec DEV n) p
  end.

(** ** Concrete programs and states *)

Definition obj : target := mkTarget 0 false.

Definition noOptions : ReactiveEffectOptions prog :=
  mkOptions false false None None None None.

Definition lazyOptions : ReactiveEffectOptions prog :=
  mkOptions true false None None None None.

Definition computedOptions : ReactiveEffectOptions prog :=
  mkOptions false true None None None None.

(** [n++] on the shared variable. *)
Definition increment (k : prog) : prog := GetVar (fun n => SetVar (S n) k).

(** Four effects on one object: effect 0 reads [obj.k] and iterates
    [obj], effect 1 is a computed effect reading [obj.k], effect 2 reads
    [obj.k], effect 3 only iterates [obj]. Each run increments the
    variable. *)
Definition subscribe : prog :=
  MakeEffect
    (inl (Track obj GET (KString "k")
            (Track obj ITERATE ITERATE_KEY (increment (Return VUndefined)))))
    noOptions
    (fun _ =>
  MakeEffect
    (inl (Track obj GET (KString "k") (increment (Return VUndefined))))
    computedOptions
    (fun _ =>
  MakeEffect
    (inl (Track obj GET (KString "k") (increment (Return VUndefined))))
    noOptions
    (fun _ =>
  MakeEffect
    (inl (Track obj ITERATE ITERATE_KEY (increment (Return VUndefined))))
    noOptions
    (fun _ => Return VUndefined)))).

(** The state a run leaves, when it has an answer. *)
Definition stateAfter (p : prog) (st : state) : state :=
  match exec false 40 p st with
  | Some (_, st') => st'
  | None => st
  end.

Definition subscribed : state := stateAfter subscribe init.

(** Two effects on one object: effect 0 reads [obj.k] and raises unless
    the variable is 0, which it is only during its first run; effect 1
    reads [obj.k], iterates [obj] and counts its runs. *)
Definition subscribeFailing : prog :=
  MakeEffect
    (inl (Track obj GET (KString "k")
            (GetVar (fun n =>
               match n with
               | 0 => Return VUndefined
               | _ => Throw 9
               end))))
    noOptions
    (fun _ =>
  MakeEffect
    (inl (Track obj GET (KString "k")
            (Track obj ITERATE ITERATE_KEY (increment (Return VUndefined)))))
    noOptions
    (fun _ => Return VUndefined)).

Definition failingFirst : state := stateAfter subscribeFailing init.

(** An effect that reads [obj.k] and then writes it: its own write
    triggers it while it runs. *)
Definition selfTriggering : prog :=
  Track obj GET (KString "k")
    (increment (Trigger obj SET (KString "k") None (Return VUndefined))).

(** An effect (the first one created) that stops itself and, the first
    time round, calls itself and returns what the call returned; the
    second time round it returns 7. *)
Definition selfStopping : prog :=
  Stop 0
    (GetVar (fun n =>
       match n with
       | 0 => SetVar 1 (Invoke 0 (fun v => Return v))
       | _ => Return (VNumber 7)
       end)).

(** An effect (the first one created) that stops itself, then reads
    [obj.k] and writes it, counting its runs and giving up writing after
    the third. *)
Definition selfStoppingWriter : prog :=
  Stop 0
    (Track obj GET (KString "k")
       (GetVar (fun n =>
          if n <? 3
          then SetVar (S n) (Trigger obj SET (KString "k") None (Return VUndefined))
          else Return VUndefined))).

(** The state inside the body of [selfStopping], after [stop]: the
    effect is on the stack and is no longer active. *)
Definition stoppedWhileRunning : state :=
  mkState [mkEffect false selfStopping [] lazyOptions] [] [0] (Some 0) true 1.

(** An effect running (on the stack, active), whose body would count. *)
Definition running : state :=
  mkState [mkEffect true (increment (Return VUndefined)) [] noOptions]
          [] [0] (Some 0) true 0.

(** Effect 0 is running and is about to call effect 1, whose body raises. *)
Definition failing : ReactiveEffect := mkEffect true (Throw 5) [] lazyOptions.

Definition aboutToFail : state :=
  mkState [mkEffect true (Invoke 1 (fun v => Return v)) [] noOptions; failing]
          [] [0] (Some 0) true 0.

(** ** Further notions *)

(** [activeEffect] is the top of [effectStack]. *)
Definition topOfStack (st : state) : Prop :=
  activeEffect st = last (effectStack st).

(** The life of effect objects between two states: every effect is still
    there with the function and the options it was created with, and a
    stopped effect is still stopped. *)
Definition lifecycle (st st' : state) : Prop :=
  forall (e : effId) (r : ReactiveEffect),
    store st !! e = Some r ->
    exists r', store st' !! e = Some r' /\ raw r' = raw r /\
               options r' = options r /\
               (active r = false -> active r' = false).

(** [targetMap] holds a [Set] for the pair [d]. *)
Definition hasBucket (tm : list (target * list (key * list effId))) (d : Dep)
    : Prop :=
  exists depsMap dep,
    map_get (fst d) tm = Some depsMap /\ map_get (snd d) depsMap = Some dep.

(** Nothing is removed from [targetMap] between two states: a tracked
    target stays tracked and a [Set] that exists keeps existing. *)
Definition bucketsKept (st st' : state) : Prop :=
  (forall t, is_Some (map_get t (targetMap st)) ->
             is_Some (map_get t (targetMap st'))) /\
  (forall d, hasBucket (targetMap st) d -> hasBucket (targetMap st') d).

(** The lists of the embedding are the [Map]s and [Set]s of the code: no
    key occurs twice in [targetMap] or in one of its inner maps, no
    effect twice in a [Dep]; in addition no [Dep] occurs twice in an
    [effect.deps]. *)
Definition noDuplicates (st : state) : Prop :=
  List.NoDup (map fst (targetMap st)) /\
  (forall t depsMap, In (t, depsMap) (targetMap st) ->
                     List.NoDup (map fst depsMap)) /\
  (forall d, List.NoDup (members (targetMap st) d)) /\
  (forall e, List.NoDup (depsOf st e)).

Definition sound (st : state) : Prop := consistent st /\ noDuplicates st.

Definition keepsTop (st st' : state) : Prop := topOfStack st -> topOfStack st'.

Definition keepsSound (st st' : state) : Prop := sound st -> sound st'.

(** An effect whose body raises, and a state in which it and a plain
    effect are both subscribed to [obj.k], the failing one first. *)
Definition raising : state :=
  mkState [mkEffect true (Throw 9) [(obj, KString "k")] lazyOptions;
           mkEffect true (increment (Return VUndefined)) [(obj, KString "k")]
                    lazyOptions]
          [(obj, [(KString "k", [0; 1])])] [] None true 0.

End Effect.

(* ===================================================================== *)
(** * Part III: properties of the identity registry *)
(* ===================================================================== *)

Module ReactiveFacts.
Import Reactive.

Lemma heap_lookup_lt (st : state) (i : objId) (ob : object) :
  heap st !! i = Some ob -> i < length (heap st).
Proof. apply lookup_lt_Some. Qed.

Lemma heap_lookup_snoc_old (l : list object) (x : object) (i : nat) (ob : object) :
  l !! i = Some ob -> (l ++ [x]) !! i = Some ob.
Proof.
  intros H. rewrite lookup_app_l; [exact H | eapply lookup_lt_Some; eauto].
Qed.

Lemma heap_lookup_snoc_new (l : list object) (x : object) :
  (l ++ [x]) !! length l = Some x.
Proof. rewrite lookup_app_r by lia. now rewrite Nat.sub_diag. Qed.

Lemma heap_lookup_snoc_inv (l : list object) (x : object) (i : nat) (ob : object) :
  (l ++ [x]) !! i = Some ob ->
  (i < length l /\ l !! i = Some ob) \/ (i = length l /\ ob = x).
Proof.
  intros H. destruct (Nat.lt_ge_cases i (length l)) as [Hlt | Hge].
  - left. split; [exact Hlt |]. now rewrite lookup_app_l in H.
  - right. rewrite lookup_app_r in H by lia.
    destruct (i - length l) as [| k] eqn:E; simpl in H.
    + split; [lia | congruence].
    + destruct k; discriminate.
Qed.

Lemma wf_toProxy_lt st d o p :
  wf st -> toProxy d st !! o = Some p ->
  o < length (heap st) /\ p < length (heap st).
Proof.
  intros W H. split.
  - destruct (wf_wrapped _ W _ _ _ H) as (ob & Hob & _).
    eapply heap_lookup_lt; eauto.
  - apply (wf_fwd _ W) in H. apply (wf_bwd _ W) in H.
    destruct H as (_ & ob & h & Hob & _). eapply heap_lookup_lt; eauto.
Qed.

Lemma wf_toRaw_lt st d p o :
  wf st -> toRawMap d st !! p = Some o -> p < length (heap st).
Proof.
  intros W H. apply (wf_bwd _ W) in H.
  destruct H as (_ & ob & h & Hob & _). eapply heap_lookup_lt; eauto.
Qed.

Lemma wf_init : wf init.
Proof.
  split.
  - intros [] o p H; simpl in H; now rewrite lookup_empty in H.
  - intros [] p o H; simpl in H; now rewrite lookup_empty in H.
  - intros [] o p H; simpl in H; now rewrite lookup_empty in H.
  - intros [] o p H; simpl in H; now rewrite lookup_empty in H.
  - intros p ob o h H; simpl in H. now rewrite lookup_nil in H.
Qed.

(** A step that leaves the four tables alone and at most appends objects
    that are not proxies keeps the state consistent. *)
Lemma wf_frame st st' l :
  wf st ->
  (forall d, toProxy d st' = toProxy d st) ->
  (forall d, toRawMap d st' = toRawMap d st) ->
  heap st' = heap st ++ l ->
  (forall ob, ob ∈ l -> proxyOf ob = None) ->
  wf st'.
Proof.
  intros W HP HR HH Hl. split.
  - intros d o p. rewrite HP, HR. apply (wf_fwd _ W).
  - intros d p o. rewrite HP, HR, HH. intros H.
    destruct (wf_bwd _ W _ _ _ H) as (Hp & ob & h & Hob & Hpx).
    split; [exact Hp |]. exists ob, h. split; [| exact Hpx].
    rewrite lookup_app_l; [exact Hob | eapply lookup_lt_Some; eauto].
  - intros d o p. rewrite HP, HH. intros H.
    destruct (wf_wrapped _ W _ _ _ H) as (ob & Hob & Hrest).
    exists ob. split; [| exact Hrest].
    rewrite lookup_app_l; [exact Hob | eapply lookup_lt_Some; eauto].
  - intros d o p. rewrite HP, HR. apply (wf_not_both _ W).
  - intros p ob o h Hob Hpx. rewrite HH in Hob.
    apply lookup_app_Some in Hob as [Hob | [_ Hob]].
    + destruct (wf_proxy _ W _ _ _ _ Hob Hpx) as ((d & Hd) & Hrest).
      split; [| exact Hrest]. exists d. now rewrite HR.
    + apply list_elem_of_lookup_2 in Hob. apply Hl in Hob. congruence.
Qed.

Lemma wf_allocObject st ob :
  wf st -> proxyOf ob = None -> wf (allocObject ob st).
Proof.
  intros W Hraw. apply (wf_frame st _ [ob] W); try (now intros []); try reflexivity.
  intros ob' Hin. apply list_elem_of_singleton in Hin. now subst.
Qed.

Lemma wf_warn st v : wf st -> wf (warn v st).
Proof.
  intros W. apply (wf_frame st _ [] W); try (now intros []).
  simpl. now rewrite app_nil_r.
Qed.

Lemma wf_marks st rv nrv :
  wf st ->
  wf (mkState (heap st) (rawToReactive st) (reactiveToRaw st)
              (rawToReadonly st) (readonlyToRaw st) rv nrv (warnings st)).
Proof.
  intros W. apply (wf_frame st _ [] W); try (now intros []).
  simpl. now rewrite app_nil_r.
Qed.

(** ** Assigning the marker properties *)

Lemma writeMarkers_lookup st o a b i :
  heap (writeMarkers o a b st) !! i =
  (fun ob => if decide (rootOf (heap st) (length (heap st)) i = o)
             then withMarkers a b ob else ob) <$> heap st !! i.
Proof. apply list_lookup_imap. Qed.

Lemma writeMarkers_length st o a b :
  length (heap (writeMarkers o a b st)) = length (heap st).
Proof. apply length_imap. Qed.

(** The assignment changes nothing of an object but its markers. *)
Lemma writeMarkers_old st o a b i ob :
  heap st !! i = Some ob ->
  exists ob', heap (writeMarkers o a b st) !! i = Some ob' /\
              callable ob' = callable ob /\ rawType ob' = rawType ob /\
              ctor ob' = ctor ob /\ proxyOf ob' = proxyOf ob.
Proof.
  intros H. rewrite writeMarkers_lookup, H. simpl.
  eexists. split; [reflexivity |]. case_decide; now repeat split.
Qed.

Lemma writeMarkers_new st o a b i ob' :
  heap (writeMarkers o a b st) !! i = Some ob' ->
  exists ob, heap st !! i = Some ob /\
             callable ob' = callable ob /\ rawType ob' = rawType ob /\
             ctor ob' = ctor ob /\ proxyOf ob' = proxyOf ob.
Proof.
  rewrite writeMarkers_lookup. destruct (heap st !! i) as [ob |]; [| discriminate].
  simpl. intros [= <-]. exists ob. split; [reflexivity |].
  case_decide; now repeat split.
Qed.

Lemma toProxy_writeMarkers d st o a b :
  toProxy d (writeMarkers o a b st) = toProxy d st.
Proof. now destruct d. Qed.

Lemma toRawMap_writeMarkers d st o a b :
  toRawMap d (writeMarkers o a b st) = toRawMap d st.
Proof. now destruct d. Qed.

Lemma wf_writeMarkers st o a b : wf st -> wf (writeMarkers o a b st).
Proof.
  intros W. split.
  - intros d x p. rewrite toProxy_writeMarkers, toRawMap_writeMarkers.
    apply (wf_fwd _ W).
  - intros d p x. rewrite toProxy_writeMarkers, toRawMap_writeMarkers.
    intros H. destruct (wf_bwd _ W _ _ _ H) as (Hp & ob & h & Hob & Hpx).
    split; [exact Hp |].
    destruct (writeMarkers_old st o a b _ _ Hob) as (ob' & Hob' & _ & _ & _ & Hq).
    exists ob', h. split; [exact Hob' | congruence].
  - intros d x p. rewrite toProxy_writeMarkers. intros H.
    destruct (wf_wrapped _ W _ _ _ H) as (ob & Hob & Hcall).
    destruct (writeMarkers_old st o a b _ _ Hob) as (ob' & Hob' & Hc & _).
    exists ob'. split; [exact Hob' | congruence].
  - intros d x p. rewrite toProxy_writeMarkers, toRawMap_writeMarkers.
    apply (wf_not_both _ W).
  - intros p ob' x h Hob' Hpx.
    destruct (writeMarkers_new st o a b _ _ Hob') as (ob & Hob & Hc & _ & _ & Hq).
    rewrite Hq in Hpx.
    destruct (wf_proxy _ W _ _ _ _ Hob Hpx) as ((d & Hd) & Hcall).
    split; [| congruence]. exists d. now rewrite toRawMap_writeMarkers.
Qed.

Section RegistryFacts.

Variable DEV : bool.

Lemma createReactiveObject_outcome target d base coll st :
  cro_outcome DEV target d base coll st
    (createReactiveObject DEV target d base coll st).
Proof.
  unfold createReactiveObject.
  destruct (isObject st target) eqn:Hobj; cbn [negb]; [| now constructor].
  destruct target as [| | | | | t]; try discriminate Hobj.
  pose proof Hobj as Hobj'. simpl in Hobj'. unfold wm_has, wm_get.
  destruct (toProxy d st !! t) as [p |] eqn:Hp; [eapply cro_cached; eauto |].
  destruct (toRawMap d st !! t) as [o |] eqn:Hr; [eapply cro_is_proxy; eauto |].
  destruct (canObserve st (VRef t)) eqn:Hc; cbn [negb];
    [| eapply cro_not_observable; eauto].
  destruct (heap st !! t) as [ob |] eqn:Hob; [| discriminate].
  eapply cro_fresh; eauto. now destruct (callable ob).
Qed.

Lemma toProxy_register d d' t p x st o :
  toProxy d' (register d t p x st) !! o =
  if decide (d' = d /\ o = t) then Some p else toProxy d' st !! o.
Proof.
  case_decide as Hd.
  - destruct Hd as [-> ->]. destruct d; simpl; apply lookup_insert_eq.
  - destruct d, d'; simpl; try reflexivity;
      (rewrite lookup_insert_ne; [reflexivity | intros <-; apply Hd; now split]).
Qed.

Lemma toRawMap_register d d' t p x st q :
  toRawMap d' (register d t p x st) !! q =
  if decide (d' = d /\ q = p) then Some t else toRawMap d' st !! q.
Proof.
  case_decide as Hd.
  - destruct Hd as [-> ->]. destruct d; simpl; apply lookup_insert_eq.
  - destruct d, d'; simpl; try reflexivity;
      (rewrite lookup_insert_ne; [reflexivity | intros <-; apply Hd; now split]).
Qed.

Lemma heap_register d t p x st : heap (register d t p x st) = heap st ++ [x].
Proof. now destruct d. Qed.

Lemma wf_register st d t ob h :
  wf st -> heap st !! t = Some ob -> callable ob = false ->
  toProxy d st !! t = None -> toRawMap d st !! t = None ->
  canObserve st (VRef t) = true ->
  wf (register d t (length (heap st)) (newProxy t ob h) st).
Proof.
  intros W Hob Hcall Hp Hr Hc.
  split.
  - intros d' o p H. rewrite toProxy_register in H. rewrite toRawMap_register.
    case_decide as Hd.
    + destruct Hd as [-> ->]. injection H as <-.
      now rewrite decide_True.
    + rewrite decide_False; [now apply (wf_fwd _ W) |].
      intros [_ ->]. apply (wf_toProxy_lt _ _ _ _ W) in H. lia.
  - intros d' p o H. rewrite toRawMap_register in H.
    rewrite toProxy_register, heap_register.
    case_decide as Hd.
    + destruct Hd as [-> ->]. injection H as <-.
      rewrite decide_True by done. split; [reflexivity |].
      eexists _, _. split; [apply heap_lookup_snoc_new | reflexivity].
    + destruct (wf_bwd _ W _ _ _ H) as (Hq & ob' & h' & Hob' & Hpx).
      rewrite decide_False.
      * split; [exact Hq |]. exists ob', h'. split; [| exact Hpx].
        now apply heap_lookup_snoc_old.
      * intros [-> ->]. congruence.
  - intros d' o p H. rewrite toProxy_register in H. rewrite heap_register.
    case_decide as Hd.
    + destruct Hd as [-> ->]. exists ob.
      split; [now apply heap_lookup_snoc_old | exact Hcall].
    + destruct (wf_wrapped _ W _ _ _ H) as (ob' & Hob' & Hrest).
      exists ob'. split; [now apply heap_lookup_snoc_old | exact Hrest].
  - intros d' o p H. rewrite toProxy_register in H. rewrite toRawMap_register.
    case_decide as Hd.
    + destruct Hd as [-> ->]. rewrite decide_False; [exact Hr |].
      intros [_ ->]. apply heap_lookup_lt in Hob. lia.
    + rewrite decide_False; [now apply (wf_not_both _ W _ _ p) |].
      intros [_ ->]. apply (wf_toProxy_lt _ _ _ _ W) in H. lia.
  - intros p ob' o h' Hob' Hpx. rewrite heap_register in Hob'.
    apply heap_lookup_snoc_inv in Hob' as [[Hlt Hob'] | [-> ->]].
    + destruct (wf_proxy _ W _ _ _ _ Hob' Hpx) as ((d' & Hd') & Hrest).
      split; [| exact Hrest]. exists d'. rewrite toRawMap_register.
      rewrite decide_False; [exact Hd' | intros [_ ->]; lia].
    + simpl in Hpx. injection Hpx as <- <-. simpl.
      split; [| exact Hcall]. exists d. rewrite toRawMap_register.
      now rewrite decide_True.
Qed.

Lemma wf_createReactiveObject target d base coll st :
  wf st -> wf (snd (createReactiveObject DEV target d base coll st)).
Proof.
  intros W.
  destruct (createReactiveObject_outcome target d base coll st)
    as [? | ? ? -> | ? ? -> | ? -> | t ob -> Hob Hcall Hp Hr Hc]; simpl; try exact W.
  - destruct DEV; [now apply wf_warn | exact W].
  - now apply wf_register.
Qed.

Lemma wf_readonly v st : wf st -> wf (snd (readonly DEV v st)).
Proof. intros W. unfold readonly. now apply wf_createReactiveObject. Qed.

Lemma wf_reactive v st : wf st -> wf (snd (reactive DEV v st)).
Proof.
  intros W. unfold reactive.
  destruct (wm_has (readonlyToRaw st) v); [exact W |].
  destruct (ws_has (readonlyValues st) v);
    [now apply wf_readonly | now apply wf_createReactiveObject].
Qed.

Lemma wf_shallowReadonly v st : wf st -> wf (snd (shallowReadonly DEV v st)).
Proof. intros W. unfold shallowReadonly. now apply wf_createReactiveObject. Qed.

(** Every reachable state is consistent. *)
Lemma reachable_wf st : reachable DEV st -> wf st.
Proof.
  induction 1 as [| st ob _ IH Hraw | st o ob vue vnode _ IH _ _
                  | st v _ IH _ | st v _ IH _ | st v _ IH _
                  | st v w st' _ IH _ Hm | st v w st' _ IH _ Hm].
  - apply wf_init.
  - now apply wf_allocObject.
  - now apply wf_writeMarkers.
  - now apply wf_reactive.
  - now apply wf_readonly.
  - now apply wf_shallowReadonly.
  - destruct v; try discriminate Hm. injection Hm as _ <-.
    now apply wf_marks.
  - destruct v; try discriminate Hm. injection Hm as _ <-.
    now apply wf_marks.
Qed.

(** ** Wrapping an eligible raw object *)

Lemma eligible_isObject st o : eligible st o -> isObject st (VRef o) = true.
Proof. intros (ob & Hob & _ & Hcall & _). simpl. now rewrite Hob, Hcall. Qed.

Lemma eligible_not_proxy st o d :
  wf st -> eligible st o -> toRawMap d st !! o = None.
Proof.
  intros W (ob & Hob & Hraw & _).
  destruct (toRawMap d st !! o) as [x |] eqn:E; [| reflexivity].
  destruct (wf_bwd _ W _ _ _ E) as (_ & ob' & h & Hob' & Hpx). congruence.
Qed.

Lemma eligible_register st o d t x :
  eligible st o -> eligible (register d t (length (heap st)) x st) o.
Proof.
  intros (ob & Hob & Hraw & Hcall & Hc). exists ob.
  rewrite heap_register. split; [now apply heap_lookup_snoc_old |].
  repeat split; try assumption.
  simpl in *. rewrite heap_register, (heap_lookup_snoc_old _ _ _ _ Hob).
  rewrite Hob in Hc. now destruct d.
Qed.

Lemma createReactiveObject_cached d base coll st o p :
  isObject st (VRef o) = true -> toProxy d st !! o = Some p ->
  createReactiveObject DEV (VRef o) d base coll st = (VRef p, st).
Proof.
  intros Hobj Hp. unfold createReactiveObject. rewrite Hobj. simpl.
  now rewrite Hp.
Qed.

Lemma wrapperOf_cached st d o p :
  wf st -> toProxy d st !! o = Some p -> wrapperOf d st (VRef p) o.
Proof.
  intros W Hp. pose proof (wf_fwd _ W _ _ _ Hp) as Hr.
  destruct (wf_bwd _ W _ _ _ Hr) as (_ & ob & h & Hob & Hpx).
  exists p, ob, h. auto.
Qed.

(** Wrapping an eligible raw object always yields a wrapper of it, the
    cached one when there is one; the tables of the other direction and
    the marker sets are left alone. *)
Lemma createReactiveObject_eligible d base coll st o :
  wf st -> eligible st o ->
  exists p st1,
    createReactiveObject DEV (VRef o) d base coll st = (VRef p, st1) /\
    wrapperOf d st1 (VRef p) o /\ wf st1 /\ eligible st1 o /\
    readonlyValues st1 = readonlyValues st /\
    (forall d', d' <> d -> toProxy d' st1 = toProxy d' st /\
                           toRawMap d' st1 = toRawMap d' st) /\
    (forall q, toProxy d st !! o = Some q -> q = p /\ st1 = st).
Proof.
  intros W E.
  pose proof (wf_createReactiveObject (VRef o) d base coll st W) as W1.
  pose proof (eligible_isObject _ _ E) as Hobj.
  pose proof (eligible_not_proxy _ _ d W E) as Hnp.
  destruct E as (ob & Hob & Hraw & Hcall & Hc).
  assert (E : eligible st o) by (exists ob; auto).
  destruct (createReactiveObject_outcome (VRef o) d base coll st)
    as [Hn | t p Ht _ Hp | t x Ht _ _ Hx | t Ht _ _ _ Hx
        | t ob' Ht Hob' _ Hp _ _]; try congruence.
  - injection Ht as <-. exists p, st. simpl in W1.
    split; [reflexivity |]. split; [now apply wrapperOf_cached |].
    split; [exact W |]. split; [exact E |]. split; [reflexivity |].
    split; [now intros d' _ |]. intros q Hq. split; congruence.
  - injection Ht as <-. rewrite Hob in Hob'. injection Hob' as <-.
    eexists _, _. split; [reflexivity |]. simpl in W1.
    split; [apply wrapperOf_cached; [exact W1 |];
            rewrite toProxy_register; now rewrite decide_True |].
    split; [exact W1 |]. split; [now apply eligible_register |].
    split; [now destruct d |].
    split; [| congruence].
    intros d' Hd'. destruct d, d'; try congruence; now split.
Qed.

Lemma readonly_raw st o :
  wf st -> eligible st o ->
  readonly DEV (VRef o) st =
  createReactiveObject DEV (VRef o) ReadonlyFamily
    readonlyHandlers readonlyCollectionHandlers st.
Proof.
  intros W E. unfold readonly.
  pose proof (eligible_not_proxy _ _ Mutable W E) as H. simpl in *.
  now rewrite H.
Qed.

Lemma reactive_raw st o :
  wf st -> eligible st o ->
  reactive DEV (VRef o) st =
  if ws_has (readonlyValues st) (VRef o)
  then createReactiveObject DEV (VRef o) ReadonlyFamily
         readonlyHandlers readonlyCollectionHandlers st
  else createReactiveObject DEV (VRef o) Mutable
         mutableHandlers mutableCollectionHandlers st.
Proof.
  intros W E. unfold reactive, wm_has.
  pose proof (eligible_not_proxy _ _ ReadonlyFamily W E) as H.
  cbn [wm_get ws_has toRawMap] in *. rewrite H.
  destruct (bool_decide (o ∈ readonlyValues st)); [| reflexivity].
  now apply readonly_raw.
Qed.

Lemma reactive_eligible st o :
  wf st -> eligible st o ->
  exists p st1,
    reactive DEV (VRef o) st = (VRef p, st1) /\
    wrapperOf (reactiveDirection st o) st1 (VRef p) o /\
    wf st1 /\ eligible st1 o /\ readonlyValues st1 = readonlyValues st.
Proof.
  intros W E. rewrite (reactive_raw _ _ W E). unfold reactiveDirection.
  destruct (ws_has (readonlyValues st) (VRef o));
    [destruct (createReactiveObject_eligible ReadonlyFamily
                 readonlyHandlers readonlyCollectionHandlers st o W E)
       as (p & st1 & -> & Hw & W1 & E1 & Hrv & _)
    | destruct (createReactiveObject_eligible Mutable
                 mutableHandlers mutableCollectionHandlers st o W E)
       as (p & st1 & -> & Hw & W1 & E1 & Hrv & _)];
    exists p, st1; auto.
Qed.

Lemma wrapperOf_toProxy d st w o :
  wrapperOf d st w o -> exists p, w = VRef p /\ toProxy d st !! o = Some p.
Proof. intros (p & ob & h & -> & _ & _ & Hp & _). eauto. Qed.

(** A wrapper of a raw object is never that object. *)
Lemma wrapperOf_neq d st w o :
  eligible st o -> wrapperOf d st w o -> w <> VRef o.
Proof.
  intros (ob & Hob & Hraw & _) (p & ob' & h & -> & Hob' & Hpx & _) [= ->].
  congruence.
Qed.

(** ** The claims about the identity registry *)

(** C7. Identity stability: for an eligible raw object [o], asking twice
    for the same direction gives the identical wrapper, for [reactive] and
    for [readonly]; the second request changes nothing, the value returned
    is a registered wrapper of [o], and a direction holds at most one
    wrapper of [o]. *)
Theorem identity_stability (st : state) (o : objId) :
  reachable DEV st -> eligible st o ->
  (let '(w1, st1) := reactive DEV (VRef o) st in
   let '(w2, st2) := reactive DEV (VRef o) st1 in
   w1 = w2 /\ st2 = st1 /\ wrapperOf (reactiveDirection st o) st1 w1 o) /\
  (let '(r1, st1) := readonly DEV (VRef o) st in
   let '(r2, st2) := readonly DEV (VRef o) st1 in
   r1 = r2 /\ st2 = st1 /\ wrapperOf ReadonlyFamily st1 r1 o) /\
  (forall d s w w', wrapperOf d s w o -> wrapperOf d s w' o -> w = w').
Proof.
  intros R E. pose proof (reachable_wf _ R) as W. split; [| split].
  - destruct (reactive_eligible st o W E) as (p & st1 & -> & Hw & W1 & E1 & Hrv).
    rewrite (reactive_raw _ _ W1 E1).
    destruct (wrapperOf_toProxy _ _ _ _ Hw) as (p' & [= <-] & Hp).
    pose proof (eligible_isObject _ _ E1) as Hobj.
    unfold reactiveDirection in *. cbn [ws_has] in *. rewrite Hrv.
    destruct (bool_decide (o ∈ readonlyValues st));
      rewrite (createReactiveObject_cached _ _ _ _ _ _ Hobj Hp); auto.
  - rewrite (readonly_raw _ _ W E).
    destruct (createReactiveObject_eligible ReadonlyFamily
                readonlyHandlers readonlyCollectionHandlers st o W E)
      as (p & st1 & -> & Hw & W1 & E1 & _).
    rewrite (readonly_raw _ _ W1 E1).
    destruct (wrapperOf_toProxy _ _ _ _ Hw) as (p' & [= <-] & Hp).
    rewrite (createReactiveObject_cached _ _ _ _ _ _
               (eligible_isObject _ _ E1) Hp); auto.
  - intros d s w w' H H'.
    destruct (wrapperOf_toProxy _ _ _ _ H) as (p & -> & Hp).
    destruct (wrapperOf_toProxy _ _ _ _ H') as (p' & -> & Hp').
    congruence.
Qed.

(** C1, as the code has it. Once [readonly(o)] has been constructed for an
    eligible raw object [o], [shallowReadonly(o)] returns that same
    wrapper and changes nothing: the readonly-direction entry of [o] is
    not overwritten, the first wrapper constructed keeps it. *)
Theorem shallowReadonly_after_readonly (st : state) (o : objId) :
  reachable DEV st -> eligible st o ->
  let '(r, st1) := readonly DEV (VRef o) st in
  shallowReadonly DEV (VRef o) st1 = (r, st1) /\
  option_map VRef (wm_get (rawToReadonly st1) (VRef o)) = Some r /\
  wrapperOf ReadonlyFamily st1 r o.
Proof.
  intros R E. pose proof (reachable_wf _ R) as W.
  rewrite (readonly_raw _ _ W E).
  destruct (createReactiveObject_eligible ReadonlyFamily
              readonlyHandlers readonlyCollectionHandlers st o W E)
    as (p & st1 & -> & Hw & W1 & E1 & _).
  destruct (wrapperOf_toProxy _ _ _ _ Hw) as (p' & [= <-] & Hp).
  unfold shallowReadonly.
  rewrite (createReactiveObject_cached _ _ _ _ _ _
             (eligible_isObject _ _ E1) Hp).
  split; [reflexivity |]. split; [| exact Hw].
  cbn [wm_get]. simpl in Hp. now rewrite Hp.
Qed.

(** C8. Unwrap before rewrap: with [m = reactive(o)] for an eligible raw
    object [o], [readonly(m)] is a readonly wrapper of [o]; [m] is not
    [o], and the proxy returned is built over [o], not over [m]. *)
Theorem readonly_of_reactive_wraps_raw (st : state) (o : objId) :
  reachable DEV st -> eligible st o ->
  let '(m, st1) := reactive DEV (VRef o) st in
  let '(r, st2) := readonly DEV m st1 in
  wrapperOf ReadonlyFamily st2 r o /\
  wrapperOf (reactiveDirection st o) st1 m o /\
  m <> VRef o /\
  (forall t, wrapperOf ReadonlyFamily st2 r t -> VRef t <> m).
Proof.
  intros R E. pose proof (reachable_wf _ R) as W.
  destruct (reactive_eligible st o W E) as (p & st1 & -> & Hw & W1 & E1 & Hrv).
  pose proof (wrapperOf_neq _ _ _ _ E1 Hw) as Hne.
  assert (Hgoal : forall r st2,
             wrapperOf ReadonlyFamily st2 r o ->
             wrapperOf ReadonlyFamily st2 r o /\
             wrapperOf (reactiveDirection st o) st1 (VRef p) o /\
             VRef p <> VRef o /\
             (forall t, wrapperOf ReadonlyFamily st2 r t -> VRef t <> VRef p)).
  { intros r st2 Hr. repeat split; auto.
    intros t (q & ob & h & -> & Hob & Hpx & _) [= ->].
    destruct Hr as (q' & ob' & h' & [= <-] & Hob' & Hpx' & _).
    rewrite Hob in Hob'. injection Hob' as <-. congruence. }
  destruct Hw as (p' & obp & hp & [= <-] & Hobp & Hpxp & Hp & Hr).
  unfold readonly. cbn [wm_get].
  destruct (reactiveToRaw st1 !! p) as [raw |] eqn:Hm.
  - destruct (wf_bwd _ W1 Mutable _ _ Hm) as (_ & ob' & h' & Hob' & Hpx').
    assert (raw = o) as -> by congruence.
    destruct (createReactiveObject_eligible ReadonlyFamily
                readonlyHandlers readonlyCollectionHandlers st1 o W1 E1)
      as (q & st2 & -> & Hq & _).
    now apply Hgoal.
  - assert (Hd : reactiveDirection st o = ReadonlyFamily).
    { destruct (reactiveDirection st o); [simpl in Hr; congruence | reflexivity]. }
    rewrite Hd in Hp, Hr.
    destruct (wf_proxy _ W1 _ _ _ _ Hobp Hpxp) as (_ & Hcall).
    assert (Hres : createReactiveObject DEV (VRef p) ReadonlyFamily
                     readonlyHandlers readonlyCollectionHandlers st1
                   = (VRef p, st1)).
    { destruct (createReactiveObject_outcome (VRef p) ReadonlyFamily
                  readonlyHandlers readonlyCollectionHandlers st1)
        as [Hn | t q [= <-] _ Hq | t x [= <-] _ _ _ | t [= <-] _ _ Hx _
            | t ob' [= <-] _ _ _ Hx _]; try congruence.
      - simpl in Hn. rewrite Hobp, Hcall in Hn. discriminate.
      - apply (wf_not_both _ W1) in Hq. congruence. }
    rewrite Hres. apply Hgoal.
    exists p, obp, hp. auto.
Qed.

(** C9, as the code has it. A value whose [_isVue] or [_isVNode] property
    is truthy and that the tables do not know yet, neither as a wrapped
    raw object ([rawToReactive], [rawToReadonly]) nor as a mutable wrapper
    ([reactiveToRaw]), is returned unchanged by [reactive], [readonly] and
    [shallowReadonly], and nothing is registered: the four tables and the
    heap stay as they were, whatever the type of the value. *)
Theorem flagged_values_pass_through_unless_known (st : state) (v : value) :
  flagged st v ->
  wm_get (rawToReactive st) v = None ->
  wm_get (rawToReadonly st) v = None ->
  wm_get (reactiveToRaw st) v = None ->
  (fst (reactive DEV v st) = v /\
   tables (snd (reactive DEV v st)) = tables st /\
   heap (snd (reactive DEV v st)) = heap st) /\
  (fst (readonly DEV v st) = v /\
   tables (snd (readonly DEV v st)) = tables st /\
   heap (snd (readonly DEV v st)) = heap st) /\
  (fst (shallowReadonly DEV v st) = v /\
   tables (snd (shallowReadonly DEV v st)) = tables st /\
   heap (snd (shallowReadonly DEV v st)) = heap st).
Proof.
  intros (id & ob & -> & Hob & Hflag) HP1 HP2 HR. cbn [wm_get] in HP1, HP2, HR.
  assert (Hcan : canObserve st (VRef id) = false).
  { simpl. rewrite Hob.
    destruct Hflag as [-> | ->]; [reflexivity | now destruct (_isVue ob)]. }
  assert (Hcro : forall d base coll,
             let r := createReactiveObject DEV (VRef id) d base coll st in
             fst r = VRef id /\ tables (snd r) = tables st /\
             heap (snd r) = heap st).
  { intros d base coll r. subst r.
    destruct (createReactiveObject_outcome (VRef id) d base coll st)
      as [Hn | t q [= <-] _ Hq | t x [= <-] _ _ Hx | t [= <-] _ _ _ _
          | t ob' [= <-] Hob' _ _ _ Hc]; simpl; auto.
    - now destruct DEV.
    - destruct d; simpl in Hq; congruence.
    - congruence. }
  assert (Hro : readonly DEV (VRef id) st =
                createReactiveObject DEV (VRef id) ReadonlyFamily
                  readonlyHandlers readonlyCollectionHandlers st).
  { unfold readonly. cbn [wm_get]. now rewrite HR. }
  split; [| split].
  - unfold reactive, wm_has. cbn [wm_get].
    destruct (readonlyToRaw st !! id); [now repeat split |].
    destruct (ws_has (readonlyValues st) (VRef id)).
    + rewrite Hro. apply Hcro.
    + apply Hcro.
  - rewrite Hro. apply Hcro.
  - unfold shallowReadonly. apply Hcro.
Qed.

End RegistryFacts.

(** ** Concrete states *)

Lemma twoObjects_reachable : reachable false twoObjects.
Proof. repeat (apply reach_alloc; [| reflexivity]). apply reach_init. Qed.

Lemma plainObject_eligible : eligible twoObjects 0.
Proof. exists plainObject. repeat split; reflexivity. Qed.

Lemma vueInstance_flagged : flagged twoObjects (VRef 1).
Proof. exists 1, vueInstance. repeat split. now left. Qed.

Lemma identity_stability_witness :
  reachable false twoObjects /\ eligible twoObjects 0 /\
  (forall d s w w', wrapperOf d s w 0 -> wrapperOf d s w' 0 -> w = w').
Proof.
  split; [exact twoObjects_reachable |]. split; [exact plainObject_eligible |].
  exact (proj2 (proj2 (identity_stability false twoObjects 0
                         twoObjects_reachable plainObject_eligible))).
Defined.

Lemma shallowReadonly_after_readonly_witness :
  reachable false twoObjects /\ eligible twoObjects 0 /\
  shallowReadonly false (VRef 0) (snd (readonly false (VRef 0) twoObjects)) =
  readonly false (VRef 0) twoObjects.
Proof.
  split; [exact twoObjects_reachable |]. split; [exact plainObject_eligible |].
  pose proof (shallowReadonly_after_readonly false twoObjects 0
                twoObjects_reachable plainObject_eligible) as H.
  destruct (readonly false (VRef 0) twoObjects) as [r st1].
  exact (proj1 H).
Defined.

(** C1, refuted as stated. On [o = {}], [readonly(o)] builds the proxy at
    address 2 with [readonlyHandlers]; [shallowReadonly(o)] afterwards
    returns that proxy, the readonly-direction entry of [o] is the same
    before and after, and no proxy with [shallowReadonlyHandlers] was
    built at all. *)
Lemma shallowReadonly_does_not_overwrite :
  let '(r, st1) := readonly false (VRef 0) twoObjects in
  let '(s, st2) := shallowReadonly false (VRef 0) st1 in
  r = VRef 2 /\ s = VRef 2 /\
  rawToReadonly st1 !! 0 = Some 2 /\ rawToReadonly st2 !! 0 = Some 2 /\
  heap st2 !! 2 = Some (newProxy 0 plainObject readonlyHandlers) /\
  length (heap st2) = 3.
Proof. vm_compute. repeat split; reflexivity. Qed.

Lemma readonly_of_reactive_wraps_raw_witness :
  reachable false twoObjects /\ eligible twoObjects 0 /\
  fst (reactive false (VRef 0) twoObjects) <> VRef 0.
Proof.
  split; [exact twoObjects_reachable |]. split; [exact plainObject_eligible |].
  pose proof (readonly_of_reactive_wraps_raw false twoObjects 0
                twoObjects_reachable plainObject_eligible) as H.
  destruct (reactive false (VRef 0) twoObjects) as [m st1].
  destruct (readonly false m st1) as [r st2].
  exact (proj1 (proj2 (proj2 H))).
Defined.

Lemma flagged_values_pass_through_unless_known_witness :
  flagged twoObjects (VRef 1) /\
  fst (reactive false (VRef 1) twoObjects) = VRef 1.
Proof.
  split; [exact vueInstance_flagged |].
  exact (proj1 (proj1 (flagged_values_pass_through_unless_known false
                         twoObjects (VRef 1) vueInstance_flagged
                         eq_refl eq_refl eq_refl))).
Defined.

Lemma wrappedThenFlagged_reachable : reachable false wrappedThenFlagged.
Proof.
  apply (reach_write false _ 0 plainObject); [| reflexivity | reflexivity].
  apply reach_reactive; [exact twoObjects_reachable | simpl; lia].
Qed.

Lemma readonlyThenFlagged_reachable : reachable false readonlyThenFlagged.
Proof.
  apply (reach_write false _ 0 plainObject); [| reflexivity | reflexivity].
  apply reach_readonly; [exact twoObjects_reachable | simpl; lia].
Qed.

(** C9, refuted as stated. [o = {}; m = reactive(o); o._isVue = true]:
    the state is reachable and [o] carries a truthy [_isVue], yet
    [reactive(o)] returns the cached wrapper [m], object 2, because the
    cache lookup of lines 116-119 comes before [canObserve]; [m] shows
    the marker of its target and [readonly(m)] returns [o], not [m].
    With [r = readonly(o)] built before the assignment, [readonly(o)] and
    [shallowReadonly(o)] return [r]. *)
Lemma flagged_after_wrapping_gets_wrapper :
  (reachable false wrappedThenFlagged /\
   flagged wrappedThenFlagged (VRef 0) /\
   reactive false (VRef 0) wrappedThenFlagged = (VRef 2, wrappedThenFlagged) /\
   flagged wrappedThenFlagged (VRef 2) /\
   readonly false (VRef 2) wrappedThenFlagged = (VRef 0, wrappedThenFlagged)) /\
  (reachable false readonlyThenFlagged /\
   flagged readonlyThenFlagged (VRef 0) /\
   readonly false (VRef 0) readonlyThenFlagged = (VRef 2, readonlyThenFlagged) /\
   shallowReadonly false (VRef 0) readonlyThenFlagged
     = (VRef 2, readonlyThenFlagged)).
Proof.
  split.
  - split; [exact wrappedThenFlagged_reachable |].
    split; [eexists 0, _; split; [reflexivity |]; split; [reflexivity | now left] |].
    split; [reflexivity |].
    split; [eexists 2, _; split; [reflexivity |]; split; [reflexivity | now left] |].
    reflexivity.
  - split; [exact readonlyThenFlagged_reachable |].
    split; [eexists 0, _; split; [reflexivity |]; split; [reflexivity | now left] |].
    split; reflexivity.
Qed.

End ReactiveFacts.

(* ===================================================================== *)
(** * Part IV: properties of the effect runtime *)
(* ===================================================================== *)

Module EffectFacts.
Import Effect.

(** ** Maps and sets in insertion order *)

Section InsertionOrderFacts.
Context {K V : Type} `{EqDecision K}.

Lemma map_get_set (k k' : K) (v : V) (m : list (K * V)) :
  map_get k' (map_set k v m) = if decide (k' = k) then Some v else map_get k' m.
Proof.
  induction m as [| [k0 v0] m IH]; simpl.
  - destruct (decide (k' = k)); reflexivity.
  - destruct (decide (k = k0)) as [-> | Hne]; simpl.
    + destruct (decide (k' = k0)); reflexivity.
    + destruct (decide (k' = k0)) as [-> | Hne'].
      * destruct (decide (k0 = k)); [congruence | reflexivity].
      * exact IH.
Qed.

End InsertionOrderFacts.

Lemma set_has_In (e : effId) (s : list effId) : set_has e s = true <-> In e s.
Proof.
  unfold set_has. rewrite existsb_exists. split.
  - intros (x & Hx & Heq). apply Nat.eqb_eq in Heq. now subst.
  - intros Hin. exists e. split; [exact Hin | apply Nat.eqb_refl].
Qed.

Lemma set_has_false (e : effId) (s : list effId) :
  set_has e s = false <-> ~ In e s.
Proof.
  rewrite <- set_has_In. destruct (set_has e s); split; congruence.
Qed.

Lemma set_add_In (e x : effId) (s : list effId) :
  In x (set_add e s) <-> x = e \/ In x s.
Proof.
  unfold set_add. destruct (set_has e s) eqn:Hhas.
  - apply set_has_In in Hhas. split; [auto | intros [-> | ?]; assumption].
  - rewrite in_app_iff. simpl. intuition.
Qed.

Lemma set_add_NoDup (e : effId) (s : list effId) :
  List.NoDup s -> List.NoDup (set_add e s).
Proof.
  intros Hnd. unfold set_add. destruct (set_has e s) eqn:Hhas; [exact Hnd |].
  apply set_has_false in Hhas.
  apply NoDup_rev in Hnd. rewrite <- (rev_involutive (s ++ [e])).
  apply NoDup_rev. rewrite rev_app_distr. simpl.
  constructor; [now rewrite <- in_rev | exact Hnd].
Qed.

Lemma set_delete_In (e x : effId) (s : list effId) :
  In x (set_delete e s) <-> In x s /\ x <> e.
Proof.
  unfold set_delete. rewrite filter_In, negb_true_iff, Nat.eqb_neq.
  intuition.
Qed.

(** ** The members of a [Dep] after a mutation of [targetMap] *)

Lemma members_map_set tm t ky s d :
  members
    (map_set t
       (map_set ky s (match map_get t tm with Some m => m | None => [] end))
       tm) d
  = if decide (d = (t, ky)) then s else members tm d.
Proof.
  destruct d as [t' k']. unfold members. simpl.
  rewrite map_get_set. destruct (decide (t' = t)) as [-> | Hne].
  - rewrite map_get_set. destruct (decide (k' = ky)) as [-> | Hne'].
    + now rewrite decide_True.
    + rewrite decide_False by congruence.
      destruct (map_get t tm); reflexivity.
  - rewrite decide_False by congruence. reflexivity.
Qed.

Lemma members_on_dep tm d f d' :
  f [] = [] ->
  members (on_dep d f tm) d' =
  if decide (d' = d) then f (members tm d) else members tm d'.
Proof.
  intros Hf. destruct d as [t ky]. unfold on_dep. simpl.
  destruct (map_get t tm) as [dm |] eqn:Ht.
  - destruct (map_get ky dm) as [dep |] eqn:Hk.
    + pose proof (members_map_set tm t ky (f dep) d') as H.
      rewrite Ht in H. rewrite H.
      destruct (decide (d' = (t, ky))); [| reflexivity].
      unfold members. simpl. now rewrite Ht, Hk.
    + destruct (decide (d' = (t, ky))) as [-> |]; [| reflexivity].
      unfold members. simpl. now rewrite Ht, Hk, Hf.
  - destruct (decide (d' = (t, ky))) as [-> |]; [| reflexivity].
    unfold members. simpl. now rewrite Ht, Hf.
Qed.

Lemma members_cleanup_fold e ds tm d x :
  In x (members (fold_left (fun tm d => on_dep d (set_delete e) tm) ds tm) d)
  <-> In x (members tm d) /\ (In d ds -> x <> e).
Proof.
  revert tm. induction ds as [| d0 ds IH]; intros tm; simpl.
  - tauto.
  - rewrite IH, members_on_dep by reflexivity.
    destruct (decide (d = d0)) as [-> | Hne].
    + rewrite set_delete_In. intuition.
    + intuition.
Qed.

(** ** Mutations of effect objects *)

Lemma store_on_effect e f st e' :
  store (on_effect e f st) !! e' =
  if decide (e' = e) then f <$> store st !! e else store st !! e'.
Proof.
  unfold on_effect. destruct (store st !! e) as [r |] eqn:He; simpl.
  - destruct (decide (e' = e)) as [-> | Hne].
    + apply list_lookup_insert_eq. eapply lookup_lt_Some; eauto.
    + now apply list_lookup_insert_ne.
  - destruct (decide (e' = e)) as [-> | Hne]; [exact He | reflexivity].
Qed.

Lemma length_store_on_effect e f st :
  length (store (on_effect e f st)) = length (store st).
Proof.
  unfold on_effect. destruct (store st !! e); simpl; [| reflexivity].
  apply length_insert.
Qed.

Lemma on_effect_frame e f st :
  targetMap (on_effect e f st) = targetMap st /\
  effectStack (on_effect e f st) = effectStack st /\
  activeEffect (on_effect e f st) = activeEffect st.
Proof. unfold on_effect. destruct (store st !! e); simpl; auto. Qed.

Lemma depsOf_on_effect e f st e' :
  depsOf (on_effect e f st) e' =
  if decide (e' = e)
  then match store st !! e with Some r => deps (f r) | None => [] end
  else depsOf st e'.
Proof.
  unfold depsOf. rewrite store_on_effect.
  destruct (decide (e' = e)); [| reflexivity].
  destruct (store st !! e); reflexivity.
Qed.

Lemma liveTracking_frame st st' :
  length (store st) <= length (store st') ->
  effectStack st' = effectStack st -> activeEffect st' = activeEffect st ->
  liveTracking st -> liveTracking st'.
Proof.
  intros Hlen Hstk Hact [Ha Hs]. split.
  - intros e He. rewrite Hact in He. apply Ha in He. lia.
  - intros e He. rewrite Hstk in He. apply Hs in He. lia.
Qed.

(** ** Each mutation of the graph keeps the bookkeeping consistent *)

Lemma consistent_init : consistent init.
Proof.
  split; [| split; simpl; [discriminate | tauto]].
  intros e d. unfold depsOf, members. simpl. tauto.
Qed.

Lemma consistent_cleanup e st : consistent st -> consistent (cleanup e st).
Proof.
  intros [Hb Hl]. unfold cleanup.
  destruct (store st !! e) as [r |] eqn:He; [| now split].
  split.
  - intros e' d. rewrite depsOf_on_effect.
    destruct (on_effect_frame e (set_deps [])
                (set_targetMap
                   (fold_left (fun tm d => on_dep d (set_delete e) tm)
                      (deps r) (targetMap st)) st)) as (-> & _).
    simpl. rewrite members_cleanup_fold, He. simpl.
    destruct (decide (e' = e)) as [-> | Hne].
    + split; [| intros []]. intros [Hin Hnot].
      apply Hnot; [| reflexivity]. apply Hb in Hin.
      unfold depsOf in Hin. now rewrite He in Hin.
    + rewrite (Hb e' d). unfold depsOf. simpl. intuition.
  - eapply liveTracking_frame; [| | | exact Hl].
    + now rewrite length_store_on_effect.
    + now destruct (on_effect_frame e (set_deps [])
                      (set_targetMap
                         (fold_left (fun tm d => on_dep d (set_delete e) tm)
                            (deps r) (targetMap st)) st)) as (_ & -> & _).
    + now destruct (on_effect_frame e (set_deps [])
                      (set_targetMap
                         (fold_left (fun tm d => on_dep d (set_delete e) tm)
                            (deps r) (targetMap st)) st)) as (_ & _ & ->).
Qed.

Lemma consistent_tracked a t ky st :
  activeEffect st = Some a -> consistent st -> consistent (tracked a t ky st).
Proof.
  intros Hact [Hb Hl].
  assert (Hlt : a < length (store st)) by (now apply (proj1 Hl)).
  destruct (lookup_lt_is_Some_2 _ _ Hlt) as [r Hr].
  unfold tracked.
  set (depsMap := match map_get t (targetMap st) with
                  | Some m => m | None => [] end).
  assert (Hdep : match map_get ky depsMap with Some s => s | None => [] end
                 = members (targetMap st) (t, ky)).
  { unfold members, depsMap. simpl. destruct (map_get t (targetMap st));
      reflexivity. }
  rewrite Hdep.
  destruct (set_has a (members (targetMap st) (t, ky))) eqn:Hhas; simpl.
  - split.
    + intros e d. simpl. unfold depsMap. rewrite members_map_set.
      destruct (decide (d = (t, ky))) as [-> |]; apply Hb.
    + eapply liveTracking_frame; [| | | exact Hl]; reflexivity.
  - apply set_has_false in Hhas. split.
    + intros e d. rewrite depsOf_on_effect.
      match goal with
      | |- context [on_effect a ?f ?s] =>
        destruct (on_effect_frame a f s) as (-> & _)
      end.
      simpl. unfold depsMap. rewrite members_map_set.
      change (depsOf (set_targetMap _ st) e) with (depsOf st e).
      rewrite Hr.
      destruct (decide (d = (t, ky))) as [-> | Hd];
        destruct (decide (e = a)) as [-> | He];
        rewrite ?in_app_iff; simpl.
      * intuition.
      * rewrite (Hb e (t, ky)). intuition congruence.
      * rewrite (Hb a d). unfold depsOf. rewrite Hr. intuition congruence.
      * apply Hb.
    + match goal with
      | |- context [on_effect a ?f ?s] =>
        pose proof (on_effect_frame a f s) as (_ & Hstk & Hac);
        pose proof (length_store_on_effect a f s) as Hlen
      end.
      eapply liveTracking_frame; [| exact Hstk | exact Hac | exact Hl].
      rewrite Hlen. reflexivity.
Qed.

Lemma consistent_deactivate e st :
  consistent st -> consistent (on_effect e (set_active false) st).
Proof.
  intros [Hb Hl]. split.
  - intros e' d. rewrite depsOf_on_effect.
    destruct (on_effect_frame e (set_active false) st) as (-> & _).
    rewrite (Hb e' d). destruct (decide (e' = e)) as [-> |]; [| reflexivity].
    unfold depsOf. destruct (store st !! e); reflexivity.
  - destruct (on_effect_frame e (set_active false) st) as (_ & Hstk & Hac).
    eapply liveTracking_frame; [| exact Hstk | exact Hac | exact Hl].
    now rewrite length_store_on_effect.
Qed.

Lemma consistent_create fn opts st :
  consistent st -> consistent (snd (createReactiveEffect fn opts st)).
Proof.
  intros [Hb Hl]. split.
  - intros e d. simpl. rewrite (Hb e d). unfold depsOf. simpl.
    destruct (Nat.lt_ge_cases e (length (store st))) as [Hlt | Hge].
    + now rewrite lookup_app_l.
    + rewrite (lookup_ge_None_2 (store st)) by exact Hge.
      rewrite lookup_app_r by exact Hge.
      destruct (e - length (store st)) as [| [| n]]; reflexivity.
  - eapply liveTracking_frame; [| | | exact Hl]; simpl; try reflexivity.
    rewrite length_app. lia.
Qed.

Lemma consistent_enter e st :
  e < length (store st) -> consistent st -> consistent (enter e st).
Proof.
  intros Hlt [Hb [Ha Hs]]. split; [exact Hb |]. split; simpl.
  - now intros e' [= <-].
  - intros e' Hin. apply in_app_iff in Hin as [Hin | [<- | []]]; auto.
Qed.

Lemma In_removelast {A : Type} (x : A) (l : list A) :
  In x (removelast l) -> In x l.
Proof.
  induction l as [| a [| b l] IH]; simpl; [tauto | tauto |].
  intros [-> | Hin]; [now left | right; now apply IH].
Qed.

Lemma last_In {A : Type} (x : A) (l : list A) : last l = Some x -> In x l.
Proof.
  intros H. apply last_Some in H as [l' ->]. apply in_app_iff. right. now left.
Qed.

Lemma consistent_leave st : consistent st -> consistent (leave st).
Proof.
  intros [Hb [Ha Hs]]. split; [exact Hb |]. split; simpl.
  - intros e He. apply Hs. apply In_removelast. now apply last_In.
  - intros e He. apply Hs. now apply In_removelast.
Qed.

Lemma consistent_set_var n st : consistent st -> consistent (set_var n st).
Proof. now intros [Hb Hl]. Qed.

Lemma consistent_set_shouldTrack b st :
  consistent st -> consistent (set_shouldTrack b st).
Proof. now intros [Hb Hl]. Qed.

(** ** Relations every run respects *)

Lemma bind_Some {A B : Type} (m : M A) (f : A -> M B) st o st' :
  bind m f st = Some (o, st') ->
  (exists a st1, m st = Some (Normal a, st1) /\ f a st1 = Some (o, st')) \/
  (exists err, m st = Some (Thrown err, st') /\ o = Thrown err).
Proof.
  unfold bind. destruct (m st) as [[[a | err] st1] |]; intros H.
  - left. eauto.
  - right. injection H as <- <-. eauto.
  - discriminate.
Qed.

Section Respects.

Variable R : state -> state -> Prop.
Hypothesis R_refl : forall st, R st st.
Hypothesis R_trans : forall a b c, R a b -> R b c -> R a c.

Lemma respects_ret {A : Type} (a : A) : respects R (ret a).
Proof using R_refl. intros st o st' [= <- <-]. apply R_refl. Qed.

Lemma respects_throw {A : Type} (err : nat) : respects R (@throw A err).
Proof using R_refl. intros st o st' [= <- <-]. apply R_refl. Qed.

Lemma respects_bind {A B : Type} (m : M A) (f : A -> M B) :
  respects R m -> (forall a, respects R (f a)) -> respects R (bind m f).
Proof using R_trans.
  intros Hm Hf st o st' H.
  apply bind_Some in H as [(a & st1 & H1 & H2) | (err & H1 & _)].
  - eapply R_trans; [eapply Hm | eapply Hf]; eauto.
  - eapply Hm; eauto.
Qed.

Lemma respects_from {A : Type} (m : M A) st st1 o st' :
  R st st1 -> respects R m -> m st1 = Some (o, st') -> R st st'.
Proof using R_trans. intros H1 Hm H. eapply R_trans; [exact H1 | eapply Hm; eauto]. Qed.

Lemma respects_forEach {A : Type} (f : A -> M unit) (l : list A) :
  (forall x, respects R (f x)) -> respects R (forEach f l).
Proof using R_refl R_trans.
  intros Hf. induction l as [| x l IH]; simpl.
  - apply respects_ret.
  - apply respects_bind; [apply Hf | intros _; exact IH].
Qed.

Variable DEV : bool.
Variable call : prog -> M value.

Hypothesis R_call : forall p, respects R (call p).
Hypothesis R_run : forall e, respects R (run call e).
Hypothesis R_cleanup : forall e st, R st (cleanup e st).
Hypothesis R_deactivate : forall e st, R st (on_effect e (set_active false) st).
Hypothesis R_create :
  forall fn opts st, R st (snd (createReactiveEffect fn opts st)).
Hypothesis R_tracked :
  forall a t ky st, activeEffect st = Some a -> R st (tracked a t ky st).
Hypothesis R_set_var : forall n st, R st (set_var n st).
Hypothesis R_set_shouldTrack : forall b st, R st (set_shouldTrack b st).

Lemma respects_call_unit p : respects R (call p ;;; ret tt).
Proof using R_refl R_trans R_call.
  apply respects_bind; [apply R_call | intros _; apply respects_ret].
Qed.

Lemma respects_stop e : respects R (stop call e).
Proof using R_refl R_trans R_call R_cleanup R_deactivate.
  intros st o st' H. unfold stop in H.
  destruct (store st !! e) as [r |]; [| eapply respects_throw; eauto].
  destruct (active r); [| eapply respects_ret; eauto].
  eapply respects_from; [apply R_cleanup | | exact H].
  apply respects_bind.
  - destruct (onStop (options r)); [apply respects_call_unit | apply respects_ret].
  - intros _ st2 o2 st2' [= <- <-]. apply R_deactivate.
Qed.

Lemma respects_effect fn opts : respects R (effect call fn opts).
Proof using R_refl R_trans R_run R_create.
  intros st o st' H. unfold effect in H.
  destruct (match fn with
            | inl body => Some body
            | inr f => option_map raw (store st !! f)
            end) as [body |]; [| eapply respects_throw; eauto].
  pose proof (R_create body opts st) as Hc.
  destruct (createReactiveEffect body opts st) as [e st1]. simpl in Hc.
  eapply R_trans; [exact Hc |]. revert H.
  destruct (lazy opts); simpl; [apply respects_ret |].
  apply respects_bind; [apply R_run | intros _; apply respects_ret].
Qed.

Lemma track_Some t ty ky st o st' :
  track DEV call t ty ky st = Some (o, st') ->
  st' = st \/
  exists a, activeEffect st = Some a /\
    (st' = tracked a t ky st \/
     exists p o', call p (tracked a t ky st) = Some (o', st')).
Proof.
  unfold track, tracked. intros H.
  destruct (activeEffect st) as [a |]; [| injection H as _ <-; now left].
  destruct (shouldTrack st); simpl in H; [| injection H as _ <-; now left].
  right. exists a. split; [reflexivity |].
  destruct (negb (set_has a _)).
  - match type of H with
    | match ?hook with _ => _ end = _ => destruct hook as [h |]
    end.
    + right. apply bind_Some in H as [(v & st1 & H1 & [= <- <-]) | (err & H1 & _)];
        eauto.
    + left. unfold ret in H. now injection H as _ <-.
  - left. unfold ret in H. now injection H as _ <-.
Qed.

Lemma respects_track t ty ky : respects R (track DEV call t ty ky).
Proof using R_refl R_trans R_call R_tracked.
  intros st o st' H.
  apply track_Some in H as [-> | (a & Ha & [-> | (p & o' & Hp)])].
  - apply R_refl.
  - now apply R_tracked.
  - eapply R_trans; [apply (R_tracked a t ky st Ha) | eapply R_call; exact Hp].
Qed.

Lemma respects_scheduleRun e t ty ky extraInfo :
  respects R (scheduleRun DEV call e t ty ky extraInfo).
Proof using R_refl R_trans R_call R_run.
  intros st o st' H. unfold scheduleRun in H.
  destruct (store st !! e) as [r |]; [| eapply respects_throw; eauto].
  revert H. apply respects_bind.
  - destruct (if DEV then onTrigger (options r) else None);
      [apply respects_call_unit | apply respects_ret].
  - intros _. destruct (scheduler (options r)); [apply respects_call_unit |].
    apply respects_bind; [apply R_run | intros _; apply respects_ret].
Qed.

Lemma respects_trigger t ty ky extraInfo :
  respects R (trigger DEV call t ty ky extraInfo).
Proof using R_refl R_trans R_call R_run.
  intros st o st' H. unfold trigger in H.
  destruct (map_get t (targetMap st)) as [depsMap |];
    [| eapply respects_ret; eauto].
  destruct (collectRunners st depsMap t ty ky) as [effects computedRunners].
  revert H. apply respects_bind; [| intros _];
    apply respects_forEach; intros x; apply respects_scheduleRun.
Qed.

Lemma respects_step p : respects R (step DEV call p).
Proof using All.
  destruct p; simpl.
  - apply respects_ret.
  - apply respects_throw.
  - intros st o st' H. eapply R_call; eauto.
  - intros st o st' H. eapply R_trans; [apply R_set_var | eapply R_call; eauto].
  - apply respects_bind; [apply respects_track | intros _; apply R_call].
  - apply respects_bind; [apply respects_trigger | intros _; apply R_call].
  - apply respects_bind; [apply R_run | intros v; apply R_call].
  - apply respects_bind; [apply respects_effect | intros v; apply R_call].
  - apply respects_bind; [apply respects_stop | intros _; apply R_call].
  - intros st o st' H.
    eapply R_trans; [apply (R_set_shouldTrack false) | eapply R_call; eauto].
  - intros st o st' H.
    eapply R_trans; [apply (R_set_shouldTrack true) | eapply R_call; eauto].
  - intros st o st' H. destruct (call p st) as [[o1 st1] |] eqn:H1; [| discriminate].
    eapply R_trans; eapply R_call; eauto.
Qed.

End Respects.

(** ** The execution stack is restored by every run *)

Lemma try_finally_Some {A : Type} (m : M A) fin st o st' :
  try_finally m fin st = Some (o, st') ->
  exists st3, m st = Some (o, st3) /\ st' = fin st3.
Proof.
  unfold try_finally. destruct (m st) as [[o1 st3] |]; [| discriminate].
  intros [= <- <-]. eauto.
Qed.

Lemma effectStack_cleanup e st : effectStack (cleanup e st) = effectStack st.
Proof.
  unfold cleanup. destruct (store st !! e) as [r |]; [| reflexivity].
  match goal with
  | |- context [on_effect e ?f ?s] =>
    now destruct (on_effect_frame e f s) as (_ & -> & _)
  end.
Qed.

Lemma effectStack_tracked a t ky st :
  effectStack (tracked a t ky st) = effectStack st.
Proof.
  unfold tracked. destruct (negb (set_has a _)); [| reflexivity].
  match goal with
  | |- context [on_effect a ?f ?s] =>
    now destruct (on_effect_frame a f s) as (_ & -> & _)
  end.
Qed.

Lemma run_sameStack call e :
  (forall p, respects sameStack (call p)) -> respects sameStack (run call e).
Proof.
  intros Hcall st o st' H. unfold run in H. unfold sameStack.
  destruct (store st !! e) as [r |]; [| now injection H as _ <-].
  destruct (active r); simpl in H; [| eapply Hcall; eauto].
  destruct (set_has e (effectStack st)); simpl in H; [now injection H as _ <- |].
  apply try_finally_Some in H as (st3 & H & ->).
  apply Hcall in H. unfold sameStack in H. simpl in *.
  rewrite H, effectStack_cleanup. apply removelast_last.
Qed.

Lemma exec_sameStack DEV fuel p : respects sameStack (exec DEV fuel p).
Proof.
  revert p. induction fuel as [| n IH]; intros p; [intros st o st' [=] |].
  simpl. apply respects_step; unfold sameStack; try reflexivity; try congruence.
  - exact IH.
  - intros e. now apply run_sameStack.
  - apply effectStack_cleanup.
  - intros e st.
    now destruct (on_effect_frame e (set_active false) st) as (_ & -> & _).
  - intros a t ky st _. apply effectStack_tracked.
Qed.

(** ** The bookkeeping stays consistent through every run *)

Lemma run_keepsConsistent call e :
  (forall p, respects keepsConsistent (call p)) ->
  respects keepsConsistent (run call e).
Proof.
  intros Hcall st o st' H C. unfold run in H.
  destruct (store st !! e) as [r |] eqn:He; [| now injection H as _ <-].
  destruct (active r); simpl in H; [| eapply Hcall; eauto].
  destruct (set_has e (effectStack st)); simpl in H; [now injection H as _ <- |].
  apply try_finally_Some in H as (st3 & H & ->).
  apply consistent_leave. eapply Hcall; [exact H |].
  apply consistent_enter; [| now apply consistent_cleanup].
  unfold cleanup. rewrite He. rewrite length_store_on_effect. simpl.
  eapply lookup_lt_Some; eauto.
Qed.

Lemma exec_keepsConsistent DEV fuel p :
  respects keepsConsistent (exec DEV fuel p).
Proof.
  revert p. induction fuel as [| n IH]; intros p; [intros st o st' [=] |].
  simpl. apply respects_step; unfold keepsConsistent; auto.
  - intros e. now apply run_keepsConsistent.
  - intros e st. apply consistent_cleanup.
  - intros e st. apply consistent_deactivate.
  - intros fn opts st. apply consistent_create.
  - intros a t ky st Ha. now apply consistent_tracked.
Qed.

(** ** The claims about [run], [track], [cleanup] and [stop] *)

(** C2, as the code has it. An effect that has not been stopped and is
    already on the execution stack is not executed when it is invoked
    again: [run] returns [undefined] and the state is untouched, whatever
    the body is. Hence a [trigger] that dispatches it from inside its own
    run (no scheduler, no [onTrigger] hook in play) does nothing either. *)
Theorem reentrant_invocation_skipped (DEV : bool) (call : prog -> M value)
    (e : effId) (r : ReactiveEffect) (st : state) :
  store st !! e = Some r -> active r = true -> In e (effectStack st) ->
  run call e st = Some (Normal VUndefined, st) /\
  (forall t ty ky extraInfo,
     scheduler (options r) = None ->
     (if DEV then onTrigger (options r) else None) = None ->
     scheduleRun DEV call e t ty ky extraInfo st = Some (Normal tt, st)).
Proof.
  intros He Hact Hin.
  assert (Hrun : run call e st = Some (Normal VUndefined, st)).
  { unfold run. rewrite He, Hact. simpl.
    apply set_has_In in Hin. now rewrite Hin. }
  split; [exact Hrun |].
  intros t ty ky extraInfo Hs Ht. unfold scheduleRun. rewrite He, Hs, Ht.
  unfold bind, ret. now rewrite Hrun.
Qed.

(** C6. An effect that is run (active, not yet on the stack) is popped
    on every exit path: whether its body returns or raises, [run] ends
    with the outcome of the body (a failure reaches the caller), the
    execution stack is what it was before the call, and the active effect
    is the top of that stack. *)
Theorem run_unwinds_on_every_exit (DEV : bool) (fuel : nat) (e : effId)
    (r : ReactiveEffect) (st : state) (o : outcome value) (st3 : state) :
  store st !! e = Some r -> active r = true -> ~ In e (effectStack st) ->
  exec DEV fuel (raw r) (enter e (cleanup e st)) = Some (o, st3) ->
  run (exec DEV fuel) e st = Some (o, leave st3) /\
  effectStack (leave st3) = effectStack st /\
  activeEffect (leave st3) = last (effectStack st).
Proof.
  intros He Hact Hnin Hbody.
  assert (Hstk : effectStack (leave st3) = effectStack st).
  { apply exec_sameStack in Hbody. unfold sameStack in Hbody. simpl in *.
    rewrite Hbody, effectStack_cleanup. apply removelast_last. }
  split; [| split; [exact Hstk |]].
  - unfold run. rewrite He, Hact. simpl.
    apply set_has_false in Hnin. rewrite Hnin. simpl.
    unfold try_finally. now rewrite Hbody.
  - simpl in *. now rewrite Hstk.
Qed.

(** C10. The bidirectional bookkeeping ([e] is a member of [d] exactly
    when [d] is in [e.deps]) holds when the module is loaded and is
    preserved by [track], [cleanup], [run] and [stop], and by every
    function of the caller that runs to an end; so it holds in every state
    a program can reach. *)
Theorem bidirectional_bookkeeping_preserved (DEV : bool) (fuel : nat)
    (st : state) :
  consistent st ->
  bidirectional st /\
  (forall t ty ky o st',
     track DEV (exec DEV fuel) t ty ky st = Some (o, st') -> consistent st') /\
  (forall e, consistent (cleanup e st)) /\
  (forall e o st',
     run (exec DEV fuel) e st = Some (o, st') -> consistent st') /\
  (forall e o st',
     stop (exec DEV fuel) e st = Some (o, st') -> consistent st') /\
  (forall p o st', exec DEV fuel p st = Some (o, st') -> consistent st').
Proof.
  intros C.
  assert (Hcall : forall p, respects keepsConsistent (exec DEV fuel p))
    by (intros p; apply exec_keepsConsistent).
  split; [exact (proj1 C) |].
  split; [| split; [| split; [| split]]].
  - intros t ty ky o st' H.
    refine (respects_track keepsConsistent _ _ DEV _ Hcall _ t ty ky st o st' H C);
      unfold keepsConsistent; auto.
    intros a t' ky' st0 Ha. now apply consistent_tracked.
  - intros e. apply (consistent_cleanup e st C).
  - intros e o st' H. exact (run_keepsConsistent _ e Hcall st o st' H C).
  - intros e o st' H.
    refine (respects_stop keepsConsistent _ _ _ Hcall _ _ e st o st' H C);
      unfold keepsConsistent; auto.
    + intros e' st0. apply consistent_cleanup.
    + intros e' st0. apply consistent_deactivate.
  - intros p o st' H. exact (Hcall p st o st' H C).
Qed.

(** ** What [trigger] collects and dispatches *)

Lemma addRunners_spec st acc dep :
  partitioned st acc ->
  partitioned st (addRunners st acc (Some dep)) /\
  (forall x, In x (fst (addRunners st acc (Some dep))) <->
             In x (fst acc) \/ (In x dep /\ isComputed st x = false)) /\
  (forall x, In x (snd (addRunners st acc (Some dep))) <->
             In x (snd acc) \/ (In x dep /\ isComputed st x = true)).
Proof.
  simpl. revert acc. induction dep as [| e dep IH]; intros [effs comps] P; simpl.
  - split; [exact P |]. split; intros x; tauto.
  - destruct P as (N1 & N2 & P1 & P2). simpl in *.
    destruct (isComputed st e) eqn:Hc.
    + destruct (IH (effs, set_add e comps)) as (P' & F & S).
      { repeat split; simpl; auto using set_add_NoDup.
        intros x Hx. apply set_add_In in Hx as [-> | Hx]; auto. }
      split; [exact P' |]. split; intros x.
      * rewrite F. simpl. intuition (subst; congruence).
      * rewrite S. simpl. rewrite set_add_In. intuition (subst; auto).
    + destruct (IH (set_add e effs, comps)) as (P' & F & S).
      { repeat split; simpl; auto using set_add_NoDup.
        intros x Hx. apply set_add_In in Hx as [-> | Hx]; auto. }
      split; [exact P' |]. split; intros x.
      * rewrite F. simpl. rewrite set_add_In. intuition (subst; auto).
      * rewrite S. simpl. intuition (subst; congruence).
Qed.

(** Walking a list of [Dep] sets with [addRunners], in whatever order. *)
Lemma walk_spec st (walk : list (list effId)) acc :
  partitioned st acc ->
  let acc' := fold_left (fun acc dep => addRunners st acc (Some dep)) walk acc in
  partitioned st acc' /\
  (forall x, In x (fst acc') <->
             In x (fst acc) \/
             ((exists dep, In dep walk /\ In x dep) /\ isComputed st x = false)) /\
  (forall x, In x (snd acc') <->
             In x (snd acc) \/
             ((exists dep, In dep walk /\ In x dep) /\ isComputed st x = true)).
Proof.
  revert acc. induction walk as [| dep walk IH]; intros acc P; simpl.
  - split; [exact P |]. split; intros x; split; auto;
      intros [? | [(? & [] & _) _]]; assumption.
  - destruct (addRunners_spec st acc dep P) as (P1 & F1 & S1).
    destruct (IH _ P1) as (P2 & F2 & S2).
    split; [exact P2 |]. split; intros x.
    + rewrite F2, F1. split.
      * intros [[? | [? ?]] | [(d & ? & ?) ?]]; eauto 8.
      * intros [? | [(d & [<- | ?] & ?) ?]]; eauto 8.
    + rewrite S2, S1. split.
      * intros [[? | [? ?]] | [(d & ? & ?) ?]]; eauto 8.
      * intros [? | [(d & [<- | ?] & ?) ?]]; eauto 8.
Qed.

Lemma partitioned_nil st : partitioned st ([], []).
Proof. repeat split; simpl; try constructor; tauto. Qed.

Lemma collectRunners_walk st depsMap t ty ky :
  collectRunners st depsMap t ty ky =
  fold_left (fun acc dep => addRunners st acc (Some dep))
            (contributing depsMap t ty ky) ([], []).
Proof.
  assert (Hclear : forall acc,
            fold_left (fun acc '(_, dep) => addRunners st acc (Some dep))
                      depsMap acc =
            fold_left (fun acc dep => addRunners st acc (Some dep))
                      (map snd depsMap) acc).
  { induction depsMap as [| [k dep] m IH]; intros acc; [reflexivity |].
    simpl. apply IH. }
  unfold collectRunners, contributing.
  destruct ty; try apply Hclear;
    destruct (decide (ky = KUndefined));
    try destruct (map_get ky depsMap);
    try destruct (map_get (iterationKey t) depsMap); reflexivity.
Qed.

Lemma collectRunners_spec st depsMap t ty ky :
  let acc := collectRunners st depsMap t ty ky in
  partitioned st acc /\
  (forall x, In x (fst acc) <->
             (exists dep, In dep (contributing depsMap t ty ky) /\ In x dep) /\
             isComputed st x = false) /\
  (forall x, In x (snd acc) <->
             (exists dep, In dep (contributing depsMap t ty ky) /\ In x dep) /\
             isComputed st x = true).
Proof.
  simpl. rewrite collectRunners_walk.
  destruct (walk_spec st (contributing depsMap t ty ky) ([], [])
              (partitioned_nil st)) as (P & F & S).
  split; [exact P |]. split; intros x; [rewrite F | rewrite S]; simpl; tauto.
Qed.

Lemma forEach_app {A : Type} (f : A -> M unit) (l1 l2 : list A) st :
  (forEach f l1 ;;; forEach f l2) st = forEach f (l1 ++ l2) st.
Proof.
  revert st. induction l1 as [| x l1 IH]; intros st; simpl.
  - reflexivity.
  - unfold bind in *. destruct (f x st) as [[[[] | err] st1] |]; auto.
Qed.

(** [trigger] calls [scheduleRun] on the effects of [dispatched], one
    after the other in that order, until one raises. *)
Lemma trigger_dispatch DEV call t ty ky extraInfo st :
  trigger DEV call t ty ky extraInfo st =
  forEach (fun e => scheduleRun DEV call e t ty ky extraInfo)
          (dispatched st t ty ky) st.
Proof.
  unfold trigger, dispatched.
  destruct (map_get t (targetMap st)) as [depsMap |]; [| reflexivity].
  destruct (collectRunners st depsMap t ty ky) as [effects computedRunners].
  apply forEach_app.
Qed.

Lemma dispatched_In st t ty ky depsMap x :
  map_get t (targetMap st) = Some depsMap ->
  In x (dispatched st t ty ky) <->
  exists dep, In dep (contributing depsMap t ty ky) /\ In x dep.
Proof.
  intros Ht. unfold dispatched. rewrite Ht.
  destruct (collectRunners_spec st depsMap t ty ky) as (_ & F & S).
  destruct (collectRunners st depsMap t ty ky) as [effects computedRunners].
  simpl in *. rewrite in_app_iff, F, S.
  destruct (isComputed st x); intuition congruence.
Qed.

Lemma dispatched_NoDup st t ty ky : List.NoDup (dispatched st t ty ky).
Proof.
  unfold dispatched.
  destruct (map_get t (targetMap st)) as [depsMap |]; [| constructor].
  destruct (collectRunners_spec st depsMap t ty ky) as ((N1 & N2 & P1 & P2) & _).
  destruct (collectRunners st depsMap t ty ky) as [effects computedRunners].
  simpl in *. apply List.NoDup_app; [exact N2 | exact N1 |].
  intros x Hc He. apply P1 in He. apply P2 in Hc. congruence.
Qed.

Lemma members_depsMap st t depsMap ky :
  map_get t (targetMap st) = Some depsMap ->
  members (targetMap st) (t, ky) =
  match map_get ky depsMap with Some dep => dep | None => [] end.
Proof. intros Ht. unfold members. simpl. now rewrite Ht. Qed.

(** ** The claims about [trigger] *)

(** C3. In every call of [trigger] the computed effects collected are all
    dispatched, each to the end of its [scheduleRun], before the first
    plain effect is; if one of them raises, no plain effect is dispatched.
    [computedRunners] holds exactly the computed effects of the
    contributing [Dep] sets and [effects] exactly the plain ones, and they
    would hold the same effects had the sets been walked in any other
    order. *)
Theorem computed_effects_dispatched_first (DEV : bool)
    (call : prog -> M value) (t : target) (ty : TriggerOpTypes) (ky : key)
    (extraInfo : option nat) (st : state) (depsMap : list (key * list effId)) :
  map_get t (targetMap st) = Some depsMap ->
  let '(effects, computedRunners) := collectRunners st depsMap t ty ky in
  let dispatch := fun e => scheduleRun DEV call e t ty ky extraInfo in
  trigger DEV call t ty ky extraInfo st =
    match forEach dispatch computedRunners st with
    | Some (Normal _, st1) => forEach dispatch effects st1
    | Some (Thrown err, st1) => Some (Thrown err, st1)
    | None => None
    end /\
  (forall e, In e computedRunners <->
     (exists dep, In dep (contributing depsMap t ty ky) /\ In e dep) /\
     isComputed st e = true) /\
  (forall e, In e effects <->
     (exists dep, In dep (contributing depsMap t ty ky) /\ In e dep) /\
     isComputed st e = false) /\
  (forall walk, Permutation walk (contributing depsMap t ty ky) ->
     let '(effects', computedRunners') :=
       fold_left (fun acc dep => addRunners st acc (Some dep)) walk ([], []) in
     (forall e, In e computedRunners' <-> In e computedRunners) /\
     (forall e, In e effects' <-> In e effects)).
Proof.
  intros Ht.
  destruct (collectRunners_spec st depsMap t ty ky) as (_ & F & S).
  assert (Htr : forall effects computedRunners,
            collectRunners st depsMap t ty ky = (effects, computedRunners) ->
            trigger DEV call t ty ky extraInfo st =
            bind (forEach (fun e => scheduleRun DEV call e t ty ky extraInfo)
                          computedRunners)
                 (fun _ => forEach (fun e => scheduleRun DEV call e t ty ky
                                              extraInfo) effects) st).
  { intros effects computedRunners Hc. unfold trigger. now rewrite Ht, Hc. }
  destruct (collectRunners st depsMap t ty ky) as [effects computedRunners].
  simpl in F, S. split; [| split; [exact S | split; [exact F |]]].
  - rewrite (Htr _ _ eq_refl). unfold bind.
    destruct (forEach _ computedRunners st) as [[[[] | err] st1] |]; reflexivity.
  - intros walk Hperm.
    destruct (walk_spec st walk ([], []) (partitioned_nil st)) as (_ & F' & S').
    destruct (fold_left _ walk ([], [])) as [effects' computedRunners'].
    simpl in F', S'.
    assert (Hsame : forall x,
              (exists dep, In dep walk /\ In x dep) <->
              (exists dep, In dep (contributing depsMap t ty ky) /\ In x dep)).
    { intros x. split; intros (dep & Hd & Hx); exists dep; split; auto.
      - eapply Permutation_in; eauto.
      - eapply Permutation_in; [symmetry |]; eauto. }
    split; intros e; [rewrite S', S | rewrite F', F]; rewrite Hsame; tauto.
Qed.

(** The record agrees with the loop. *)
Lemma forEachLog_result {A : Type} (f : A -> M unit) (l : list A) st :
  snd (forEachLog f l st) = forEach f l st.
Proof.
  revert st. induction l as [| x l IH]; intros st; simpl; [reflexivity |].
  unfold bind. destruct (f x st) as [[[[] | err] st1] |]; try reflexivity.
  rewrite <- IH. now destruct (forEachLog f l st1).
Qed.

Lemma forEachLog_app {A : Type} (f : A -> M unit) (l1 l2 : list A) st :
  forEachLog f (l1 ++ l2) st =
  match forEachLog f l1 st with
  | (log1, Some (Normal _, st1)) =>
    let '(log2, r) := forEachLog f l2 st1 in (log1 ++ log2, r)
  | (log1, r) => (log1, r)
  end.
Proof.
  revert st. induction l1 as [| x l1 IH]; intros st; simpl.
  - now destruct (forEachLog f l2 st).
  - destruct (f x st) as [[[[] | err] st1] |]; try reflexivity.
    rewrite IH. destruct (forEachLog f l1 st1) as [log1 [[[[] | err] st2] |]];
      try reflexivity.
    now destruct (forEachLog f l2 st2).
Qed.

(** The calls made are a prefix of the list walked, all of it when the
    loop returns. *)
Lemma forEachLog_prefix {A : Type} (f : A -> M unit) (l : list A) st :
  exists rest, l = fst (forEachLog f l st) ++ rest.
Proof.
  revert st. induction l as [| x l IH]; intros st; simpl; [now exists [] |].
  destruct (f x st) as [[[[] | err] st1] |]; try (now exists l).
  destruct (IH st1) as (rest & Hrest).
  destruct (forEachLog f l st1) as [log r]. simpl in *.
  exists rest. now rewrite <- Hrest.
Qed.

Lemma forEachLog_normal {A : Type} (f : A -> M unit) (l : list A) st st' :
  snd (forEachLog f l st) = Some (Normal tt, st') ->
  fst (forEachLog f l st) = l.
Proof.
  revert st. induction l as [| x l IH]; intros st; simpl; [reflexivity |].
  destruct (f x st) as [[[[] | err] st1] |]; try discriminate.
  specialize (IH st1). destruct (forEachLog f l st1) as [log r]. simpl in *.
  intros H. now rewrite (IH H).
Qed.

(** An element is called exactly when every call before it returned. *)
Lemma forEachLog_In {A : Type} (f : A -> M unit) (l : list A) st x :
  In x (fst (forEachLog f l st)) <->
  exists before after st1,
    l = before ++ x :: after /\ forEach f before st = Some (Normal tt, st1).
Proof.
  revert st. induction l as [| y l IH]; intros st; simpl.
  - split; [intros [] |]. intros (before & after & st1 & H & _).
    now destruct before.
  - split.
    + intros Hin.
      assert (Hcase : y = x \/
                exists st', f y st = Some (Normal tt, st') /\
                            In x (fst (forEachLog f l st'))).
      { destruct (f y st) as [[[[] | err] st1] |]; simpl in Hin;
          try (destruct Hin as [-> | []]; now left).
        destruct (forEachLog f l st1) as [log r] eqn:E. simpl in Hin.
        destruct Hin as [-> | Hin]; [now left |]. right. exists st1.
        split; [reflexivity |]. now rewrite E. }
      destruct Hcase as [-> | (st' & Hy & Hin')].
      * exists [], l, st. now split.
      * apply IH in Hin' as (before & after & st1 & -> & Hb).
        exists (y :: before), after, st1. split; [reflexivity |].
        simpl. unfold bind. now rewrite Hy.
    + intros (before & after & st1 & Hl & Hb).
      destruct before as [| z before]; simpl in Hl; injection Hl as -> ->.
      * destruct (f x st) as [[[[] | err] st2] |]; try (now left).
        destruct (forEachLog f after st2). now left.
      * simpl in Hb. unfold bind in Hb.
        destruct (f z st) as [[[[] | err] st2] |]; try discriminate.
        assert (Hin : In x (fst (forEachLog f (before ++ x :: after) st2)))
          by (apply IH; eauto).
        destruct (forEachLog f (before ++ x :: after) st2). now right.
Qed.

(** [triggerLog] walks [dispatched], and returns what [trigger] does. *)
Lemma triggerLog_dispatch DEV call t ty ky extraInfo st :
  triggerLog DEV call t ty ky extraInfo st =
  forEachLog (fun e => scheduleRun DEV call e t ty ky extraInfo)
             (dispatched st t ty ky) st.
Proof.
  unfold triggerLog, dispatched.
  destruct (map_get t (targetMap st)) as [depsMap |]; [| reflexivity].
  destruct (collectRunners st depsMap t ty ky) as [effects computedRunners].
  now rewrite forEachLog_app.
Qed.

(** C4, as the code has it. For an effect that belongs to one or to
    several of the [Dep] sets contributing to a [trigger], that call of
    [trigger] calls [scheduleRun] at most once, never once for each
    contributing [Dep]; it calls it exactly once when [trigger] returns,
    and more generally exactly when each of the effects walked before it
    returned from its [scheduleRun]. [triggerLog] is [trigger] together
    with the record of those calls. *)
Theorem effect_scheduled_at_most_once (DEV : bool) (call : prog -> M value)
    (t : target) (ty : TriggerOpTypes) (ky : key) (extraInfo : option nat)
    (st : state) (depsMap : list (key * list effId)) (e : effId) :
  map_get t (targetMap st) = Some depsMap ->
  (exists dep, In dep (contributing depsMap t ty ky) /\ In e dep) ->
  let '(log, result) := triggerLog DEV call t ty ky extraInfo st in
  result = trigger DEV call t ty ky extraInfo st /\
  count_occ Nat.eq_dec log e <= 1 /\
  (forall st', result = Some (Normal tt, st') ->
               count_occ Nat.eq_dec log e = 1) /\
  (count_occ Nat.eq_dec log e = 1 <->
   exists before after st1,
     dispatched st t ty ky = before ++ e :: after /\
     forEach (fun x => scheduleRun DEV call x t ty ky extraInfo) before st
       = Some (Normal tt, st1)).
Proof.
  intros Ht Hin. rewrite triggerLog_dispatch, trigger_dispatch.
  set (f := fun x => scheduleRun DEV call x t ty ky extraInfo).
  pose proof (forEachLog_result f (dispatched st t ty ky) st) as Hres.
  pose proof (forEachLog_normal f (dispatched st t ty ky) st) as Hnormal.
  pose proof (forEachLog_In f (dispatched st t ty ky) st e) as Hcalled.
  destruct (forEachLog_prefix f (dispatched st t ty ky) st) as (rest & Hpre).
  destruct (forEachLog f (dispatched st t ty ky) st) as [log result].
  simpl in *.
  assert (Hnd : List.NoDup log).
  { pose proof (dispatched_NoDup st t ty ky) as H. rewrite Hpre in H.
    now apply NoDup_app_remove_r in H. }
  assert (Hone : In e log <-> count_occ Nat.eq_dec log e = 1).
  { split.
    - apply (proj1 (NoDup_count_occ' Nat.eq_dec log) Hnd).
    - intros H. apply (count_occ_In Nat.eq_dec). lia. }
  split; [exact Hres |]. split; [| split].
  - apply (proj1 (NoDup_count_occ Nat.eq_dec log) Hnd).
  - intros st' Hr. apply Hone. rewrite (Hnormal st') by (now rewrite Hres, <- Hr).
    now apply (dispatched_In st t ty ky depsMap e Ht).
  - rewrite <- Hone. exact Hcalled.
Qed.

(** C5. The iteration dependency of a target is the [Dep] of ['length']
    when the target is an array and of [ITERATE_KEY] otherwise. A trigger
    of kind [ADD] or [DELETE] dispatches every member of it; a trigger of
    kind [SET] dispatches members of the [Dep] of the written key only, so
    an effect that holds the iteration dependency and not the written key
    is not notified. *)
Theorem iteration_dependency_contributes (st : state) (t : target) (ky : key) :
  iterationKey t = (if isArray t then KString "length" else ITERATE_KEY) /\
  (forall ty e,
     ty = ADD \/ ty = DELETE ->
     In e (members (targetMap st) (t, iterationKey t)) ->
     In e (dispatched st t ty ky)) /\
  (forall e,
     In e (dispatched st t SET ky) ->
     ky <> KUndefined /\ In e (members (targetMap st) (t, ky))) /\
  (forall e,
     In e (members (targetMap st) (t, iterationKey t)) ->
     ~ In e (members (targetMap st) (t, ky)) ->
     ~ In e (dispatched st t SET ky)) /\
  (forall DEV call ty extraInfo,
     trigger DEV call t ty ky extraInfo st =
     forEach (fun e => scheduleRun DEV call e t ty ky extraInfo)
             (dispatched st t ty ky) st).
Proof.
  split; [reflexivity |].
  assert (Hset : forall e,
            In e (dispatched st t SET ky) ->
            ky <> KUndefined /\ In e (members (targetMap st) (t, ky))).
  { intros e Hin. destruct (map_get t (targetMap st)) as [depsMap |] eqn:Ht.
    - rewrite (dispatched_In st t SET ky depsMap e Ht) in Hin.
      rewrite (members_depsMap st t depsMap ky Ht).
      destruct Hin as (dep & Hdep & He). unfold contributing in Hdep.
      rewrite app_nil_r in Hdep.
      destruct (decide (ky = KUndefined)); [destruct Hdep |].
      split; [assumption |].
      destruct (map_get ky depsMap); [| destruct Hdep].
      destruct Hdep as [<- | []]. exact He.
    - unfold dispatched in Hin. rewrite Ht in Hin. destruct Hin. }
  split; [| split; [exact Hset | split]].
  - intros ty e Hty Hin.
    destruct (map_get t (targetMap st)) as [depsMap |] eqn:Ht.
    + rewrite (members_depsMap st t depsMap _ Ht) in Hin.
      apply (dispatched_In st t ty ky depsMap e Ht).
      destruct (map_get (iterationKey t) depsMap) as [dep |] eqn:Hit;
        [| destruct Hin].
      exists dep. split; [| exact Hin].
      unfold contributing. destruct Hty as [-> | ->];
        rewrite Hit; apply in_app_iff; right; now left.
    + unfold members in Hin. simpl in Hin. rewrite Ht in Hin. destruct Hin.
  - intros e _ Hnot Hin. apply Hset in Hin. tauto.
  - intros DEV call ty extraInfo. apply trigger_dispatch.
Qed.

(** ** The claims on concrete programs *)

Lemma reentrant_invocation_skipped_witness :
  run (exec false 5) 0 running = Some (Normal VUndefined, running).
Proof.
  exact (proj1 (reentrant_invocation_skipped false (exec false 5) 0
                  (mkEffect true (increment (Return VUndefined)) [] noOptions)
                  running eq_refl eq_refl (or_introl eq_refl))).
Defined.

(** C2, refuted as stated. The effect of [stoppedWhileRunning] is on the
    execution stack, and invoking it again executes its body and returns
    7: it has been stopped, and [run] tests [active] before it looks at
    the stack. The state arises in the program that creates the
    [selfStopping] effect and calls it: the call the body makes to itself
    is executed, and its result, not [undefined], is what the outer call
    returns. Likewise one call of the [selfStoppingWriter] effect, whose
    own write retriggers it, enters its body four times, each inside the
    previous one (the variable counts three writes). *)
Lemma stopped_effect_on_stack_runs_again :
  In 0 (effectStack stoppedWhileRunning) /\
  run (exec false 3) 0 stoppedWhileRunning =
    Some (Normal (VNumber 7), stoppedWhileRunning) /\
  option_map fst
    (exec false 12
       (MakeEffect (inl selfStopping) lazyOptions
          (fun e => Invoke e (fun v => Return v))) init) =
    Some (Normal (VNumber 7)) /\
  option_map (fun r => var (snd r))
    (exec false 40
       (MakeEffect (inl selfStoppingWriter) lazyOptions
          (fun e => Invoke e (fun v => Return v))) init) =
    Some 3.
Proof. split; [now left |]. repeat split; reflexivity. Qed.

(** The re-entrancy guard on a program: the effect reads [obj.k] and
    writes it. Created (first run) and triggered once from outside, its
    body has run twice in all, once for each outer invocation. *)
Example self_triggering_runs_once_per_invocation :
  option_map (fun r => var (snd r))
    (exec false 40
       (MakeEffect (inl selfTriggering) noOptions
          (fun _ => Trigger obj SET (KString "k") None (Return VUndefined)))
       init) = Some 2.
Proof. reflexivity. Qed.

Lemma run_unwinds_on_every_exit_witness :
  run (exec false 1) 1 aboutToFail =
    Some (Thrown 5, leave (enter 1 (cleanup 1 aboutToFail))) /\
  effectStack (leave (enter 1 (cleanup 1 aboutToFail))) = [0] /\
  activeEffect (leave (enter 1 (cleanup 1 aboutToFail))) = Some 0.
Proof.
  apply (run_unwinds_on_every_exit false 1 1 failing aboutToFail (Thrown 5)
           (enter 1 (cleanup 1 aboutToFail))); try reflexivity.
  simpl. intros [H | []]. discriminate H.
Defined.

(** After an effect has failed, tracking goes on as before: the caller
    catches the failure of a first effect, and a second effect created
    afterwards subscribes to what it reads and is the only member of that
    [Dep]. *)
Example tracking_intact_after_failure :
  option_map
    (fun r => (targetMap (snd r), effectStack (snd r), activeEffect (snd r)))
    (exec false 20
       (Catch (MakeEffect (inl (Throw 5)) noOptions (fun _ => Return VUndefined))
          (fun _ =>
             MakeEffect (inl (Track obj GET (KString "k") (Return VUndefined)))
               noOptions (fun _ => Return VUndefined)))
       init) = Some ([(obj, [(KString "k", [1])])], [], None).
Proof. reflexivity. Qed.

Lemma bidirectional_bookkeeping_preserved_witness :
  consistent init /\
  (forall o st', exec false 40 subscribe init = Some (o, st') -> consistent st').
Proof.
  split; [exact consistent_init |].
  exact (proj2 (proj2 (proj2 (proj2 (proj2
           (bidirectional_bookkeeping_preserved false 40 init consistent_init)))))
           subscribe).
Defined.

Lemma computed_effects_dispatched_first_witness :
  map_get obj (targetMap subscribed) =
    Some [(KString "k", [0; 1; 2]); (ITERATE_KEY, [0; 3])] /\
  (forall e, In e [1] <->
     (exists dep,
        In dep (contributing [(KString "k", [0; 1; 2]); (ITERATE_KEY, [0; 3])]
                  obj SET (KString "k")) /\ In e dep) /\
     isComputed subscribed e = true).
Proof.
  split; [reflexivity |].
  exact (proj1 (proj2
           (computed_effects_dispatched_first false (exec false 1) obj SET
              (KString "k") None subscribed
              [(KString "k", [0; 1; 2]); (ITERATE_KEY, [0; 3])] eq_refl))).
Defined.

(** The order of a dispatch: effect 1, computed, subscribed to [obj.k]
    after effect 0 and is dispatched before it. *)
Example dispatch_order :
  dispatched subscribed obj SET (KString "k") = [1; 0; 2].
Proof. reflexivity. Qed.

Lemma effect_scheduled_at_most_once_witness :
  (exists dep,
     In dep (contributing [(KString "k", [0; 1; 2]); (ITERATE_KEY, [0; 3])]
               obj ADD (KString "k")) /\ In 0 dep) /\
  count_occ Nat.eq_dec
    (fst (triggerLog false (exec false 20) obj ADD (KString "k") None
            subscribed)) 0 <= 1.
Proof.
  assert (H : exists dep,
             In dep (contributing
                       [(KString "k", [0; 1; 2]); (ITERATE_KEY, [0; 3])]
                       obj ADD (KString "k")) /\ In 0 dep)
    by (exists [0; 1; 2]; split; now left).
  split; [exact H |].
  pose proof (effect_scheduled_at_most_once false (exec false 20) obj ADD
                (KString "k") None subscribed
                [(KString "k", [0; 1; 2]); (ITERATE_KEY, [0; 3])] 0
                eq_refl H) as T.
  destruct (triggerLog false (exec false 20) obj ADD (KString "k") None
              subscribed) as [log result].
  exact (proj1 (proj2 T)).
Defined.

(** C4, refuted as stated. Effect 1 is a member of both [Dep] sets that
    contribute to an [ADD] of [obj.k]; effect 0, walked before it, raises
    from its [scheduleRun]. The exception leaves [trigger], which has
    called [scheduleRun] on effect 0 only: effect 1 is not scheduled at
    all for that call, and the count of its runs is what it was. *)
Lemma earlier_failure_leaves_effect_unscheduled :
  map_get obj (targetMap failingFirst)
    = Some [(KString "k", [0; 1]); (ITERATE_KEY, [1])] /\
  contributing [(KString "k", [0; 1]); (ITERATE_KEY, [1])] obj ADD (KString "k")
    = [[0; 1]; [1]] /\
  fst (triggerLog false (exec false 20) obj ADD (KString "k") None failingFirst)
    = [0] /\
  count_occ Nat.eq_dec
    (fst (triggerLog false (exec false 20) obj ADD (KString "k") None
            failingFirst)) 1 = 0 /\
  option_map (fun r => (fst r, var (snd r)))
    (trigger false (exec false 20) obj ADD (KString "k") None failingFirst)
    = Some (Thrown 9, var failingFirst).
Proof. vm_compute. repeat split; reflexivity. Qed.

(** Effect 0 is a member of both contributing sets of an [ADD] of
    [obj.k] and runs once; effect 3 only iterates [obj]: an [ADD] of a new
    key notifies it, a [SET] of [obj.k] does not. *)
Example dispatch_of_add_and_set :
  dispatched subscribed obj ADD (KString "k") = [1; 0; 2; 3] /\
  dispatched subscribed obj ADD (KString "new") = [0; 3] /\
  dispatched subscribed obj DELETE (KString "k") = [1; 0; 2; 3] /\
  dispatched subscribed obj SET (KString "k") = [1; 0; 2] /\
  var subscribed = 4 /\
  var (stateAfter (Trigger obj ADD (KString "k") None (Return VUndefined))
         subscribed) = 8.
Proof. repeat split; reflexivity. Qed.

End EffectFacts.

(* ===================================================================== *)
(** * Part V: further properties of the identity registry *)
(* ===================================================================== *)

Module RegistryLaws.
Import Reactive ReactiveFacts.

Section Laws.

Variable DEV : bool.

(** ** Every reachable state is coherent *)

Lemma coherent_frame st st' :
  coherent st ->
  (forall d, toRawMap d st' = toRawMap d st) ->
  (exists l, heap st' = heap st ++ l /\ forall ob, ob ∈ l -> proxyOf ob = None) ->
  (forall i, i ∈ readonlyValues st' \/ i ∈ nonReactiveValues st' ->
             i < length (heap st')) ->
  coherent st'.
Proof.
  intros [Hh Hs Hm] HR (l & HH & Hl) Hmarks. split.
  - intros d p o. rewrite HR, HH. intros H.
    destruct (Hh _ _ _ H) as (ob & h & Hob & Hpx & Hd).
    exists ob, h. split; [| auto].
    rewrite lookup_app_l; [exact Hob | eapply lookup_lt_Some; eauto].
  - intros p ob o h. rewrite HH. intros Hob Hpx.
    apply lookup_app_Some in Hob as [Hob | [_ Hob]].
    + destruct (Hs _ _ _ _ Hob Hpx) as (ob' & Hob' & Hrest).
      exists ob'. split; [| exact Hrest].
      rewrite lookup_app_l; [exact Hob' | eapply lookup_lt_Some; eauto].
    + apply list_elem_of_lookup_2 in Hob. apply Hl in Hob. congruence.
  - exact Hmarks.
Qed.

Lemma coherent_init : coherent init.
Proof.
  split.
  - intros [] p o H; simpl in H; now rewrite lookup_empty in H.
  - intros p ob o h H. simpl in H. now rewrite lookup_nil in H.
  - intros i [H | H]; simpl in H; now apply not_elem_of_empty in H.
Qed.

Lemma coherent_register st d t ob h :
  wf st -> coherent st -> heap st !! t = Some ob ->
  handlerDirection h = d ->
  coherent (register d t (length (heap st)) (newProxy t ob h) st).
Proof.
  intros W [Hh Hs Hm] Hob Hdir. split.
  - intros d' p o H. rewrite toRawMap_register in H. rewrite heap_register.
    case_decide as Hd.
    + destruct Hd as [-> ->]. injection H as <-.
      eexists _, _. split; [apply heap_lookup_snoc_new |]. now split.
    + destruct (Hh _ _ _ H) as (ob' & h' & Hob' & Hrest).
      exists ob', h'. split; [now apply heap_lookup_snoc_old | exact Hrest].
  - intros p ob' o h'. rewrite heap_register. intros Hob' Hpx.
    apply heap_lookup_snoc_inv in Hob' as [[Hlt Hob'] | [-> ->]].
    + destruct (Hs _ _ _ _ Hob' Hpx) as (ob'' & Hob'' & Hrest).
      exists ob''. split; [now apply heap_lookup_snoc_old | exact Hrest].
    + simpl in Hpx. injection Hpx as <- <-. exists ob.
      split; [now apply heap_lookup_snoc_old |]. simpl.
      repeat split. eapply heap_lookup_lt; eauto.
  - intros i Hi. rewrite heap_register, length_app. simpl.
    assert (i < length (heap st)); [| lia].
    apply Hm. now destruct d.
Qed.

Lemma coherent_createReactiveObject target d base coll st :
  wf st -> coherent st ->
  handlerDirection base = d -> handlerDirection coll = d ->
  coherent (snd (createReactiveObject DEV target d base coll st)).
Proof.
  intros W C Hb Hc.
  destruct (createReactiveObject_outcome DEV target d base coll st)
    as [? | ? ? -> | ? ? -> | ? -> | t ob -> Hob Hcall Hp Hr Hcan]; simpl;
    try exact C.
  - destruct DEV; [| exact C]. destruct C as [Hh Hs Hm]. now split.
  - apply coherent_register; auto. now destruct (collectionTypes_has (ctor ob)).
Qed.

Lemma coherent_reactive v st :
  wf st -> coherent st -> coherent (snd (reactive DEV v st)).
Proof.
  intros W C. unfold reactive, readonly.
  destruct (wm_has (readonlyToRaw st) v); [exact C |].
  destruct (ws_has (readonlyValues st) v);
    now apply coherent_createReactiveObject.
Qed.

Lemma apiStep_wf st st' : wf st -> apiStep DEV st st' -> wf st'.
Proof.
  intros W S. revert W.
  destruct S as [st0 ob Hraw | st0 v _ | st0 v _ | st0 v _
                 | st0 v w st1 _ Hm | st0 v w st1 _ Hm]; intros W.
  - now apply wf_allocObject.
  - now apply wf_reactive.
  - now apply wf_readonly.
  - now apply wf_shallowReadonly.
  - destruct v; try discriminate Hm. injection Hm as _ <-. now apply wf_marks.
  - destruct v; try discriminate Hm. injection Hm as _ <-. now apply wf_marks.
Qed.

Lemma apiStep_coherent st st' :
  wf st -> coherent st -> apiStep DEV st st' -> coherent st'.
Proof.
  intros W C S. revert W C.
  destruct S as [st0 ob Hraw | st0 v _ | st0 v _ | st0 v _
                 | st0 v w st1 Hl Hm | st0 v w st1 Hl Hm]; intros W C.
  - apply (coherent_frame st0 _ C).
    + now intros [].
    + exists [ob]. split; [reflexivity |].
      intros ob' Hin. apply list_elem_of_singleton in Hin. now subst.
    + intros i Hi. simpl. rewrite length_app. simpl.
      assert (i < length (heap st0)); [| lia]. now apply (co_marks _ C).
  - now apply coherent_reactive.
  - unfold readonly. now apply coherent_createReactiveObject.
  - unfold shallowReadonly. now apply coherent_createReactiveObject.
  - destruct v as [| | | | | i0]; try discriminate Hm. injection Hm as _ <-.
    destruct C as [Hh Hs Hmk]. split; auto. simpl. intros i [Hi | Hi].
    + apply elem_of_union in Hi as [Hi | Hi]; [| now apply Hmk; left].
      apply elem_of_singleton in Hi. now subst.
    + apply Hmk. now right.
  - destruct v as [| | | | | i0]; try discriminate Hm. injection Hm as _ <-.
    destruct C as [Hh Hs Hmk]. split; auto. simpl. intros i [Hi | Hi].
    + apply Hmk. now left.
    + apply elem_of_union in Hi as [Hi | Hi]; [| now apply Hmk; right].
      apply elem_of_singleton in Hi. now subst.
Qed.

Lemma evolves_reachable st st' :
  reachable DEV st -> evolves DEV st st' -> reachable DEV st'.
Proof.
  intros R E. induction E as [| st0 st1 st2 _ IH S]; [exact R |].
  specialize (IH R). destruct S.
  - now apply reach_alloc.
  - now apply reach_reactive.
  - now apply reach_readonly.
  - now apply reach_shallowReadonly.
  - eapply reach_markReadonly; eauto.
  - eapply reach_markNonReactive; eauto.
Qed.

Lemma evolves_coherent st st' :
  wf st -> coherent st -> evolves DEV st st' -> wf st' /\ coherent st'.
Proof.
  intros W C E. induction E as [| st0 st1 st2 _ IH S]; [now split |].
  destruct (IH W C) as [W1 C1].
  split; [eapply apiStep_wf | eapply apiStep_coherent]; eauto.
Qed.

(** ** Assigning the marker properties keeps the state coherent *)

Lemma rootOf_fuel (h : list object) :
  (forall p ob t hd, h !! p = Some ob -> proxyOf ob = Some (t, hd) -> t < p) ->
  forall n m i, i < n -> i < m -> rootOf h n i = rootOf h m i.
Proof.
  intros Hlt. induction n as [| n IH]; intros m i Hn Hm; [lia |].
  destruct m as [| m]; [lia |]. simpl.
  destruct (h !! i) as [ob |] eqn:Hob; [| reflexivity].
  destruct (proxyOf ob) as [[t hd] |] eqn:Hpx; [| reflexivity].
  pose proof (Hlt _ _ _ _ Hob Hpx). apply IH; lia.
Qed.

(** A proxy and its target have the same raw object at the end of their
    chains. *)
Lemma rootOf_proxy (h : list object) p ob t hd :
  (forall p ob t hd, h !! p = Some ob -> proxyOf ob = Some (t, hd) -> t < p) ->
  h !! p = Some ob -> proxyOf ob = Some (t, hd) ->
  rootOf h (length h) p = rootOf h (length h) t.
Proof.
  intros Hlt Hob Hpx. pose proof (Hlt _ _ _ _ Hob Hpx) as Htp.
  pose proof (lookup_lt_Some _ _ _ Hob) as Hp.
  destruct (length h) as [| n] eqn:Hn; [lia |].
  transitivity (rootOf h n t).
  - simpl. now rewrite Hob, Hpx.
  - apply rootOf_fuel; [exact Hlt | lia | lia].
Qed.

Lemma coherent_writeMarkers st o a b :
  coherent st -> coherent (writeMarkers o a b st).
Proof.
  intros [Hh Hs Hm]. split.
  - intros d p x. rewrite toRawMap_writeMarkers. intros H.
    destruct (Hh _ _ _ H) as (ob & h & Hob & Hpx & Hd).
    destruct (writeMarkers_old st o a b _ _ Hob) as (ob' & Hob' & _ & _ & _ & Hq).
    exists ob', h. split; [exact Hob' |]. split; [congruence | exact Hd].
  - intros p ob1 t h Hob1 Hpx1.
    assert (Hlt : forall p ob t hd,
               heap st !! p = Some ob -> proxyOf ob = Some (t, hd) -> t < p).
    { intros p0 ob0 t0 hd0 H0 H0'.
      destruct (Hs _ _ _ _ H0 H0') as (_ & _ & _ & _ & Hl & _). exact Hl. }
    rewrite writeMarkers_lookup in Hob1.
    destruct (heap st !! p) as [ob |] eqn:Hob; [| discriminate].
    simpl in Hob1. injection Hob1 as <-.
    assert (Hpx : proxyOf ob = Some (t, h)) by (now case_decide).
    clear Hpx1.
    destruct (Hs _ _ _ _ Hob Hpx) as (ob' & Hob' & Hty & Hct & Htp & Hv & Hn).
    rewrite (rootOf_proxy _ _ _ _ _ Hlt Hob Hpx).
    eexists. split; [rewrite writeMarkers_lookup, Hob'; reflexivity |].
    case_decide; simpl; repeat split; auto.
  - intros i Hi. rewrite writeMarkers_length. now apply Hm.
Qed.

Lemma reachable_coherent st : reachable DEV st -> coherent st.
Proof.
  induction 1 as [| st ob R IH Hraw | st o ob vue vnode R IH _ _
                  | st v R IH Hl | st v R IH Hl | st v R IH Hl
                  | st v w st' R IH Hl Hm | st v w st' R IH Hl Hm].
  - exact coherent_init.
  - apply (apiStep_coherent st _ (reachable_wf _ _ R) IH). now constructor.
  - now apply coherent_writeMarkers.
  - apply (apiStep_coherent st _ (reachable_wf _ _ R) IH). now constructor.
  - apply (apiStep_coherent st _ (reachable_wf _ _ R) IH). now constructor.
  - apply (apiStep_coherent st _ (reachable_wf _ _ R) IH). now constructor.
  - apply (apiStep_coherent st _ (reachable_wf _ _ R) IH).
    eapply step_markReadonly; eauto.
  - apply (apiStep_coherent st _ (reachable_wf _ _ R) IH).
    eapply step_markNonReactive; eauto.
Qed.

(** ** What a step keeps *)

Lemma createReactiveObject_keeps target d base coll st :
  wf st ->
  let st' := snd (createReactiveObject DEV target d base coll st) in
  (forall d' o p, toProxy d' st !! o = Some p -> toProxy d' st' !! o = Some p) /\
  (forall d' p o, toRawMap d' st !! p = Some o -> toRawMap d' st' !! p = Some o) /\
  (forall i ob, heap st !! i = Some ob -> heap st' !! i = Some ob) /\
  readonlyValues st' = readonlyValues st /\
  nonReactiveValues st' = nonReactiveValues st.
Proof.
  intros W.
  destruct (createReactiveObject_outcome DEV target d base coll st)
    as [? | ? ? -> | ? ? -> | ? -> | t ob -> Hob Hcall Hp Hr Hcan]; simpl;
    try (repeat split; auto; fail).
  - destruct DEV; repeat split; auto.
  - split; [| split; [| split; [| split]]].
    + intros d' o p H. rewrite toProxy_register.
      case_decide as Hd; [| exact H]. destruct Hd as [-> ->]. congruence.
    + intros d' p o H. rewrite toRawMap_register.
      case_decide as Hd; [| exact H]. destruct Hd as [-> ->].
      apply (wf_toRaw_lt _ _ _ _ W) in H. lia.
    + intros i ob' H. rewrite heap_register. now apply heap_lookup_snoc_old.
    + now destruct d.
    + now destruct d.
Qed.

Lemma apiStep_keeps st st' :
  wf st -> apiStep DEV st st' ->
  (forall d o p, toProxy d st !! o = Some p -> toProxy d st' !! o = Some p) /\
  (forall d p o, toRawMap d st !! p = Some o -> toRawMap d st' !! p = Some o) /\
  (forall i ob, heap st !! i = Some ob -> heap st' !! i = Some ob) /\
  readonlyValues st ⊆ readonlyValues st' /\
  nonReactiveValues st ⊆ nonReactiveValues st'.
Proof.
  intros W S. revert W.
  destruct S as [st0 ob Hraw | st0 v _ | st0 v _ | st0 v _
                 | st0 v w st1 _ Hm | st0 v w st1 _ Hm]; intros W.
  - repeat split; try (now intros []); try set_solver.
    intros i ob' H. simpl. now apply heap_lookup_snoc_old.
  - unfold reactive, readonly.
    destruct (wm_has (readonlyToRaw st0) v); [repeat split; auto |].
    destruct (ws_has (readonlyValues st0) v);
      match goal with
      | |- context [createReactiveObject DEV ?t ?d ?b ?c st0] =>
        destruct (createReactiveObject_keeps t d b c st0 W)
          as (H1 & H2 & H3 & H4 & H5)
      end; simpl in *; rewrite H4, H5; repeat split; auto.
  - unfold readonly.
    match goal with
    | |- context [createReactiveObject DEV ?t ?d ?b ?c st0] =>
      destruct (createReactiveObject_keeps t d b c st0 W)
        as (H1 & H2 & H3 & H4 & H5)
    end; simpl in *; rewrite H4, H5; repeat split; auto.
  - unfold shallowReadonly.
    match goal with
    | |- context [createReactiveObject DEV ?t ?d ?b ?c st0] =>
      destruct (createReactiveObject_keeps t d b c st0 W)
        as (H1 & H2 & H3 & H4 & H5)
    end; simpl in *; rewrite H4, H5; repeat split; auto.
  - destruct v; try discriminate Hm. injection Hm as _ <-.
    repeat split; try (now intros []); simpl; set_solver.
  - destruct v; try discriminate Hm. injection Hm as _ <-.
    repeat split; try (now intros []); simpl; set_solver.
Qed.

Lemma evolves_keeps st st' :
  wf st -> coherent st -> evolves DEV st st' ->
  (forall d o p, toProxy d st !! o = Some p -> toProxy d st' !! o = Some p) /\
  (forall d p o, toRawMap d st !! p = Some o -> toRawMap d st' !! p = Some o) /\
  (forall i ob, heap st !! i = Some ob -> heap st' !! i = Some ob) /\
  readonlyValues st ⊆ readonlyValues st' /\
  nonReactiveValues st ⊆ nonReactiveValues st'.
Proof.
  intros W C E. induction E as [| st0 st1 st2 E IH S]; [repeat split; auto |].
  destruct (IH W C) as (H1 & H2 & H3 & H4 & H5).
  destruct (evolves_coherent _ _ W C E) as [W1 _].
  destruct (apiStep_keeps _ _ W1 S) as (K1 & K2 & K3 & K4 & K5).
  repeat split; auto; etransitivity; eassumption.
Qed.

(** ** Wrappers and raw objects *)

Lemma wrapper_is_object st d p o :
  wf st -> toRawMap d st !! p = Some o -> isObject st (VRef p) = true.
Proof.
  intros W H. destruct (wf_bwd _ W _ _ _ H) as (_ & ob & h & Hob & Hpx).
  destruct (wf_proxy _ W _ _ _ _ Hob Hpx) as (_ & Hcall).
  simpl. now rewrite Hob, Hcall.
Qed.

Lemma wrapped_is_object st d o p :
  wf st -> toProxy d st !! o = Some p -> isObject st (VRef o) = true.
Proof.
  intros W H. destruct (wf_wrapped _ W _ _ _ H) as (ob & Hob & Hcall).
  simpl. now rewrite Hob, Hcall.
Qed.

(** Wrapping a wrapper again in its own direction gives it back. *)
Lemma createReactiveObject_wrapper st d p o base coll :
  wf st -> toRawMap d st !! p = Some o ->
  createReactiveObject DEV (VRef p) d base coll st = (VRef p, st).
Proof.
  intros W H. unfold createReactiveObject.
  rewrite (wrapper_is_object _ _ _ _ W H). cbn [negb wm_get].
  destruct (toProxy d st !! p) as [q |] eqn:Hq.
  - apply (wf_not_both _ W) in Hq. congruence.
  - unfold wm_has. cbn [wm_get]. now rewrite H.
Qed.

Lemma disjoint_directions st p o o' :
  coherent st ->
  reactiveToRaw st !! p = Some o -> readonlyToRaw st !! p = Some o' -> False.
Proof.
  intros C H1 H2.
  destruct (co_handlers _ C Mutable _ _ H1) as (ob & h & Hob & Hpx & Hd).
  destruct (co_handlers _ C ReadonlyFamily _ _ H2)
    as (ob' & h' & Hob' & Hpx' & Hd').
  rewrite Hob in Hob'. injection Hob' as <-.
  rewrite Hpx in Hpx'. injection Hpx' as _ <-. congruence.
Qed.

Lemma wrapperOf_toRaw st d w o :
  coherent st -> wf st -> wrapperOf d st w o -> toRaw w st = VRef o.
Proof.
  intros C W (p & ob & h & -> & Hob & Hpx & _ & Hr). unfold toRaw. cbn [wm_get].
  destruct d; simpl in Hr.
  - now rewrite Hr.
  - destruct (reactiveToRaw st !! p) as [x |] eqn:Hx.
    + destruct (disjoint_directions _ _ _ _ C Hx Hr).
    + now rewrite Hr.
Qed.

Lemma eligible_keeps st st' o :
  (forall i ob, heap st !! i = Some ob -> heap st' !! i = Some ob) ->
  nonReactiveValues st' = nonReactiveValues st ->
  eligible st o -> eligible st' o.
Proof.
  intros Hh Hn (ob & Hob & Hraw & Hcall & Hc). exists ob.
  split; [now apply Hh |]. repeat split; auto.
  simpl in *. rewrite (Hh _ _ Hob), Hn. now rewrite Hob in Hc.
Qed.

(** ** The properties *)

(** X1. In every reachable state the two tables of a direction are inverse
    to each other, so no two raw objects share a wrapper; every
    registered wrapper is a proxy built over its raw object with handlers
    of that direction; every proxy ever built is registered; and no proxy
    is registered in both directions. *)
Theorem tables_are_mutually_inverse (st : state) :
  reachable DEV st ->
  (forall d o p, toProxy d st !! o = Some p <-> toRawMap d st !! p = Some o) /\
  (forall d o o' p,
     toProxy d st !! o = Some p -> toProxy d st !! o' = Some p -> o = o') /\
  (forall d p o,
     toRawMap d st !! p = Some o ->
     exists ob h, heap st !! p = Some ob /\ proxyOf ob = Some (o, h) /\
                  handlerDirection h = d) /\
  (forall p ob o h,
     heap st !! p = Some ob -> proxyOf ob = Some (o, h) ->
     toRawMap (handlerDirection h) st !! p = Some o) /\
  (forall p o o',
     reactiveToRaw st !! p = Some o -> readonlyToRaw st !! p = Some o' -> False).
Proof.
  intros R. pose proof (reachable_wf _ _ R) as W.
  pose proof (reachable_coherent _ R) as C.
  split; [| split; [| split; [| split]]].
  - intros d o p. split; [apply (wf_fwd _ W) | apply (wf_bwd _ W)].
  - intros d o o' p H H'. apply (wf_fwd _ W) in H, H'. congruence.
  - apply (co_handlers _ C).
  - intros p ob o h Hob Hpx.
    destruct (wf_proxy _ W _ _ _ _ Hob Hpx) as ((d & Hd) & _).
    destruct (co_handlers _ C _ _ _ Hd) as (ob' & h' & Hob' & Hpx' & <-).
    rewrite Hob in Hob'. injection Hob' as <-.
    rewrite Hpx in Hpx'. injection Hpx' as <-. exact Hd.
  - intros p o o'. apply disjoint_directions. exact C.
Qed.

(** X2. Wrapping a wrapper is a no-op: [readonly(readonly(o))] and
    [reactive(readonly(o))] are [readonly(o)], and
    [reactive(reactive(o))] is [reactive(o)] unless the caller marked
    that wrapper itself readonly; none of the second calls changes the
    state. *)
Theorem wrapping_twice_is_wrapping_once (st : state) (o : objId) :
  reachable DEV st -> eligible st o ->
  (let '(m, st1) := reactive DEV (VRef o) st in
   ws_has (readonlyValues st1) m = false -> reactive DEV m st1 = (m, st1)) /\
  (let '(r, st1) := readonly DEV (VRef o) st in
   readonly DEV r st1 = (r, st1) /\ reactive DEV r st1 = (r, st1)).
Proof.
  intros R E. pose proof (reachable_wf _ _ R) as W. split.
  - pose proof (reach_reactive DEV st (VRef o) R) as R1.
    destruct (reactive_eligible DEV st o W E) as (p & st1 & Heq & Hw & W1 & _).
    rewrite Heq in *. simpl in R1.
    assert (Hlive : live st (VRef o)).
    { destruct E as (ob & Hob & _). simpl. eapply heap_lookup_lt; eauto. }
    specialize (R1 Hlive).
    destruct Hw as (p' & obp & hp & [= <-] & Hobp & Hpx & _ & Hr).
    intros Hmark. unfold reactive, wm_has. cbn [wm_get].
    destruct (readonlyToRaw st1 !! p) as [x |] eqn:Hx; [reflexivity |].
    rewrite Hmark.
    destruct (reactiveDirection st o); simpl in Hr; [| congruence].
    now apply (createReactiveObject_wrapper st1 Mutable p o).
  - rewrite (readonly_raw DEV _ _ W E).
    destruct (createReactiveObject_eligible DEV ReadonlyFamily
                readonlyHandlers readonlyCollectionHandlers st o W E)
      as (p & st1 & Heq & Hw & W1 & _).
    rewrite Heq.
    destruct Hw as (p' & obp & hp & [= <-] & Hobp & Hpx & _ & Hr).
    simpl in Hr. split.
    + unfold readonly. cbn [wm_get].
      destruct (reactiveToRaw st1 !! p) as [x |] eqn:Hx.
      * destruct (wf_bwd _ W1 Mutable _ _ Hx) as (Hpx' & ob' & h' & Hob' & Hq).
        assert (x = o) as -> by congruence.
        apply (createReactiveObject_cached DEV); [| ].
        -- now apply (wrapped_is_object st1 Mutable o p).
        -- now apply (wf_bwd _ W1 ReadonlyFamily).
      * now apply (createReactiveObject_wrapper st1 ReadonlyFamily p o).
    + unfold reactive, wm_has. cbn [wm_get]. now rewrite Hr.
Qed.

(** X3. Readonly precedence: once an eligible raw object is marked by
    [markReadonly], [reactive] gives what [readonly] gives, a registered
    readonly wrapper of the object. *)
Theorem marked_readonly_redirects (st : state) (o : objId) :
  reachable DEV st -> eligible st o ->
  match markReadonly (VRef o) st with
  | Some (w, st1) =>
    w = VRef o /\
    reactive DEV (VRef o) st1 = readonly DEV (VRef o) st1 /\
    wrapperOf ReadonlyFamily (snd (reactive DEV (VRef o) st1))
              (fst (reactive DEV (VRef o) st1)) o /\
    isReadonly (fst (reactive DEV (VRef o) st1))
               (snd (reactive DEV (VRef o) st1)) = true
  | None => False
  end.
Proof.
  intros R E. pose proof (reachable_wf _ _ R) as W. simpl.
  set (st1 := mkState (heap st) (rawToReactive st) (reactiveToRaw st)
                (rawToReadonly st) (readonlyToRaw st)
                ({[o]} ∪ readonlyValues st) (nonReactiveValues st)
                (warnings st)).
  assert (W1 : wf st1) by (now apply wf_marks).
  assert (E1 : eligible st1 o) by (now apply (eligible_keeps st st1 o)).
  split; [reflexivity |].
  assert (Heq : reactive DEV (VRef o) st1 = readonly DEV (VRef o) st1).
  { rewrite (reactive_raw DEV _ _ W1 E1), (readonly_raw DEV _ _ W1 E1).
    cbn [ws_has]. rewrite bool_decide_eq_true_2; [reflexivity |].
    simpl. set_solver. }
  split; [exact Heq |]. rewrite Heq, (readonly_raw DEV _ _ W1 E1).
  destruct (createReactiveObject_eligible DEV ReadonlyFamily
              readonlyHandlers readonlyCollectionHandlers st1 o W1 E1)
    as (p & st2 & -> & Hw & _).
  split; [exact Hw |]. simpl.
  destruct Hw as (p' & obp & hp & [= <-] & _ & _ & _ & Hr).
  unfold isReadonly, wm_has. cbn [wm_get]. simpl in Hr. now rewrite Hr.
Qed.

(** X4. Exclusion from observation: once a raw object that has no wrapper
    yet is marked by [markNonReactive], [reactive], [readonly] and
    [shallowReadonly] return it as it is and leave the state alone. *)
Theorem marked_nonreactive_passes_through (st : state) (o : objId)
    (ob : object) :
  reachable DEV st ->
  heap st !! o = Some ob -> proxyOf ob = None -> callable ob = false ->
  (forall d, toProxy d st !! o = None) ->
  match markNonReactive (VRef o) st with
  | Some (w, st1) =>
    w = VRef o /\
    reactive DEV (VRef o) st1 = (VRef o, st1) /\
    readonly DEV (VRef o) st1 = (VRef o, st1) /\
    shallowReadonly DEV (VRef o) st1 = (VRef o, st1)
  | None => False
  end.
Proof.
  intros R Hob Hraw Hcall Hnone. pose proof (reachable_wf _ _ R) as W. simpl.
  set (st1 := mkState (heap st) (rawToReactive st) (reactiveToRaw st)
                (rawToReadonly st) (readonlyToRaw st) (readonlyValues st)
                ({[o]} ∪ nonReactiveValues st) (warnings st)).
  assert (W1 : wf st1) by (now apply wf_marks).
  assert (HnR : forall d, toRawMap d st1 !! o = None).
  { intros d. destruct (toRawMap d st1 !! o) as [x |] eqn:Hx; [| reflexivity].
    destruct (wf_bwd _ W1 _ _ _ Hx) as (_ & ob' & h & Hob' & Hpx).
    simpl in Hob'. congruence. }
  assert (Hcro : forall d base coll,
             createReactiveObject DEV (VRef o) d base coll st1 = (VRef o, st1)).
  { intros d base coll.
    destruct (createReactiveObject_outcome DEV (VRef o) d base coll st1)
      as [Hn | t q [= <-] _ Hq | t x [= <-] _ _ Hx | t [= <-] _ _ _ _
          | t ob' [= <-] Hob' _ _ _ Hc]; try reflexivity.
    - simpl in Hn. rewrite Hob, Hcall in Hn. discriminate.
    - pose proof (Hnone d) as Hd. destruct d; simpl in Hq, Hd; congruence.
    - simpl in Hc. rewrite Hob in Hc.
      rewrite bool_decide_eq_true_2 in Hc by set_solver.
      rewrite andb_false_r in Hc. discriminate. }
  assert (Hro : readonly DEV (VRef o) st1 = (VRef o, st1)).
  { unfold readonly. cbn [wm_get]. pose proof (HnR Mutable) as H.
    change (reactiveToRaw st1 !! o = None) in H. rewrite H. apply Hcro. }
  split; [reflexivity |]. split; [| split; [exact Hro | apply Hcro]].
  unfold reactive, wm_has. cbn [wm_get].
  pose proof (HnR ReadonlyFamily) as H.
  change (readonlyToRaw st1 !! o = None) in H. rewrite H.
  destruct (ws_has (readonlyValues st1) (VRef o)); [exact Hro | apply Hcro].
Qed.

(** X5. The cache is consulted before the markers: a readonly-direction
    wrapper handed out before [markNonReactive] is still what
    [shallowReadonly] returns afterwards. *)
Theorem marker_does_not_evict_wrapper (st : state) (o p : objId) :
  reachable DEV st -> rawToReadonly st !! o = Some p ->
  match markNonReactive (VRef o) st with
  | Some (w, st1) =>
    canObserve st1 (VRef o) = false /\
    shallowReadonly DEV (VRef o) st1 = (VRef p, st1)
  | None => False
  end.
Proof.
  intros R Hp. pose proof (reachable_wf _ _ R) as W. simpl.
  destruct (wf_wrapped _ W ReadonlyFamily _ _ Hp) as (ob & Hob & Hcall).
  split.
  - rewrite Hob. rewrite bool_decide_eq_true_2 by set_solver.
    apply andb_false_r.
  - unfold shallowReadonly. apply createReactiveObject_cached; [| exact Hp].
    simpl. now rewrite Hob, Hcall.
Qed.

(** X6. Values that are not objects (primitives, [null], functions) come
    back unchanged from the three constructors; nothing is registered or
    allocated, and a development build logs exactly one warning, a
    production build none. *)
Theorem non_objects_pass_through (st : state) (v : value) :
  reachable DEV st -> isObject st v = false ->
  let expected := (v, if DEV then warn v st else st) in
  reactive DEV v st = expected /\
  readonly DEV v st = expected /\
  shallowReadonly DEV v st = expected.
Proof.
  intros R Hobj expected. pose proof (reachable_wf _ _ R) as W.
  assert (HnR : forall d, wm_get (toRawMap d st) v = None).
  { intros d. destruct v as [| | | | | i]; try reflexivity. simpl.
    destruct (toRawMap d st !! i) as [x |] eqn:Hx; [| reflexivity].
    rewrite (wrapper_is_object _ _ _ _ W Hx) in Hobj. discriminate. }
  assert (Hcro : forall d base coll,
             createReactiveObject DEV v d base coll st = expected).
  { intros d base coll. unfold createReactiveObject. now rewrite Hobj. }
  assert (Hro : readonly DEV v st = expected).
  { unfold readonly. pose proof (HnR Mutable) as H. simpl in H. rewrite H.
    apply Hcro. }
  split; [| split; [exact Hro | apply Hcro]].
  unfold reactive, wm_has. pose proof (HnR ReadonlyFamily) as H.
  simpl in H. rewrite H.
  destruct (ws_has (readonlyValues st) v); [exact Hro | apply Hcro].
Qed.

Lemma wrap_eligible_coherent st o d base coll :
  reachable DEV st -> eligible st o ->
  handlerDirection base = d -> handlerDirection coll = d ->
  exists p st1,
    createReactiveObject DEV (VRef o) d base coll st = (VRef p, st1) /\
    wrapperOf d st1 (VRef p) o /\ wf st1 /\ coherent st1 /\ eligible st1 o /\
    readonlyValues st1 = readonlyValues st /\
    (forall d', d' <> d -> toProxy d' st1 = toProxy d' st /\
                          toRawMap d' st1 = toRawMap d' st) /\
    (forall i ob, heap st !! i = Some ob -> heap st1 !! i = Some ob).
Proof.
  intros R E Hb Hc. pose proof (reachable_wf _ _ R) as W.
  pose proof (reachable_coherent _ R) as C.
  pose proof (coherent_createReactiveObject (VRef o) d base coll st W C Hb Hc)
    as C1.
  destruct (createReactiveObject_keeps (VRef o) d base coll st W)
    as (_ & _ & Hheap & _).
  destruct (createReactiveObject_eligible DEV d base coll st o W E)
    as (p & st1 & Heq & Hw & W1 & E1 & Hrv & Hother & _).
  rewrite Heq in *. simpl in *. exists p, st1.
  split; [reflexivity |]. split; [exact Hw |]. split; [exact W1 |].
  split; [exact C1 |]. split; [exact E1 |]. split; [exact Hrv |].
  split; [exact Hother | exact Hheap].
Qed.

(** X7. [toRaw] undoes each of the three constructors on an eligible raw
    object, and leaves a raw object alone. *)
Theorem toRaw_recovers_raw (st : state) (o : objId) :
  reachable DEV st -> eligible st o ->
  (let '(w, st1) := reactive DEV (VRef o) st in toRaw w st1 = VRef o) /\
  (let '(w, st1) := readonly DEV (VRef o) st in toRaw w st1 = VRef o) /\
  (let '(w, st1) := shallowReadonly DEV (VRef o) st in toRaw w st1 = VRef o) /\
  toRaw (VRef o) st = VRef o.
Proof.
  intros R E. pose proof (reachable_wf _ _ R) as W.
  assert (Hcro : forall d base coll,
             handlerDirection base = d -> handlerDirection coll = d ->
             let '(w, st1) := createReactiveObject DEV (VRef o) d base coll st in
             toRaw w st1 = VRef o).
  { intros d base coll Hb Hc.
    destruct (wrap_eligible_coherent st o d base coll R E Hb Hc)
      as (p & st1 & -> & Hw & W1 & C1 & _).
    now apply (wrapperOf_toRaw st1 d). }
  split; [| split; [| split]].
  - rewrite (reactive_raw DEV _ _ W E).
    destruct (ws_has (readonlyValues st) (VRef o)); now apply Hcro.
  - rewrite (readonly_raw DEV _ _ W E). now apply Hcro.
  - unfold shallowReadonly. now apply Hcro.
  - unfold toRaw. cbn [wm_get].
    pose proof (eligible_not_proxy _ _ Mutable W E) as H1.
    pose proof (eligible_not_proxy _ _ ReadonlyFamily W E) as H2.
    simpl in H1, H2. now rewrite H1, H2.
Qed.

(** X8. What the predicates answer after wrapping an eligible raw object:
    the raw object itself is neither reactive nor readonly; every wrapper
    is reactive; the result of [readonly] is readonly, and the result of
    [reactive] is readonly exactly when the object was marked readonly. *)
Theorem predicates_after_wrapping (st : state) (o : objId) :
  reachable DEV st -> eligible st o ->
  isReactive (VRef o) st = false /\ isReadonly (VRef o) st = false /\
  (let '(m, st1) := reactive DEV (VRef o) st in
   isReactive m st1 = true /\
   isReadonly m st1 = ws_has (readonlyValues st) (VRef o)) /\
  (let '(r, st1) := readonly DEV (VRef o) st in
   isReactive r st1 = true /\ isReadonly r st1 = true).
Proof.
  intros R E. pose proof (reachable_wf _ _ R) as W.
  pose proof (eligible_not_proxy _ _ Mutable W E) as H1.
  pose proof (eligible_not_proxy _ _ ReadonlyFamily W E) as H2.
  simpl in H1, H2. unfold isReactive, isReadonly, wm_has. cbn [wm_get].
  rewrite H1, H2. split; [reflexivity |]. split; [reflexivity |].
  assert (Hro : let '(r, st1) := createReactiveObject DEV (VRef o)
                                   ReadonlyFamily readonlyHandlers
                                   readonlyCollectionHandlers st in
                (match wm_get (reactiveToRaw st1) r with
                 | Some _ => true | None => false end
                 || match wm_get (readonlyToRaw st1) r with
                    | Some _ => true | None => false end) = true /\
                match wm_get (readonlyToRaw st1) r with
                | Some _ => true | None => false end = true).
  { destruct (wrap_eligible_coherent st o ReadonlyFamily readonlyHandlers
                readonlyCollectionHandlers R E eq_refl eq_refl)
      as (p & st1 & -> & Hw & _).
    destruct Hw as (p' & obp & hp & [= <-] & _ & _ & _ & Hr). simpl in Hr.
    cbn [wm_get]. rewrite Hr. split; [apply orb_true_r | reflexivity]. }
  split; [| rewrite (readonly_raw DEV _ _ W E); exact Hro].
  rewrite (reactive_raw DEV _ _ W E).
  destruct (ws_has (readonlyValues st) (VRef o)); [exact Hro |].
  destruct (wrap_eligible_coherent st o Mutable mutableHandlers
              mutableCollectionHandlers R E eq_refl eq_refl)
    as (p & st1 & -> & Hw & W1 & C1 & _).
  destruct Hw as (p' & obp & hp & [= <-] & _ & _ & _ & Hr). simpl in Hr.
  cbn [wm_get]. rewrite Hr. split; [reflexivity |].
  destruct (readonlyToRaw st1 !! p) as [x |] eqn:Hx; [| reflexivity].
  destruct (disjoint_directions _ _ _ _ C1 Hr Hx).
Qed.

(** X9. The two directions are independent: for an eligible raw object that
    is not marked readonly, [reactive(o)] and [readonly(o)] are two
    different proxies over [o], both registered at once, and asking for
    the mutable one again after the readonly one was built still gives
    the first. *)
Theorem directions_are_independent (st : state) (o : objId) :
  reachable DEV st -> eligible st o ->
  ws_has (readonlyValues st) (VRef o) = false ->
  let '(m, st1) := reactive DEV (VRef o) st in
  let '(r, st2) := readonly DEV (VRef o) st1 in
  m <> r /\
  wrapperOf Mutable st2 m o /\ wrapperOf ReadonlyFamily st2 r o /\
  reactive DEV (VRef o) st2 = (m, st2).
Proof.
  intros R E Hmark. pose proof (reachable_wf _ _ R) as W.
  assert (Hlive : live st (VRef o)).
  { destruct E as (ob & Hob & _). simpl. eapply heap_lookup_lt; eauto. }
  pose proof (reach_reactive DEV st (VRef o) R Hlive) as R1.
  rewrite (reactive_raw DEV _ _ W E), Hmark in *.
  destruct (wrap_eligible_coherent st o Mutable mutableHandlers
              mutableCollectionHandlers R E eq_refl eq_refl)
    as (p & st1 & Heq & Hw & W1 & C1 & E1 & Hrv & _).
  rewrite Heq in *. simpl in R1.
  rewrite (readonly_raw DEV _ _ W1 E1).
  destruct (wrap_eligible_coherent st1 o ReadonlyFamily readonlyHandlers
              readonlyCollectionHandlers R1 E1 eq_refl eq_refl)
    as (q & st2 & -> & Hq & W2 & C2 & E2 & Hrv2 & Hother & Hheap).
  destruct (Hother Mutable) as [HP HR]; [discriminate |].
  destruct Hw as (p' & obp & hp & [= <-] & Hobp & Hpx & Hp & Hr).
  assert (Hw2 : wrapperOf Mutable st2 (VRef p) o).
  { exists p, obp, hp. rewrite HP, HR. repeat split; auto. }
  split; [| split; [exact Hw2 | split; [exact Hq |]]].
  - intros [= ->].
    destruct Hq as (q' & obq & hq & [= <-] & _ & _ & _ & Hrq).
    simpl in Hr, Hrq, HR. rewrite <- HR in Hr.
    exact (disjoint_directions _ _ _ _ C2 Hr Hrq).
  - rewrite (reactive_raw DEV _ _ W2 E2). cbn [ws_has] in *.
    rewrite Hrv2, Hrv, Hmark.
    apply createReactiveObject_cached; [now apply eligible_isObject |].
    now rewrite HP.
Qed.

(** X10. [shallowReadonly] does not unwrap. For the mutable wrapper [m] of
    a raw object [o], in any reachable state, it never returns [o] nor a
    readonly-family wrapper of [o]. When [m] has a readonly-family proxy
    already or passes [canObserve], the result is a readonly-family proxy
    built over [m] itself, a proxy of a proxy, different from [m], and
    [toRaw] of it is [m], not [o]. When [m] has none and fails
    [canObserve], the result is [m] itself and nothing changes; that is
    the case when [m] was marked non-reactive and when [_isVue] or
    [_isVNode] of [o], which [m] shows, is truthy. *)
Theorem shallowReadonly_wraps_the_wrapper (st : state) (m o : objId) :
  reachable DEV st -> reactiveToRaw st !! m = Some o ->
  let '(s, st1) := shallowReadonly DEV (VRef m) st in
  s <> VRef o /\
  ~ wrapperOf ReadonlyFamily st1 s o /\
  (rawToReadonly st !! m = None -> canObserve st (VRef m) = false ->
   s = VRef m /\ st1 = st) /\
  (is_Some (rawToReadonly st !! m) \/ canObserve st (VRef m) = true ->
   s <> VRef m /\ wrapperOf ReadonlyFamily st1 s m /\ toRaw s st1 = VRef m) /\
  (flagged st (VRef o) \/ ws_has (nonReactiveValues st) (VRef m) = true ->
   canObserve st (VRef m) = false).
Proof.
  intros R Hr. pose proof (reachable_wf _ _ R) as W.
  pose proof (reachable_coherent _ R) as C.
  destruct (co_handlers _ C Mutable _ _ Hr) as (obm & hm & Hobm & Hpxm & _).
  destruct (co_shape _ C _ _ _ _ Hobm Hpxm)
    as (obo & Hobo & Hty & _ & Hom & Hv & Hn).
  assert (Hflag : flagged st (VRef o) \/
                  ws_has (nonReactiveValues st) (VRef m) = true ->
                  canObserve st (VRef m) = false).
  { intros [(i & ob & [= <-] & Hob & Hf) | Hnr]; simpl; rewrite Hobm.
    - rewrite Hobo in Hob. injection Hob as <-. rewrite Hv, Hn.
      destruct Hf as [-> | ->]; [reflexivity | now destruct (_isVue obo)].
    - simpl in Hnr. rewrite Hnr. simpl. apply andb_false_r. }
  assert (Hwrap : forall q st1,
             wf st1 -> coherent st1 ->
             toProxy ReadonlyFamily st1 !! m = Some q ->
             VRef q <> VRef o /\
             ~ wrapperOf ReadonlyFamily st1 (VRef q) o /\
             VRef q <> VRef m /\
             wrapperOf ReadonlyFamily st1 (VRef q) m /\
             toRaw (VRef q) st1 = VRef m).
  { intros q st1 W' C' Hq.
    pose proof (wrapperOf_cached st1 ReadonlyFamily m q W' Hq) as Hw.
    assert (Hmq : m < q).
    { destruct Hw as (q' & obq & hq & [= <-] & Hobq & Hpxq & _).
      destruct (co_shape _ C' _ _ _ _ Hobq Hpxq) as (_ & _ & _ & _ & Hlt & _).
      exact Hlt. }
    split; [intros [= ->]; lia |]. split.
    - intros (q' & obq & hq & [= <-] & _ & _ & _ & Hro).
      pose proof (wf_fwd _ W' _ _ _ Hq) as Hro'. rewrite Hro in Hro'.
      injection Hro' as ->. lia.
    - split; [intros [= ->]; lia |].
      split; [exact Hw | now apply (wrapperOf_toRaw st1 ReadonlyFamily)]. }
  unfold shallowReadonly.
  pose proof (wf_createReactiveObject DEV (VRef m) ReadonlyFamily
                shallowReadonlyHandlers readonlyCollectionHandlers st W) as W1.
  pose proof (coherent_createReactiveObject (VRef m) ReadonlyFamily
                shallowReadonlyHandlers readonlyCollectionHandlers st W C
                eq_refl eq_refl) as C1.
  revert W1 C1.
  destruct (createReactiveObject_outcome DEV (VRef m) ReadonlyFamily
              shallowReadonlyHandlers readonlyCollectionHandlers st)
    as [Hno | t q [= <-] _ Hq | t x [= <-] _ _ Hx | t [= <-] _ Hq _ Hc
        | t ob' [= <-] Hob' _ Hq _ Hc]; intros W1 C1; simpl in W1, C1.
  - rewrite (wrapper_is_object _ Mutable _ _ W Hr) in Hno. discriminate.
  - destruct (Hwrap q st W C Hq) as (A1 & A2 & A3 & A4 & A5).
    split; [exact A1 |]. split; [exact A2 |].
    split; [intros Hnone; simpl in Hq; congruence |].
    split; [intros _; auto | exact Hflag].
  - simpl in Hx. destruct (disjoint_directions _ _ _ _ C Hr Hx).
  - split; [intros [= ->]; lia |]. split.
    + intros (q' & obq & hq & [= <-] & _ & _ & _ & Hro). simpl in Hro.
      exact (disjoint_directions _ _ _ _ C Hr Hro).
    + split; [auto |]. split; [| exact Hflag].
      intros [[q Hq'] | Hc']; simpl in Hq; congruence.
  - assert (Hq' : toProxy ReadonlyFamily
                    (register ReadonlyFamily m (length (heap st))
                       (newProxy m ob'
                          (if collectionTypes_has (ctor ob')
                           then readonlyCollectionHandlers
                           else shallowReadonlyHandlers)) st) !! m
                  = Some (length (heap st))).
    { rewrite toProxy_register. now rewrite decide_True. }
    destruct (Hwrap _ _ W1 C1 Hq') as (A1 & A2 & A3 & A4 & A5).
    split; [exact A1 |]. split; [exact A2 |].
    split; [intros _ Hc'; congruence |].
    split; [intros _; auto | exact Hflag].
Qed.

(** X11. Table entries, wrappers and heap objects are permanent: whatever the
    caller does next, an entry that exists stays as it is, so the wrapper
    once handed out for a raw object in a direction is the one handed out
    ever after ([reactive] as long as the object is not marked readonly). *)
Theorem wrappers_are_permanent (st st' : state) :
  reachable DEV st -> evolves DEV st st' ->
  (forall d o p, toProxy d st !! o = Some p -> toProxy d st' !! o = Some p) /\
  (forall d p o, toRawMap d st !! p = Some o -> toRawMap d st' !! p = Some o) /\
  (forall i ob, heap st !! i = Some ob -> heap st' !! i = Some ob) /\
  (forall o p,
     rawToReadonly st !! o = Some p ->
     shallowReadonly DEV (VRef o) st' = (VRef p, st')) /\
  (forall o p ob,
     rawToReadonly st !! o = Some p ->
     heap st !! o = Some ob -> proxyOf ob = None ->
     readonly DEV (VRef o) st' = (VRef p, st')) /\
  (forall o p ob,
     rawToReactive st !! o = Some p ->
     heap st !! o = Some ob -> proxyOf ob = None ->
     ws_has (readonlyValues st') (VRef o) = false ->
     reactive DEV (VRef o) st' = (VRef p, st')).
Proof.
  intros R E. pose proof (reachable_wf _ _ R) as W.
  pose proof (reachable_coherent _ R) as C.
  destruct (evolves_keeps st st' W C E) as (KP & KR & KH & _).
  destruct (evolves_coherent st st' W C E) as [W' C'].
  assert (Hraw : forall o ob d,
             heap st !! o = Some ob -> proxyOf ob = None ->
             toRawMap d st' !! o = None).
  { intros o ob d Hob Hpx.
    destruct (toRawMap d st' !! o) as [x |] eqn:Hx; [| reflexivity].
    destruct (wf_bwd _ W' _ _ _ Hx) as (_ & ob' & h & Hob' & Hpx').
    rewrite (KH _ _ Hob) in Hob'. congruence. }
  split; [exact KP |]. split; [exact KR |]. split; [exact KH |].
  split; [| split].
  - intros o p Hp. apply (KP ReadonlyFamily) in Hp.
    unfold shallowReadonly. apply createReactiveObject_cached; [| exact Hp].
    now apply (wrapped_is_object st' ReadonlyFamily o p).
  - intros o p ob Hp Hob Hpx. apply (KP ReadonlyFamily) in Hp.
    unfold readonly. cbn [wm_get].
    pose proof (Hraw o ob Mutable Hob Hpx) as H. simpl in H. rewrite H.
    apply createReactiveObject_cached; [| exact Hp].
    now apply (wrapped_is_object st' ReadonlyFamily o p).
  - intros o p ob Hp Hob Hpx Hmark. apply (KP Mutable) in Hp.
    unfold reactive, wm_has. cbn [wm_get].
    pose proof (Hraw o ob ReadonlyFamily Hob Hpx) as H. simpl in H.
    rewrite H, Hmark.
    apply createReactiveObject_cached; [| exact Hp].
    now apply (wrapped_is_object st' Mutable o p).
Qed.

End Laws.

(** ** The properties on concrete states *)

Lemma twoObjects_live : live twoObjects (VRef 0).
Proof. simpl. lia. Qed.

Lemma readonlyBuilt_reachable : reachable false readonlyBuilt.
Proof.
  apply (reach_readonly false twoObjects (VRef 0) twoObjects_reachable
           twoObjects_live).
Qed.

Lemma readonlyBuilt_entry : rawToReadonly readonlyBuilt !! 0 = Some 2.
Proof. reflexivity. Qed.

Lemma tables_are_mutually_inverse_witness :
  reachable false readonlyBuilt /\
  (forall d o p,
     toProxy d readonlyBuilt !! o = Some p <->
     toRawMap d readonlyBuilt !! p = Some o).
Proof.
  split; [exact readonlyBuilt_reachable |].
  exact (proj1 (tables_are_mutually_inverse false readonlyBuilt
                  readonlyBuilt_reachable)).
Defined.

Lemma wrapping_twice_is_wrapping_once_witness :
  reachable false twoObjects /\ eligible twoObjects 0 /\
  readonly false (fst (readonly false (VRef 0) twoObjects))
                 (snd (readonly false (VRef 0) twoObjects))
  = readonly false (VRef 0) twoObjects.
Proof.
  split; [exact twoObjects_reachable |]. split; [exact plainObject_eligible |].
  exact (proj1 (proj2 (wrapping_twice_is_wrapping_once false twoObjects 0
                         twoObjects_reachable plainObject_eligible))).
Defined.

Lemma marked_readonly_redirects_witness :
  reachable false twoObjects /\ eligible twoObjects 0 /\
  match markReadonly (VRef 0) twoObjects with
  | Some (w, st1) =>
    reactive false (VRef 0) st1 = readonly false (VRef 0) st1
  | None => False
  end.
Proof.
  split; [exact twoObjects_reachable |]. split; [exact plainObject_eligible |].
  pose proof (marked_readonly_redirects false twoObjects 0
                twoObjects_reachable plainObject_eligible) as H.
  destruct (markReadonly (VRef 0) twoObjects) as [[w st1] |]; [| exact H].
  exact (proj1 (proj2 H)).
Defined.

Lemma twoObjects_unwrapped (d : Direction) : toProxy d twoObjects !! 0 = None.
Proof. now destruct d. Qed.

Lemma marked_nonreactive_passes_through_witness :
  match markNonReactive (VRef 0) twoObjects with
  | Some (w, st1) => reactive false (VRef 0) st1 = (VRef 0, st1)
  | None => False
  end.
Proof.
  pose proof (marked_nonreactive_passes_through false twoObjects 0 plainObject
                twoObjects_reachable eq_refl eq_refl eq_refl
                twoObjects_unwrapped) as H.
  destruct (markNonReactive (VRef 0) twoObjects) as [[w st1] |]; [| exact H].
  exact (proj1 (proj2 H)).
Defined.

Lemma marker_does_not_evict_wrapper_witness :
  match markNonReactive (VRef 0) readonlyBuilt with
  | Some (w, st1) => shallowReadonly false (VRef 0) st1 = (VRef 2, st1)
  | None => False
  end.
Proof.
  pose proof (marker_does_not_evict_wrapper false readonlyBuilt 0 2
                readonlyBuilt_reachable readonlyBuilt_entry) as H.
  destruct (markNonReactive (VRef 0) readonlyBuilt) as [[w st1] |]; [| exact H].
  exact (proj2 H).
Defined.

Lemma non_objects_pass_through_witness :
  isObject twoObjects (VNumber 42) = false /\
  reactive false (VNumber 42) twoObjects = (VNumber 42, twoObjects).
Proof.
  split; [reflexivity |].
  exact (proj1 (non_objects_pass_through false twoObjects (VNumber 42)
                  twoObjects_reachable eq_refl)).
Defined.

Lemma toRaw_recovers_raw_witness :
  reachable false twoObjects /\ eligible twoObjects 0 /\
  toRaw (VRef 0) twoObjects = VRef 0.
Proof.
  split; [exact twoObjects_reachable |]. split; [exact plainObject_eligible |].
  exact (proj2 (proj2 (proj2 (toRaw_recovers_raw false twoObjects 0
                                twoObjects_reachable plainObject_eligible)))).
Defined.

Lemma predicates_after_wrapping_witness :
  reachable false twoObjects /\ eligible twoObjects 0 /\
  isReactive (VRef 0) twoObjects = false.
Proof.
  split; [exact twoObjects_reachable |]. split; [exact plainObject_eligible |].
  exact (proj1 (predicates_after_wrapping false twoObjects 0
                  twoObjects_reachable plainObject_eligible)).
Defined.

Lemma directions_are_independent_witness :
  ws_has (readonlyValues twoObjects) (VRef 0) = false /\
  fst (reactive false (VRef 0) twoObjects) <>
  fst (readonly false (VRef 0) (snd (reactive false (VRef 0) twoObjects))).
Proof.
  split; [reflexivity |].
  pose proof (directions_are_independent false twoObjects 0
                twoObjects_reachable plainObject_eligible eq_refl) as H.
  destruct (reactive false (VRef 0) twoObjects) as [m st1]. simpl.
  destruct (readonly false (VRef 0) st1) as [r st2].
  exact (proj1 H).
Defined.

Lemma reactiveBuilt_reachable : reachable false reactiveBuilt.
Proof.
  apply (reach_reactive false twoObjects (VRef 0) twoObjects_reachable
           twoObjects_live).
Qed.

Lemma shallowReadonly_wraps_the_wrapper_witness :
  reachable false reactiveBuilt /\ reactiveToRaw reactiveBuilt !! 2 = Some 0 /\
  fst (shallowReadonly false (VRef 2) reactiveBuilt) <> VRef 0.
Proof.
  split; [exact reactiveBuilt_reachable |]. split; [reflexivity |].
  pose proof (shallowReadonly_wraps_the_wrapper false reactiveBuilt 2 0
                reactiveBuilt_reachable eq_refl) as H.
  destruct (shallowReadonly false (VRef 2) reactiveBuilt) as [s st1].
  exact (proj1 H).
Defined.

(** Both cases on [o = {}; m = reactive(o)]: [shallowReadonly(m)] is a
    new proxy, object 3, built over [m]; after [o._isVue = true] it is
    [m] itself. *)
Example shallowReadonly_of_a_wrapper :
  (let '(s, st1) := shallowReadonly false (VRef 2) reactiveBuilt in
   s = VRef 3 /\ toRaw s st1 = VRef 2 /\
   option_map proxyOf (heap st1 !! 3) = Some (Some (2, shallowReadonlyHandlers))) /\
  shallowReadonly false (VRef 2) wrappedThenFlagged
    = (VRef 2, wrappedThenFlagged).
Proof. split; [| reflexivity]. vm_compute. repeat split; reflexivity. Qed.

Lemma readonlyBuilt_evolves :
  evolves false readonlyBuilt (allocObject mapObject readonlyBuilt).
Proof.
  eapply evolves_step; [apply evolves_refl |]. now apply step_alloc.
Qed.

Lemma wrappers_are_permanent_witness :
  reachable false readonlyBuilt /\
  evolves false readonlyBuilt (allocObject mapObject readonlyBuilt) /\
  shallowReadonly false (VRef 0) (allocObject mapObject readonlyBuilt) =
    (VRef 2, allocObject mapObject readonlyBuilt).
Proof.
  split; [exact readonlyBuilt_reachable |].
  split; [exact readonlyBuilt_evolves |].
  exact (proj1 (proj2 (proj2 (proj2
           (wrappers_are_permanent false readonlyBuilt _
              readonlyBuilt_reachable readonlyBuilt_evolves)))) 0 2
           readonlyBuilt_entry).
Defined.

End RegistryLaws.

(* ===================================================================== *)
(** * Part VI: further properties of the effect runtime *)
(* ===================================================================== *)

Module RuntimeLaws.
Import Effect EffectFacts.

(** ** The active effect is the top of the stack *)

Lemma run_keepsTop call e :
  (forall p, respects keepsTop (call p)) -> respects keepsTop (run call e).
Proof.
  intros Hcall st o st' H T. unfold run in H.
  destruct (store st !! e) as [r |]; [| now injection H as _ <-].
  destruct (active r); simpl in H; [| eapply Hcall; eauto].
  destruct (set_has e (effectStack st)); simpl in H; [now injection H as _ <- |].
  apply try_finally_Some in H as (st3 & _ & ->). reflexivity.
Qed.

Lemma topOfStack_frame st st' :
  effectStack st' = effectStack st -> activeEffect st' = activeEffect st ->
  topOfStack st -> topOfStack st'.
Proof. unfold topOfStack. intros -> ->. auto. Qed.

Lemma cleanup_frame e st :
  effectStack (cleanup e st) = effectStack st /\
  activeEffect (cleanup e st) = activeEffect st /\
  shouldTrack (cleanup e st) = shouldTrack st /\
  var (cleanup e st) = var st /\
  length (store (cleanup e st)) = length (store st).
Proof.
  unfold cleanup. destruct (store st !! e) as [r |]; [| auto].
  rewrite length_store_on_effect. unfold on_effect. simpl.
  destruct (store st !! e); simpl; auto.
Qed.

Lemma tracked_frame a t ky st :
  effectStack (tracked a t ky st) = effectStack st /\
  activeEffect (tracked a t ky st) = activeEffect st /\
  length (store (tracked a t ky st)) = length (store st).
Proof.
  unfold tracked. destruct (negb (set_has a _)); [| auto].
  rewrite length_store_on_effect. unfold on_effect. simpl.
  destruct (store st !! a); simpl; auto.
Qed.

Lemma exec_keepsTop DEV fuel p : respects keepsTop (exec DEV fuel p).
Proof.
  revert p. induction fuel as [| n IH]; intros p; [intros st o st' [=] |].
  simpl. apply respects_step; unfold keepsTop; auto.
  - intros e. now apply run_keepsTop.
  - intros e st. apply topOfStack_frame; apply cleanup_frame.
  - intros e st. apply topOfStack_frame;
      now destruct (on_effect_frame e (set_active false) st) as (_ & ? & ?).
  - intros a t ky st _. apply topOfStack_frame; apply tracked_frame.
Qed.

(** X12. Every function of the caller that runs to an end, whatever it calls
    in the runtime and however it returns, hands back the tracking
    context it was given: the same stack, and, the active effect being
    the top of the stack before, the same active effect, still the top. *)
Theorem tracking_context_restored (DEV : bool) (fuel : nat) (p : prog)
    (st st' : state) (o : outcome value) :
  topOfStack st -> exec DEV fuel p st = Some (o, st') ->
  effectStack st' = effectStack st /\ activeEffect st' = activeEffect st /\
  topOfStack st'.
Proof.
  intros T H. pose proof (exec_sameStack DEV fuel p st o st' H) as Hs.
  pose proof (exec_keepsTop DEV fuel p st o st' H T) as T'.
  unfold sameStack, topOfStack in *. repeat split; congruence.
Qed.

(** ** The life of an effect object *)

Lemma lifecycle_refl st : lifecycle st st.
Proof. intros e r H. exists r. auto. Qed.

Lemma lifecycle_trans a b c : lifecycle a b -> lifecycle b c -> lifecycle a c.
Proof.
  intros H1 H2 e r H. destruct (H1 e r H) as (r1 & Hr1 & Hraw1 & Hopt1 & Hact1).
  destruct (H2 e r1 Hr1) as (r2 & Hr2 & Hraw2 & Hopt2 & Hact2).
  exists r2. repeat split; try congruence. auto.
Qed.

Lemma lifecycle_same_store st st' : store st' = store st -> lifecycle st st'.
Proof. intros Hs e r H. exists r. rewrite Hs. auto. Qed.

Lemma lifecycle_on_effect e f st :
  (forall r, raw (f r) = raw r /\ options (f r) = options r /\
             (active r = false -> active (f r) = false)) ->
  lifecycle st (on_effect e f st).
Proof.
  intros Hf e' r H. rewrite store_on_effect.
  destruct (decide (e' = e)) as [-> |]; [| exists r; auto].
  rewrite H. simpl. exists (f r). split; [reflexivity |]. apply Hf.
Qed.

Lemma lifecycle_cleanup e st : lifecycle st (cleanup e st).
Proof.
  unfold cleanup. destruct (store st !! e) as [r |]; [| apply lifecycle_refl].
  eapply lifecycle_trans; [| apply lifecycle_on_effect; now intros []].
  now apply lifecycle_same_store.
Qed.

Lemma lifecycle_tracked a t ky st : lifecycle st (tracked a t ky st).
Proof.
  unfold tracked. destruct (negb (set_has a _));
    [| now apply lifecycle_same_store].
  eapply lifecycle_trans; [| apply lifecycle_on_effect; now intros []].
  now apply lifecycle_same_store.
Qed.

Lemma run_lifecycle call e :
  (forall p, respects lifecycle (call p)) -> respects lifecycle (run call e).
Proof.
  intros Hcall st o st' H. unfold run in H.
  destruct (store st !! e) as [r |];
    [| injection H as _ <-; apply lifecycle_refl].
  destruct (active r); simpl in H; [| eapply Hcall; eauto].
  destruct (set_has e (effectStack st)); simpl in H;
    [injection H as _ <-; apply lifecycle_refl |].
  apply try_finally_Some in H as (st3 & H & ->).
  eapply lifecycle_trans; [apply lifecycle_cleanup |].
  eapply lifecycle_trans; [| now apply (lifecycle_same_store st3)].
  eapply lifecycle_trans; [| eapply Hcall; exact H].
  now apply lifecycle_same_store.
Qed.

Lemma exec_lifecycle DEV fuel p : respects lifecycle (exec DEV fuel p).
Proof.
  revert p. induction fuel as [| n IH]; intros p; [intros st o st' [=] |].
  simpl. apply respects_step; auto using lifecycle_refl, lifecycle_cleanup.
  - apply lifecycle_trans.
  - intros e. now apply run_lifecycle.
  - intros e st. apply lifecycle_on_effect. now intros [].
  - intros fn opts st e r H. exists r. simpl.
    split; [now apply lookup_app_l_Some | auto].
  - intros a t ky st _. apply lifecycle_tracked.
  - intros k st. now apply lifecycle_same_store.
  - intros b st. now apply lifecycle_same_store.
Qed.

(** X13. Effect objects are never removed, the function and the options of an
    effect never change, and [stop] is final: across any run, an effect
    that was stopped before is stopped after. *)
Theorem stopped_is_final (DEV : bool) (fuel : nat) (p : prog)
    (st st' : state) (o : outcome value) :
  exec DEV fuel p st = Some (o, st') ->
  length (store st) <= length (store st') /\
  (forall e r, store st !! e = Some r ->
     exists r', store st' !! e = Some r' /\ raw r' = raw r /\
                options r' = options r /\
                (active r = false -> active r' = false)).
Proof.
  intros H. pose proof (exec_lifecycle DEV fuel p st o st' H) as L.
  split; [| exact L].
  destruct (Nat.le_gt_cases (length (store st)) (length (store st')))
    as [Hle | Hgt]; [exact Hle |].
  destruct (lookup_lt_is_Some_2 (store st) (length (store st'))) as [r Hr];
    [lia |].
  destruct (L _ _ Hr) as (r' & Hr' & _).
  apply lookup_lt_Some in Hr'. lia.
Qed.

(** ** Nothing leaves [targetMap] *)

Lemma hasBucket_map_set tm t ky s d :
  hasBucket tm d ->
  hasBucket
    (map_set t
       (map_set ky s (match map_get t tm with Some m => m | None => [] end))
       tm) d.
Proof.
  intros (dm & dep & Ht & Hk). destruct d as [t' k']. simpl in *.
  unfold hasBucket. simpl. rewrite map_get_set.
  destruct (decide (t' = t)) as [-> |]; [| eauto].
  rewrite Ht. destruct (decide (k' = ky)) as [-> | Hne].
  - exists (map_set ky s dm), s. split; [reflexivity |].
    rewrite map_get_set. now rewrite decide_True.
  - exists (map_set ky s dm), dep. split; [reflexivity |].
    rewrite map_get_set. now rewrite decide_False.
Qed.

Lemma tracked_target_map_set (tm : list (target * list (key * list effId)))
    (t : target) (ky : key) (s : list effId) (t' : target) :
  is_Some (map_get t' tm) ->
  is_Some
    (map_get t'
       (map_set t
          (map_set ky s (match map_get t tm with Some m => m | None => [] end))
          tm)).
Proof.
  intros H. rewrite map_get_set. destruct (decide (t' = t)); eauto.
Qed.

Lemma bucketsKept_refl st : bucketsKept st st.
Proof. split; auto. Qed.

Lemma bucketsKept_trans a b c :
  bucketsKept a b -> bucketsKept b c -> bucketsKept a c.
Proof. intros [H1 H2] [H3 H4]. split; auto. Qed.

Lemma bucketsKept_same st st' :
  targetMap st' = targetMap st -> bucketsKept st st'.
Proof. intros H. unfold bucketsKept. rewrite H. auto. Qed.

Lemma on_dep_keeps tm d f :
  (forall t, is_Some (map_get t tm) -> is_Some (map_get t (on_dep d f tm))) /\
  (forall d', hasBucket tm d' -> hasBucket (on_dep d f tm) d').
Proof.
  unfold on_dep. destruct (map_get (fst d) tm) as [dm |] eqn:Ht; [| auto].
  destruct (map_get (snd d) dm) as [dep |] eqn:Hk; [| auto].
  pose proof (tracked_target_map_set tm (fst d) (snd d) (f dep)) as H1.
  pose proof (hasBucket_map_set tm (fst d) (snd d) (f dep)) as H2.
  rewrite Ht in H1, H2. split; auto.
Qed.

Lemma bucketsKept_cleanup e st : bucketsKept st (cleanup e st).
Proof.
  unfold cleanup. destruct (store st !! e) as [r |]; [| apply bucketsKept_refl].
  eapply bucketsKept_trans;
    [| apply bucketsKept_same;
       match goal with
       | |- context [on_effect e ?f ?s] =>
         now destruct (on_effect_frame e f s) as (-> & _)
       end].
  unfold bucketsKept. simpl. generalize (targetMap st) as tm.
  induction (deps r) as [| d ds IH]; intros tm; simpl; [auto |].
  destruct (on_dep_keeps tm d (set_delete e)) as [H1 H2].
  destruct (IH (on_dep d (set_delete e) tm)) as [H3 H4]. split; auto.
Qed.

Lemma bucketsKept_tracked a t ky st : bucketsKept st (tracked a t ky st).
Proof.
  unfold tracked. destruct (negb (set_has a _)).
  - eapply bucketsKept_trans;
      [| apply bucketsKept_same;
         match goal with
         | |- context [on_effect a ?f ?s] =>
           now destruct (on_effect_frame a f s) as (-> & _)
         end].
    split; simpl; intros; [now apply tracked_target_map_set
                          | now apply hasBucket_map_set].
  - split; simpl; intros; [now apply tracked_target_map_set
                          | now apply hasBucket_map_set].
Qed.

Lemma run_bucketsKept call e :
  (forall p, respects bucketsKept (call p)) -> respects bucketsKept (run call e).
Proof.
  intros Hcall st o st' H. unfold run in H.
  destruct (store st !! e) as [r |];
    [| injection H as _ <-; apply bucketsKept_refl].
  destruct (active r); simpl in H; [| eapply Hcall; eauto].
  destruct (set_has e (effectStack st)); simpl in H;
    [injection H as _ <-; apply bucketsKept_refl |].
  apply try_finally_Some in H as (st3 & H & ->).
  eapply bucketsKept_trans; [apply bucketsKept_cleanup |].
  eapply bucketsKept_trans; [| now apply (bucketsKept_same st3)].
  eapply bucketsKept_trans; [| eapply Hcall; exact H].
  now apply bucketsKept_same.
Qed.

Lemma exec_bucketsKept DEV fuel p : respects bucketsKept (exec DEV fuel p).
Proof.
  revert p. induction fuel as [| n IH]; intros p; [intros st o st' [=] |].
  simpl. apply respects_step;
    auto using bucketsKept_refl, bucketsKept_cleanup.
  - apply bucketsKept_trans.
  - intros e. now apply run_bucketsKept.
  - intros e st. apply bucketsKept_same.
    now destruct (on_effect_frame e (set_active false) st) as (-> & _).
  - intros fn opts st. now apply bucketsKept_same.
  - intros a t ky st _. apply bucketsKept_tracked.
  - intros k st. now apply bucketsKept_same.
  - intros b st. now apply bucketsKept_same.
Qed.

(** X14. The graph only grows: no run removes a target from [targetMap] or a
    [Set] from an inner map, not even [cleanup] or [stop], which empty the
    sets and leave them in place. A target once tracked is never again
    "never been tracked" for [trigger]. *)
Theorem graph_buckets_are_kept (DEV : bool) (fuel : nat) (p : prog)
    (st st' : state) (o : outcome value) :
  exec DEV fuel p st = Some (o, st') ->
  (forall t, is_Some (map_get t (targetMap st)) ->
             is_Some (map_get t (targetMap st'))) /\
  (forall d, hasBucket (targetMap st) d -> hasBucket (targetMap st') d) /\
  (forall e, bucketsKept st (cleanup e st)).
Proof.
  intros H. destruct (exec_bucketsKept DEV fuel p st o st' H) as [H1 H2].
  split; [exact H1 |]. split; [exact H2 |]. intros e. apply bucketsKept_cleanup.
Qed.

(** ** The lists are maps and sets *)

Section KeyFacts.
Context {K V : Type} `{EqDecision K}.

Lemma map_get_In (k : K) (v : V) (m : list (K * V)) :
  map_get k m = Some v -> In (k, v) m.
Proof.
  induction m as [| [k0 v0] m IH]; simpl; [discriminate |].
  destruct (decide (k = k0)) as [-> |]; [intros [= ->]; now left |].
  intros H. right. now apply IH.
Qed.

Lemma In_map_get (k : K) (v : V) (m : list (K * V)) :
  List.NoDup (map fst m) -> In (k, v) m -> map_get k m = Some v.
Proof.
  induction m as [| [k0 v0] m IH]; simpl; [tauto |].
  intros Hnd [[= -> ->] | Hin].
  - now rewrite decide_True.
  - apply NoDup_cons_iff in Hnd as [Hnot Hnd].
    destruct (decide (k = k0)) as [-> |]; [| now apply IH].
    destruct Hnot. apply in_map_iff. now exists (k0, v).
Qed.

Lemma In_map_set (k k' : K) (v v' : V) (m : list (K * V)) :
  In (k', v') (map_set k v m) -> (k' = k /\ v' = v) \/ In (k', v') m.
Proof.
  induction m as [| [k0 v0] m IH]; simpl.
  - intros [[= -> ->] | []]. now left.
  - destruct (decide (k = k0)) as [-> |]; simpl.
    + intros [[= -> ->] | Hin]; auto.
    + intros [Heq | Hin]; auto. apply IH in Hin. tauto.
Qed.

Lemma In_fst_map_set (k k' : K) (v : V) (m : list (K * V)) :
  In k' (map fst (map_set k v m)) -> k' = k \/ In k' (map fst m).
Proof.
  intros H. apply in_map_iff in H as ([k1 v1] & <- & Hin).
  apply In_map_set in Hin as [[-> _] | Hin]; [now left |].
  right. apply in_map_iff. now exists (k1, v1).
Qed.

Lemma NoDup_map_set (k : K) (v : V) (m : list (K * V)) :
  List.NoDup (map fst m) -> List.NoDup (map fst (map_set k v m)).
Proof.
  induction m as [| [k0 v0] m IH]; simpl.
  - intros _. constructor; [tauto | constructor].
  - intros Hnd. apply NoDup_cons_iff in Hnd as [Hnot Hnd].
    destruct (decide (k = k0)) as [-> |]; simpl.
    + now constructor.
    + constructor; [| now apply IH].
      intros Hin. apply In_fst_map_set in Hin as [-> | Hin]; auto.
Qed.

End KeyFacts.

(** The part of [noDuplicates] that is about [targetMap]. *)
Lemma maps_map_set (tm : list (target * list (key * list effId)))
    (t : target) (ky : key) (s : list effId) :
  List.NoDup (map fst tm) ->
  (forall t' dm, In (t', dm) tm -> List.NoDup (map fst dm)) ->
  (forall d, List.NoDup (members tm d)) ->
  List.NoDup s ->
  let tm' := map_set t
               (map_set ky s (match map_get t tm with
                              | Some m => m | None => [] end)) tm in
  List.NoDup (map fst tm') /\
  (forall t' dm, In (t', dm) tm' -> List.NoDup (map fst dm)) /\
  (forall d, List.NoDup (members tm' d)).
Proof.
  intros N1 N2 N3 Ns tm'. split; [now apply NoDup_map_set |]. split.
  - intros t' dm Hin. apply In_map_set in Hin as [[-> ->] | Hin];
      [| now apply (N2 t')].
    apply NoDup_map_set. destruct (map_get t tm) as [m |] eqn:Hm;
      [| constructor].
    apply (N2 t). now apply map_get_In.
  - intros d. unfold tm'. rewrite members_map_set.
    destruct (decide (d = (t, ky))); auto.
Qed.

Lemma maps_on_dep (tm : list (target * list (key * list effId))) (d : Dep)
    (f : list effId -> list effId) :
  (forall l, List.NoDup l -> List.NoDup (f l)) ->
  List.NoDup (map fst tm) ->
  (forall t' dm, In (t', dm) tm -> List.NoDup (map fst dm)) ->
  (forall d', List.NoDup (members tm d')) ->
  List.NoDup (map fst (on_dep d f tm)) /\
  (forall t' dm, In (t', dm) (on_dep d f tm) -> List.NoDup (map fst dm)) /\
  (forall d', List.NoDup (members (on_dep d f tm) d')).
Proof.
  intros Hf N1 N2 N3. unfold on_dep.
  destruct (map_get (fst d) tm) as [dm |] eqn:Ht; [| auto].
  destruct (map_get (snd d) dm) as [dep |] eqn:Hk; [| auto].
  pose proof (maps_map_set tm (fst d) (snd d) (f dep) N1 N2 N3) as H.
  rewrite Ht in H. apply H. apply Hf.
  specialize (N3 d). unfold members in N3. now rewrite Ht, Hk in N3.
Qed.

Lemma set_delete_NoDup e l : List.NoDup l -> List.NoDup (set_delete e l).
Proof. apply List.NoDup_filter. Qed.

Lemma NoDup_snoc {A : Type} (l : list A) (x : A) :
  List.NoDup l -> ~ In x l -> List.NoDup (l ++ [x]).
Proof.
  intros Hnd Hnot. apply List.NoDup_app; [exact Hnd | |].
  - constructor; [tauto | constructor].
  - intros a Ha [<- | []]. contradiction.
Qed.

Lemma sound_init : sound init.
Proof.
  split; [apply consistent_init |].
  repeat split; simpl; try constructor; try tauto.
Qed.

Lemma depsOf_same_store st st' e :
  store st' = store st -> depsOf st' e = depsOf st e.
Proof. unfold depsOf. now intros ->. Qed.

Lemma sound_cleanup e st : sound st -> sound (cleanup e st).
Proof.
  intros [C (N1 & N2 & N3 & N4)]. split; [now apply consistent_cleanup |].
  unfold cleanup. destruct (store st !! e) as [r |] eqn:He;
    [| repeat split; auto].
  assert (Hmaps :
    let tm := fold_left (fun tm d => on_dep d (set_delete e) tm)
                        (deps r) (targetMap st) in
    List.NoDup (map fst tm) /\
    (forall t' dm, In (t', dm) tm -> List.NoDup (map fst dm)) /\
    (forall d', List.NoDup (members tm d'))).
  { generalize (targetMap st) N1 N2 N3.
    induction (deps r) as [| d ds IH]; intros tm M1 M2 M3; simpl; [auto |].
    destruct (maps_on_dep tm d (set_delete e) (set_delete_NoDup e) M1 M2 M3)
      as (K1 & K2 & K3).
    now apply IH. }
  destruct Hmaps as (M1 & M2 & M3).
  match goal with
  | |- noDuplicates (on_effect e ?f ?s) =>
    destruct (on_effect_frame e f s) as (Htm & _);
    unfold noDuplicates; rewrite Htm
  end.
  split; [exact M1 |]. split; [exact M2 |]. split; [exact M3 |].
  intros e'. rewrite depsOf_on_effect. simpl. rewrite He.
  destruct (decide (e' = e)); [constructor | apply N4].
Qed.

Lemma sound_tracked a t ky st :
  activeEffect st = Some a -> sound st -> sound (tracked a t ky st).
Proof.
  intros Ha [C (N1 & N2 & N3 & N4)].
  split; [now apply consistent_tracked |].
  unfold tracked.
  set (depsMap := match map_get t (targetMap st) with
                  | Some m => m | None => [] end).
  assert (Hdep : match map_get ky depsMap with Some s => s | None => [] end
                 = members (targetMap st) (t, ky)).
  { unfold members, depsMap. simpl. destruct (map_get t (targetMap st));
      reflexivity. }
  rewrite Hdep.
  destruct (set_has a (members (targetMap st) (t, ky))) eqn:Hhas; simpl.
  - destruct (maps_map_set (targetMap st) t ky _ N1 N2 N3 (N3 (t, ky)))
      as (M1 & M2 & M3).
    repeat split; auto.
  - apply set_has_false in Hhas.
    destruct (maps_map_set (targetMap st) t ky
                (members (targetMap st) (t, ky) ++ [a]) N1 N2 N3
                (NoDup_snoc _ _ (N3 (t, ky)) Hhas)) as (M1 & M2 & M3).
    match goal with
    | |- noDuplicates (on_effect a ?f ?s) =>
      destruct (on_effect_frame a f s) as (Htm & _);
      unfold noDuplicates; rewrite Htm
    end.
    split; [exact M1 |]. split; [exact M2 |]. split; [exact M3 |].
    intros e. rewrite depsOf_on_effect. simpl.
    destruct (decide (e = a)) as [-> |]; [| apply (N4 e)].
    destruct (store st !! a) as [r |] eqn:Hr; [| constructor]. simpl.
    apply NoDup_snoc.
    + specialize (N4 a). unfold depsOf in N4. now rewrite Hr in N4.
    + intros Hin. apply Hhas. apply (proj1 C). unfold depsOf. now rewrite Hr.
Qed.

Lemma noDuplicates_same st st' :
  targetMap st' = targetMap st -> (forall e, depsOf st' e = depsOf st e) ->
  noDuplicates st -> noDuplicates st'.
Proof.
  intros Htm Hd (N1 & N2 & N3 & N4). unfold noDuplicates. rewrite Htm.
  repeat split; auto. intros e. rewrite Hd. apply N4.
Qed.

Lemma run_keepsSound call e :
  (forall p, respects keepsSound (call p)) -> respects keepsSound (run call e).
Proof.
  intros Hcall st o st' H S. unfold run in H.
  destruct (store st !! e) as [r |] eqn:He; [| now injection H as _ <-].
  destruct (active r); simpl in H; [| eapply Hcall; eauto].
  destruct (set_has e (effectStack st)); simpl in H; [now injection H as _ <- |].
  apply try_finally_Some in H as (st3 & H & ->).
  assert (S3 : sound st3).
  { eapply Hcall; [exact H |]. destruct (sound_cleanup e st S) as [C1 N1].
    split; [| now apply (noDuplicates_same (cleanup e st))].
    apply consistent_enter; [| exact C1].
    destruct (cleanup_frame e st) as (_ & _ & _ & _ & ->).
    eapply lookup_lt_Some; eauto. }
  destruct S3 as [C3 N3]. split; [now apply consistent_leave |].
  now apply (noDuplicates_same st3).
Qed.

Lemma exec_keepsSound DEV fuel p : respects keepsSound (exec DEV fuel p).
Proof.
  revert p. induction fuel as [| n IH]; intros p; [intros st o st' [=] |].
  simpl. apply respects_step; unfold keepsSound; auto.
  - intros e. now apply run_keepsSound.
  - intros e st. apply sound_cleanup.
  - intros e st [C N]. split; [now apply consistent_deactivate |].
    apply (noDuplicates_same st); [| | exact N].
    + now destruct (on_effect_frame e (set_active false) st) as (-> & _).
    + intros e'. rewrite depsOf_on_effect.
      destruct (decide (e' = e)) as [-> |]; [| reflexivity].
      unfold depsOf. now destruct (store st !! e).
  - intros fn opts st [C N]. split; [now apply consistent_create |].
    apply (noDuplicates_same st); [reflexivity | | exact N].
    intros e. unfold depsOf. simpl.
    destruct (Nat.lt_ge_cases e (length (store st))) as [Hlt | Hge].
    + now rewrite lookup_app_l.
    + rewrite (lookup_ge_None_2 (store st)) by exact Hge.
      rewrite lookup_app_r by exact Hge.
      destruct (e - length (store st)) as [| [| k]]; reflexivity.
  - intros a t ky st Ha. now apply sound_tracked.
Qed.

(** X15. The dependency graph really is a map of maps of sets: starting from
    a freshly loaded module, through any run, [targetMap] and its inner
    maps never hold a key twice, a [Dep] never holds an effect twice, and
    an [effect.deps] never lists a [Dep] twice. *)
Theorem graph_stays_duplicate_free (DEV : bool) (fuel : nat) (p : prog)
    (st st' : state) (o : outcome value) :
  sound st -> exec DEV fuel p st = Some (o, st') ->
  List.NoDup (map fst (targetMap st')) /\
  (forall t depsMap, In (t, depsMap) (targetMap st') ->
                     List.NoDup (map fst depsMap)) /\
  (forall d, List.NoDup (members (targetMap st') d)) /\
  (forall e, List.NoDup (depsOf st' e)) /\
  sound st' /\ sound init.
Proof.
  intros S H. pose proof (exec_keepsSound DEV fuel p st o st' H S) as S'.
  destruct S' as [C (N1 & N2 & N3 & N4)].
  repeat split; auto; try apply sound_init; apply C.
Qed.

(** ** [cleanup] and [stop] *)

Lemma set_delete_notin e l : ~ In e l -> set_delete e l = l.
Proof.
  unfold set_delete. induction l as [| x l IH]; simpl; [reflexivity |].
  intros Hnot. destruct (Nat.eqb_spec e x) as [-> | Hne]; simpl.
  - destruct Hnot. now left.
  - f_equal. apply IH. tauto.
Qed.

Lemma set_delete_twice e l : set_delete e (set_delete e l) = set_delete e l.
Proof.
  apply set_delete_notin. rewrite set_delete_In. tauto.
Qed.

Lemma members_cleanup_fold_eq e ds tm d :
  (In d ds ->
   members (fold_left (fun tm d => on_dep d (set_delete e) tm) ds tm) d
   = set_delete e (members tm d)) /\
  (~ In d ds ->
   members (fold_left (fun tm d => on_dep d (set_delete e) tm) ds tm) d
   = members tm d).
Proof.
  revert tm. induction ds as [| d0 ds IH]; intros tm; simpl; [tauto |].
  destruct (IH (on_dep d0 (set_delete e) tm)) as [IH1 IH2].
  rewrite members_on_dep in IH1, IH2 by reflexivity.
  destruct (in_dec (fun x y => decide (x = y)) d ds) as [Hin | Hnot].
  - split; [| tauto]. intros _. rewrite (IH1 Hin).
    destruct (decide (d = d0)) as [-> |]; [apply set_delete_twice | reflexivity].
  - split.
    + intros [<- | Hin]; [| contradiction]. rewrite (IH2 Hnot).
      now rewrite decide_True.
    + intros Hno. rewrite (IH2 Hnot). rewrite decide_False; [reflexivity |].
      intros ->. tauto.
Qed.

Lemma cleanup_Some e st r :
  store st !! e = Some r ->
  cleanup e st =
  mkState (<[e := set_deps [] r]> (store st))
          (fold_left (fun tm d => on_dep d (set_delete e) tm)
                     (deps r) (targetMap st))
          (effectStack st) (activeEffect st) (shouldTrack st) (var st).
Proof. intros He. unfold cleanup. rewrite He. unfold on_effect. simpl. now rewrite He. Qed.

(** X16. [cleanup] removes the effect from every [Dep] and from nothing else:
    each [Dep] keeps its other members in their order, [effect.deps]
    becomes empty, the other effects keep theirs, and a second [cleanup]
    changes nothing. *)
Theorem cleanup_unsubscribes (e : effId) (st : state) :
  consistent st ->
  (forall d, members (targetMap (cleanup e st)) d
             = set_delete e (members (targetMap st) d)) /\
  (forall d, ~ In e (members (targetMap (cleanup e st)) d)) /\
  depsOf (cleanup e st) e = [] /\
  (forall e', e' <> e -> depsOf (cleanup e st) e' = depsOf st e') /\
  cleanup e (cleanup e st) = cleanup e st.
Proof.
  intros [Hb Hl].
  assert (Hm : forall d, members (targetMap (cleanup e st)) d
                         = set_delete e (members (targetMap st) d)).
  { intros d. unfold cleanup. destruct (store st !! e) as [r |] eqn:He.
    - match goal with
      | |- context [on_effect e ?f ?s] =>
        destruct (on_effect_frame e f s) as (-> & _)
      end. simpl.
      destruct (members_cleanup_fold_eq e (deps r) (targetMap st) d) as [H1 H2].
      destruct (in_dec (fun x y => decide (x = y)) d (deps r)) as [Hin | Hnot];
        [now apply H1 |].
      rewrite (H2 Hnot). symmetry. apply set_delete_notin.
      intros Hin. apply Hb in Hin. unfold depsOf in Hin. now rewrite He in Hin.
    - symmetry. apply set_delete_notin. intros Hin. apply Hb in Hin.
      unfold depsOf in Hin. now rewrite He in Hin. }
  split; [exact Hm |]. split; [| split; [| split]].
  - intros d. rewrite Hm, set_delete_In. tauto.
  - unfold cleanup. destruct (store st !! e) as [r |] eqn:He.
    + rewrite depsOf_on_effect, decide_True by reflexivity. simpl.
      now rewrite He.
    + unfold depsOf. now rewrite He.
  - intros e' Hne. unfold cleanup. destruct (store st !! e) as [r |] eqn:He;
      [| reflexivity].
    rewrite depsOf_on_effect, decide_False by exact Hne. reflexivity.
  - destruct (store st !! e) as [r |] eqn:He.
    + rewrite (cleanup_Some e st r He).
      erewrite cleanup_Some;
        [| simpl; apply list_lookup_insert_eq; eapply lookup_lt_Some; eauto].
      simpl. now rewrite list_insert_insert_eq.
    + unfold cleanup. now rewrite He, He.
Qed.

(** [trigger] only ever dispatches effects subscribed to the target. *)
Lemma dispatched_subscribed st t ty ky e :
  noDuplicates st -> In e (dispatched st t ty ky) ->
  exists k, In e (members (targetMap st) (t, k)).
Proof.
  intros (N1 & N2 & _) Hin.
  destruct (map_get t (targetMap st)) as [dm |] eqn:Ht;
    [| unfold dispatched in Hin; rewrite Ht in Hin; destruct Hin].
  pose proof (proj1 (dispatched_In st t ty ky dm e Ht) Hin)
    as (dep & Hdep & He).
  assert (Hk : exists k, map_get k dm = Some dep).
  { unfold contributing in Hdep. destruct ty;
      try (apply in_app_iff in Hdep as [Hdep | Hdep];
           [destruct (decide (ky = KUndefined)); [destruct Hdep |];
            destruct (map_get ky dm) eqn:E; [| destruct Hdep];
            destruct Hdep as [<- | []]; eauto
           | try (destruct Hdep; fail);
             try (destruct (map_get (iterationKey t) dm) eqn:E;
                  [| destruct Hdep]; destruct Hdep as [<- | []]; eauto)]).
    apply in_map_iff in Hdep as ([k dep'] & <- & Hentry). exists k.
    apply In_map_get; [| exact Hentry].
    apply (N2 t). now apply map_get_In. }
  destruct Hk as [k Hk]. exists k.
  rewrite (members_depsMap st t dm k Ht). now rewrite Hk.
Qed.

(** X17. Stopping an active effect that has no [onStop] hook unsubscribes it
    everywhere: it is in no [Dep], so no [trigger] dispatches it, whatever
    the target, kind and key; it is inactive; stopping it again changes
    nothing; and calling it runs the function it was created with
    directly, without touching the stack. *)
Theorem stop_unsubscribes (call : prog -> M value) (e : effId)
    (r : ReactiveEffect) (st : state) :
  sound st -> store st !! e = Some r -> active r = true ->
  onStop (options r) = None ->
  let st' := on_effect e (set_active false) (cleanup e st) in
  stop call e st = Some (Normal tt, st') /\
  (forall d, ~ In e (members (targetMap st') d)) /\
  (forall t ty ky, ~ In e (dispatched st' t ty ky)) /\
  (exists r', store st' !! e = Some r' /\ active r' = false /\
              raw r' = raw r) /\
  stop call e st' = Some (Normal tt, st') /\
  run call e st' = call (raw r) st'.
Proof.
  intros S He Hact Hstop st'.
  destruct (cleanup_unsubscribes e st (proj1 S)) as (_ & Hnot & _).
  destruct (sound_cleanup e st S) as [C1 N1].
  assert (Htm : targetMap st' = targetMap (cleanup e st))
    by (now destruct (on_effect_frame e (set_active false) (cleanup e st))).
  assert (Hr1 : exists r1, store (cleanup e st) !! e = Some r1 /\
                           raw r1 = raw r).
  { unfold cleanup. rewrite He, store_on_effect, decide_True by reflexivity.
    simpl. rewrite He. simpl. eauto. }
  destruct Hr1 as (r1 & Hr1 & Hraw1).
  assert (Hr' : store st' !! e = Some (set_active false r1)).
  { unfold st'. rewrite store_on_effect, decide_True by reflexivity.
    now rewrite Hr1. }
  assert (N' : noDuplicates st').
  { apply (noDuplicates_same (cleanup e st)); [exact Htm | | exact N1].
    intros e'. unfold st'. rewrite depsOf_on_effect.
    destruct (decide (e' = e)) as [-> |]; [| reflexivity].
    unfold depsOf. now rewrite Hr1. }
  split; [| split; [| split; [| split; [| split]]]].
  - unfold stop. rewrite He, Hact, Hstop. reflexivity.
  - intros d. rewrite Htm. apply Hnot.
  - intros t ty ky Hin.
    apply (dispatched_subscribed st' t ty ky e N') in Hin as [k Hk].
    rewrite Htm in Hk. exact (Hnot _ Hk).
  - exists (set_active false r1). auto.
  - unfold stop. rewrite Hr'. reflexivity.
  - unfold run. rewrite Hr'. simpl. now rewrite Hraw1.
Qed.

(** X18. What [trigger] reaches: it never dispatches an effect that is not
    subscribed to some key of the target; a [CLEAR] dispatches exactly
    the effects subscribed to any key of the target, whatever key it is
    given; a [SET] without a key dispatches nothing. *)
Theorem trigger_reaches_subscribers_only (st : state) (t : target) :
  noDuplicates st ->
  (forall ty ky e,
     In e (dispatched st t ty ky) ->
     exists k, In e (members (targetMap st) (t, k))) /\
  (forall ky e,
     In e (dispatched st t CLEAR ky) <->
     exists k, In e (members (targetMap st) (t, k))) /\
  dispatched st t SET KUndefined = [].
Proof.
  intros N. split; [| split].
  - intros ty ky e. now apply dispatched_subscribed.
  - intros ky e. split; [now apply dispatched_subscribed |].
    intros [k Hk].
    destruct (map_get t (targetMap st)) as [dm |] eqn:Ht;
      [| unfold members in Hk; simpl in Hk; rewrite Ht in Hk; destruct Hk].
    apply (dispatched_In st t CLEAR ky dm e Ht).
    rewrite (members_depsMap st t dm k Ht) in Hk.
    destruct (map_get k dm) as [dep |] eqn:Hd; [| destruct Hk].
    exists dep. split; [| exact Hk]. simpl.
    apply in_map_iff. exists (k, dep). split; [reflexivity |].
    now apply map_get_In.
  - unfold dispatched. destruct (map_get t (targetMap st)); reflexivity.
Qed.

(** ** [track] *)

Lemma map_set_same {K V : Type} `{EqDecision K} (k : K) (v : V)
    (m : list (K * V)) :
  map_get k m = Some v -> map_set k v m = m.
Proof.
  induction m as [| [k0 v0] m IH]; simpl; [discriminate |].
  destruct (decide (k = k0)) as [-> |]; [now intros [= ->] |].
  intros H. f_equal. now apply IH.
Qed.

Lemma set_targetMap_id st : set_targetMap (targetMap st) st = st.
Proof. now destruct st. Qed.

Lemma targetMap_tracked a t ky st :
  targetMap (tracked a t ky st) =
  map_set t
    (map_set ky (set_add a (members (targetMap st) (t, ky)))
       (match map_get t (targetMap st) with Some m => m | None => [] end))
    (targetMap st).
Proof.
  unfold tracked.
  assert (Hdep : match map_get ky (match map_get t (targetMap st) with
                                   | Some m => m | None => [] end) with
                 | Some s => s | None => [] end
                 = members (targetMap st) (t, ky)).
  { unfold members. simpl. destruct (map_get t (targetMap st)); reflexivity. }
  rewrite Hdep. unfold set_add.
  destruct (set_has a (members (targetMap st) (t, ky))); simpl; [reflexivity |].
  match goal with
  | |- context [on_effect a ?f ?s] =>
    now destruct (on_effect_frame a f s) as (-> & _)
  end.
Qed.

Lemma members_tracked a t ky st d :
  members (targetMap (tracked a t ky st)) d =
  if decide (d = (t, ky)) then set_add a (members (targetMap st) (t, ky))
  else members (targetMap st) d.
Proof. rewrite targetMap_tracked. apply members_map_set. Qed.

Lemma tracked_twice a t ky st :
  tracked a t ky (tracked a t ky st) = tracked a t ky st.
Proof.
  set (st1 := tracked a t ky st).
  assert (Hin : In a (members (targetMap st1) (t, ky))).
  { unfold st1. rewrite members_tracked, decide_True by reflexivity.
    apply set_add_In. now left. }
  pose proof (targetMap_tracked a t ky st) as Htm. fold st1 in Htm.
  assert (Ht : map_get t (targetMap st1) =
               Some (map_set ky (set_add a (members (targetMap st) (t, ky)))
                       (match map_get t (targetMap st) with
                        | Some m => m | None => [] end))).
  { rewrite Htm, map_get_set. now rewrite decide_True. }
  unfold tracked at 1. rewrite Ht.
  assert (Hk : map_get ky
                 (map_set ky (set_add a (members (targetMap st) (t, ky)))
                    (match map_get t (targetMap st) with
                     | Some m => m | None => [] end))
               = Some (set_add a (members (targetMap st) (t, ky)))).
  { rewrite map_get_set. now rewrite decide_True. }
  rewrite Hk.
  assert (Hmem : members (targetMap st1) (t, ky)
                 = set_add a (members (targetMap st) (t, ky))).
  { unfold st1. rewrite members_tracked. now rewrite decide_True. }
  rewrite <- Hmem. apply set_has_In in Hin. rewrite Hin. simpl.
  rewrite Hmem, (map_set_same ky _ _ Hk), (map_set_same t _ _ Ht).
  apply set_targetMap_id.
Qed.

(** X19. With tracking on, an active effect [a] and no [onTrack] hook in
    play, [track] returns normally and subscribes [a] to the [Dep] of the
    pair read: [a] is added at the end of that set unless it was in it,
    no other set changes, the pair is in [a.deps], the other effects keep
    their lists; and tracking the same read again changes nothing. *)
Theorem track_subscribes_once (DEV : bool) (call : prog -> M value)
    (t : target) (ty : TrackOpTypes) (ky : key) (a : effId) (st : state) :
  consistent st -> activeEffect st = Some a -> shouldTrack st = true ->
  (DEV = false \/
   forall r, store st !! a = Some r -> onTrack (options r) = None) ->
  let st' := tracked a t ky st in
  track DEV call t ty ky st = Some (Normal tt, st') /\
  members (targetMap st') (t, ky) = set_add a (members (targetMap st) (t, ky)) /\
  In a (members (targetMap st') (t, ky)) /\
  In (t, ky) (depsOf st' a) /\
  (forall d, d <> (t, ky) ->
             members (targetMap st') d = members (targetMap st) d) /\
  (forall e, e <> a -> depsOf st' e = depsOf st e) /\
  track DEV call t ty ky st' = Some (Normal tt, st').
Proof.
  intros C Ha Hon Hhook st'.
  pose proof (consistent_tracked a t ky st Ha C) as C'. fold st' in C'.
  assert (Hmem : members (targetMap st') (t, ky)
                 = set_add a (members (targetMap st) (t, ky))).
  { unfold st'. rewrite members_tracked. now rewrite decide_True. }
  assert (Hin : In a (members (targetMap st') (t, ky))).
  { rewrite Hmem. apply set_add_In. now left. }
  assert (Hframe : activeEffect st' = Some a /\ shouldTrack st' = true).
  { unfold st', tracked. destruct (negb (set_has a _)); [| now split].
    unfold on_effect. simpl. destruct (store st !! a); now split. }
  split; [| split; [exact Hmem | split; [exact Hin | split; [| split; [| split]]]]].
  - unfold track. rewrite Ha, Hon. cbn [negb]. unfold st', tracked.
    destruct (negb (set_has a _)); [| reflexivity].
    destruct Hhook as [-> | Hhook]; [reflexivity |].
    destruct DEV; [| reflexivity].
    destruct (store st !! a) as [r |] eqn:Hr; [| reflexivity].
    now rewrite (Hhook r eq_refl).
  - now apply (proj1 C').
  - intros d Hd. unfold st'. rewrite members_tracked.
    now rewrite decide_False.
  - intros e He. unfold st', tracked.
    destruct (negb (set_has a _)); [| reflexivity].
    rewrite depsOf_on_effect. now rewrite decide_False.
  - destruct Hframe as [Ha' Hon']. unfold track. rewrite Ha', Hon'. cbn [negb].
    pose proof (tracked_twice a t ky st) as Htw. fold st' in Htw.
    unfold tracked in Htw.
    assert (Hdep : match map_get ky (match map_get t (targetMap st') with
                                     | Some m => m | None => [] end) with
                   | Some s => s | None => [] end
                   = members (targetMap st') (t, ky)).
    { unfold members. simpl. destruct (map_get t (targetMap st')); reflexivity. }
    rewrite Hdep in *. apply set_has_In in Hin. rewrite Hin in *.
    simpl in *. now rewrite Htw.
Qed.

(** ** [trigger]: failures and order *)

(** X20. A failure in a dispatched effect leaves [trigger] at once: the
    effects after it in the dispatch order are not dispatched, and the
    failure reaches the caller of [trigger] with the state the failing
    dispatch left. *)
Theorem failure_aborts_dispatch (DEV : bool) (call : prog -> M value)
    (t : target) (ty : TriggerOpTypes) (ky : key) (extraInfo : option nat)
    (st st1 st2 : state) (before after : list effId) (e : effId) (err : nat) :
  dispatched st t ty ky = before ++ e :: after ->
  forEach (fun x => scheduleRun DEV call x t ty ky extraInfo) before st
    = Some (Normal tt, st1) ->
  scheduleRun DEV call e t ty ky extraInfo st1 = Some (Thrown err, st2) ->
  trigger DEV call t ty ky extraInfo st = Some (Thrown err, st2).
Proof.
  intros Hd Hb He. rewrite trigger_dispatch, Hd, <- forEach_app.
  unfold bind at 1. rewrite Hb. simpl. unfold bind. now rewrite He.
Qed.

Lemma set_add_notin e s : ~ In e s -> set_add e s = s ++ [e].
Proof.
  intros H. unfold set_add. apply set_has_false in H. now rewrite H.
Qed.

Lemma addRunners_in_order st dep effects computedRunners :
  List.NoDup dep ->
  (forall x, In x dep -> ~ In x effects /\ ~ In x computedRunners) ->
  addRunners st (effects, computedRunners) (Some dep) =
  (effects ++ List.filter (fun e => negb (isComputed st e)) dep,
   computedRunners ++ List.filter (isComputed st) dep).
Proof.
  simpl. revert effects computedRunners.
  induction dep as [| e dep IH]; intros effects computedRunners Hnd Hdisj;
    simpl.
  - now rewrite !app_nil_r.
  - apply NoDup_cons_iff in Hnd as [Hnot Hnd].
    destruct (Hdisj e (or_introl eq_refl)) as [He Hc].
    destruct (isComputed st e) eqn:Hcomp; simpl.
    + rewrite (set_add_notin _ _ Hc), IH; [now rewrite <- app_assoc | exact Hnd |].
      intros x Hx. destruct (Hdisj x (or_intror Hx)) as [H1 H2].
      split; [exact H1 |]. rewrite in_app_iff. simpl. intros [? | [-> | []]]; auto.
    + rewrite (set_add_notin _ _ He), IH; [now rewrite <- app_assoc | exact Hnd |].
      intros x Hx. destruct (Hdisj x (or_intror Hx)) as [H1 H2].
      split; [| exact H2]. rewrite in_app_iff. simpl. intros [? | [-> | []]]; auto.
Qed.

(** X21. The order of a dispatch for a [SET] of a key: first the computed
    effects subscribed to the key, then the plain ones, each group in the
    order in which its effects subscribed. *)
Theorem set_dispatches_in_subscription_order (st : state) (t : target)
    (ky : key) :
  noDuplicates st -> ky <> KUndefined ->
  dispatched st t SET ky =
  List.filter (isComputed st) (members (targetMap st) (t, ky)) ++
  List.filter (fun e => negb (isComputed st e)) (members (targetMap st) (t, ky)).
Proof.
  intros (_ & _ & N3 & _) Hky. specialize (N3 (t, ky)).
  unfold dispatched, members in *. simpl in *.
  destruct (map_get t (targetMap st)) as [dm |]; [| reflexivity].
  unfold collectRunners. rewrite decide_False by exact Hky.
  destruct (map_get ky dm) as [dep |]; [| reflexivity].
  rewrite (addRunners_in_order st dep [] [] N3); [reflexivity |].
  intros x _. split; intros [].
Qed.

(** ** The properties on concrete programs *)

Lemma subscribe_runs :
  exec false 40 subscribe init = Some (Normal VUndefined, subscribed).
Proof. vm_compute. reflexivity. Qed.

Lemma subscribed_sound : sound subscribed.
Proof. exact (exec_keepsSound false 40 subscribe _ _ _ subscribe_runs sound_init). Qed.

Lemma running_consistent : consistent running.
Proof.
  split.
  - intros e d. unfold depsOf, members. simpl.
    destruct e as [| e]; simpl; [tauto |]. tauto.
  - split; simpl.
    + intros e [= <-]. lia.
    + intros e [<- | []]. lia.
Qed.

Lemma tracking_context_restored_witness :
  topOfStack init /\
  exec false 40 subscribe init = Some (Normal VUndefined, subscribed) /\
  activeEffect subscribed = activeEffect init.
Proof.
  split; [reflexivity |]. split; [exact subscribe_runs |].
  exact (proj1 (proj2 (tracking_context_restored false 40 subscribe init
                         subscribed (Normal VUndefined) eq_refl
                         subscribe_runs))).
Defined.

Lemma stopped_is_final_witness :
  exec false 40 subscribe init = Some (Normal VUndefined, subscribed) /\
  length (store init) <= length (store subscribed).
Proof.
  split; [exact subscribe_runs |].
  exact (proj1 (stopped_is_final false 40 subscribe init subscribed
                  (Normal VUndefined) subscribe_runs)).
Defined.

Lemma graph_buckets_are_kept_witness :
  exec false 40 subscribe init = Some (Normal VUndefined, subscribed) /\
  (forall e, bucketsKept init (cleanup e init)).
Proof.
  split; [exact subscribe_runs |].
  exact (proj2 (proj2 (graph_buckets_are_kept false 40 subscribe init
                         subscribed (Normal VUndefined) subscribe_runs))).
Defined.

Lemma graph_stays_duplicate_free_witness :
  sound init /\
  exec false 40 subscribe init = Some (Normal VUndefined, subscribed) /\
  (forall d, List.NoDup (members (targetMap subscribed) d)).
Proof.
  split; [exact sound_init |]. split; [exact subscribe_runs |].
  exact (proj1 (proj2 (proj2
           (graph_stays_duplicate_free false 40 subscribe init subscribed
              (Normal VUndefined) sound_init subscribe_runs)))).
Defined.

Lemma cleanup_unsubscribes_witness :
  consistent subscribed /\
  (forall d, ~ In 0 (members (targetMap (cleanup 0 subscribed)) d)).
Proof.
  split; [exact (proj1 subscribed_sound) |].
  exact (proj1 (proj2 (cleanup_unsubscribes 0 subscribed
                         (proj1 subscribed_sound)))).
Defined.

Lemma stop_unsubscribes_witness :
  sound subscribed /\
  (forall t ty ky,
     ~ In 0 (dispatched
               (on_effect 0 (set_active false) (cleanup 0 subscribed))
               t ty ky)).
Proof.
  split; [exact subscribed_sound |].
  exact (proj1 (proj2 (proj2
           (stop_unsubscribes (exec false 5) 0 _ subscribed subscribed_sound
              eq_refl eq_refl eq_refl)))).
Defined.

Lemma trigger_reaches_subscribers_only_witness :
  noDuplicates subscribed /\ dispatched subscribed obj SET KUndefined = [].
Proof.
  split; [exact (proj2 subscribed_sound) |].
  exact (proj2 (proj2 (trigger_reaches_subscribers_only subscribed obj
                         (proj2 subscribed_sound)))).
Defined.

Lemma track_subscribes_once_witness :
  consistent running /\ activeEffect running = Some 0 /\
  shouldTrack running = true /\
  track false (exec false 5) obj GET (KString "k") running =
    Some (Normal tt, tracked 0 obj (KString "k") running) /\
  members (targetMap (tracked 0 obj (KString "k") running)) (obj, KString "k")
    = [0].
Proof.
  split; [exact running_consistent |]. split; [reflexivity |].
  split; [reflexivity |].
  pose proof (track_subscribes_once false (exec false 5) obj GET (KString "k")
                0 running running_consistent eq_refl eq_refl
                (or_introl eq_refl)) as H.
  split; [exact (proj1 H) | exact (proj1 (proj2 H))].
Defined.

Lemma failure_aborts_dispatch_witness :
  dispatched raising obj SET (KString "k") = [] ++ 0 :: [1] /\
  trigger false (exec false 1) obj SET (KString "k") None raising =
    Some (Thrown 9, leave (enter 0 (cleanup 0 raising))) /\
  var (leave (enter 0 (cleanup 0 raising))) = 0.
Proof.
  split; [reflexivity |]. split; [| reflexivity].
  exact (failure_aborts_dispatch false (exec false 1) obj SET (KString "k")
           None raising raising (leave (enter 0 (cleanup 0 raising)))
           [] [1] 0 9 eq_refl eq_refl eq_refl).
Defined.

Lemma set_dispatches_in_subscription_order_witness :
  noDuplicates subscribed /\
  dispatched subscribed obj SET (KString "k") =
  List.filter (isComputed subscribed)
    (members (targetMap subscribed) (obj, KString "k")) ++
  List.filter (fun e => negb (isComputed subscribed e))
    (members (targetMap subscribed) (obj, KString "k")).
Proof.
  split; [exact (proj2 subscribed_sound) |].
  apply (set_dispatches_in_subscription_order subscribed obj (KString "k")
           (proj2 subscribed_sound)).
  discriminate.
Defined.

End RuntimeLaws.
